(** * wasm-compilers backend: orchestration core

    A shallow embedding of the compile server (the Express entry point
    together with [config/languages.ts]): the result cache, the admission
    queue, the container pool, the compile job and the error clean-up,
    followed by the properties established about them.

    Conventions.
    - A JavaScript string is a [string]; its characters are read as code
      units in the range 0..255.
    - [Date.now()] is an integer number of milliseconds, a [Z].
    - A JavaScript [Map] is an association list in insertion order with
      pairwise distinct keys ([JsMap]).
    - Everything outside the process (docker, the file system, the clock,
      uuid generation) is an oracle, the [World]; every call to it is
      recorded in a trace.  The hash function is a parameter.
    - Logging touches none of the state modelled here and is left out.
      The six-hourly restart of pooled containers is modelled apart from
      the request flow ([healthCheck]). *)

From Stdlib Require Import String Ascii List ZArith Lia Bool Arith PeanoNat.
From Stdlib Require Import Permutation Sorted DecimalString Decimal DecimalNat.
Import ListNotations.

Local Open Scope list_scope.
Local Open Scope string_scope.

Set Implicit Arguments.

(** ** JavaScript [Map<string, V>] *)

Module JsMap.
Section WithValue.
Variable V : Type.

Definition t := list (string * V).

Definition empty : t := [].

Fixpoint get (k : string) (m : t) : option V :=
  match m with
  | [] => None
  | (k', v) :: m' => if String.eqb k k' then Some v else get k m'
  end.

Definition has (k : string) (m : t) : bool :=
  match get k m with Some _ => true | None => false end.

(** [set] on a key already present keeps the key's position and replaces
    the value; a new key goes last. *)
Fixpoint set (k : string) (v : V) (m : t) : t :=
  match m with
  | [] => [(k, v)]
  | (k', v') :: m' =>
      if String.eqb k k' then (k', v) :: m' else (k', v') :: set k v m'
  end.

Fixpoint delete (k : string) (m : t) : t :=
  match m with
  | [] => []
  | (k', v') :: m' =>
      if String.eqb k k' then m' else (k', v') :: delete k m'
  end.

Definition size (m : t) : nat := length m.

Definition entries (m : t) : list (string * V) := m.

Definition keys (m : t) : list string := map fst m.
End WithValue.
End JsMap.

(** ** Result cache *)

Record CacheEntry := mkEntry {
  wasm : string;
  wasmExec : option string;   (* [wasmExec?: string] *)
  timestamp : Z
}.

Definition Cache := JsMap.t CacheEntry.

Definition CACHE_TTL : Z := 1000 * 60 * 60.
Definition MAX_CACHE_SIZE : nat := 100.

(** [Array.prototype.sort] with the comparator
    [(a, b) => a[1].timestamp - b[1].timestamp]: a stable sort by
    timestamp. *)
Fixpoint insertByTimestamp (x : string * CacheEntry)
    (l : list (string * CacheEntry)) : list (string * CacheEntry) :=
  match l with
  | [] => [x]
  | y :: l' =>
      if (timestamp (snd x) <=? timestamp (snd y))%Z
      then x :: y :: l'
      else y :: insertByTimestamp x l'
  end.

Definition sortByTimestamp (l : list (string * CacheEntry))
    : list (string * CacheEntry) :=
  fold_right insertByTimestamp [] l.

(** The first loop of [cleanCache]: delete every entry of the snapshot
    whose age exceeds the TTL. *)
Definition purgeExpired (now : Z) (entries : list (string * CacheEntry))
    (cache : Cache) : Cache :=
  fold_left
    (fun c kv =>
       if (now - timestamp (snd kv) >? CACHE_TTL)%Z
       then JsMap.delete (fst kv) c else c)
    entries cache.

Definition deleteAll (toRemove : list (string * CacheEntry)) (cache : Cache)
    : Cache :=
  fold_left (fun c kv => JsMap.delete (fst kv) c) toRemove cache.

(** [cleanCache()], with [Date.now()] passed in.  The snapshot [entries]
    is taken before the purge and is the list that gets sorted. *)
Definition cleanCache (now : Z) (cache : Cache) : Cache :=
  let entries := JsMap.entries cache in
  let cache1 := purgeExpired now entries cache in
  if (MAX_CACHE_SIZE <? JsMap.size cache1)%nat then
    let sorted := sortByTimestamp entries in
    let toRemove := firstn (JsMap.size cache1 - MAX_CACHE_SIZE) sorted in
    deleteAll toRemove cache1
  else cache1.

(** Lines 228-229 of the compile job: [cleanCache()] and then
    [compilationCache.set(cacheKey, {..., timestamp: Date.now()})].  The two
    calls read the clock separately ([now1] first, [now2] second). *)
Definition cacheStore (now1 now2 : Z) (key : string) (w shim : string)
    (cache : Cache) : Cache :=
  JsMap.set key (mkEntry w (Some shim) now2) (cleanCache now1 cache).

(** ** String helpers (the JavaScript string methods the server uses) *)

Definition dq : string := String "034"%char "".
Definition nl : string := String "010"%char "".

Definition startsWith (p s : string) : bool := String.prefix p s.

(** [s.includes(sub)] *)
Fixpoint includes (sub s : string) : bool :=
  startsWith sub s ||
  match s with
  | EmptyString => false
  | String _ s' => includes sub s'
  end.

Fixpoint dropChars (n : nat) (s : string) : string :=
  match n, s with
  | O, _ => s
  | S n', String _ s' => dropChars n' s'
  | S _, EmptyString => EmptyString
  end.

(** The suffix of [s] that starts at the first occurrence of [sub]. *)
Fixpoint fromFirst (sub s : string) : option string :=
  if startsWith sub s then Some s
  else match s with
       | EmptyString => None
       | String _ s' => fromFirst sub s'
       end.

(** The prefix of [s] that ends just before the first occurrence of [sub];
    all of [s] when there is none. *)
Fixpoint beforeFirst (sub s : string) : string :=
  if startsWith sub s then EmptyString
  else match s with
       | EmptyString => EmptyString
       | String c s' => String c (beforeFirst sub s')
       end.

(** White space and line terminators among the code units 0..255, as
    [String.prototype.trim] and the regular-expression class [\s] see
    them. *)
Definition isSpace (c : ascii) : bool :=
  let n := nat_of_ascii c in
  ((9 <=? n) && (n <=? 13) || (n =? 32) || (n =? 160))%nat.

(** What the regular-expression dot does not match. *)
Definition isLineTerminator (c : ascii) : bool :=
  let n := nat_of_ascii c in ((n =? 10) || (n =? 13))%nat.

Definition isDigit (c : ascii) : bool :=
  let n := nat_of_ascii c in ((48 <=? n) && (n <=? 57))%nat.

Fixpoint trimStart (s : string) : string :=
  match s with
  | String c s' => if isSpace c then trimStart s' else s
  | EmptyString => EmptyString
  end.

Fixpoint trimEnd (s : string) : string :=
  match s with
  | EmptyString => EmptyString
  | String c s' =>
      match trimEnd s' with
      | EmptyString => if isSpace c then EmptyString else String c EmptyString
      | t => String c t
      end
  end.

Definition trim (s : string) : string := trimEnd (trimStart s).

(** [s.split('\n')] *)
Fixpoint splitLines (s : string) : list string :=
  match s with
  | EmptyString => [EmptyString]
  | String c s' =>
      if Ascii.eqb c "010"%char then EmptyString :: splitLines s'
      else match splitLines s' with
           | l :: ls => String c l :: ls
           | [] => [String c EmptyString]
           end
  end.

(** [lines.join('\n')] *)
Fixpoint joinLines (ls : list string) : string :=
  match ls with
  | [] => EmptyString
  | [l] => l
  | l :: ls' => l ++ nl ++ joinLines ls'
  end.

(** [a || b] on possibly-undefined strings: the empty string and
    [undefined] are falsy. *)
Definition truthy (s : option string) : bool :=
  match s with
  | Some (String _ _) => true
  | _ => false
  end.

Definition orElse (a b : option string) : option string :=
  if truthy a then a else b.

(** Decimal rendering of a non-negative integer inside a template string. *)
Definition showNat (n : nat) : string :=
  match Nat.to_uint n with
  | Nil => "0"
  | d => NilEmpty.string_of_uint d
  end.

Definition showZ (z : Z) : string :=
  NilZero.string_of_int (Z.to_int z).

(** ** Base64 ([buffer.toString('base64')]) *)

Definition b64Alphabet : string :=
  "ABCDEFGHIJKLMNOPQRSTUVWXYZabcdefghijklmnopqrstuvwxyz0123456789+/".

Definition b64Char (n : nat) : ascii :=
  match String.get n b64Alphabet with
  | Some c => c
  | None => "="%char
  end.

Fixpoint base64 (s : string) : string :=
  match s with
  | EmptyString => EmptyString
  | String a EmptyString =>
      let x := nat_of_ascii a in
      String (b64Char (x / 4))
        (String (b64Char (x mod 4 * 16)) "==")
  | String a (String b EmptyString) =>
      let x := nat_of_ascii a in
      let y := nat_of_ascii b in
      String (b64Char (x / 4))
        (String (b64Char (x mod 4 * 16 + y / 16))
           (String (b64Char (y mod 16 * 4)) "="))
  | String a (String b (String c s')) =>
      let x := nat_of_ascii a in
      let y := nat_of_ascii b in
      let z := nat_of_ascii c in
      String (b64Char (x / 4))
        (String (b64Char (x mod 4 * 16 + y / 16))
           (String (b64Char (y mod 16 * 4 + z / 64))
              (String (b64Char (z mod 64)) (base64 s'))))
  end.

(** ** Language registry ([config/languages.ts]) *)

(** [defaultCode] is the editor's sample program; the server never reads
    it and it is left out of the record. *)
Record LanguageConfig := mkConfig {
  id : string;
  name : string;
  filename : string;
  dockerImage : string;
  compileCmd : string;
  poolSize : nat
}.

Definition cppConfig : LanguageConfig :=
  mkConfig "cpp" "C++" "main.cpp" "wasm-compiler-cpp"
    ("bash -c " ++ dq ++
     "emcc main.cpp -o temp.wasm -s STANDALONE_WASM=1 -s PURE_WASI=1 -O0 -s ERROR_ON_UNDEFINED_SYMBOLS=0 && wasm-opt temp.wasm -o output.wasm --asyncify"
     ++ dq)
    3.

Definition rustConfig : LanguageConfig :=
  mkConfig "rust" "Rust" "main.rs" "wasm-compiler-rust"
    ("bash -c " ++ dq ++
     "rustc --target wasm32-wasip1 --edition 2021 -C opt-level=0 -o temp.wasm main.rs && wasm-opt temp.wasm -o output.wasm --asyncify --pass-arg=asyncify-imports@env.invoke_*,wasi_snapshot_preview1.fd_read,wasi_snapshot_preview1.poll_oneoff"
     ++ dq)
    2.

Definition goConfig : LanguageConfig :=
  mkConfig "go" "Go" "main.go" "wasm-compiler-go"
    ("sh -c " ++ dq ++
     "go build -p 4 -o output.wasm main.go && cp /usr/local/go/misc/wasm/wasm_exec.js wasm_exec.js"
     ++ dq)
    3.

(** ** Plain JavaScript objects used as records keyed by string

    [LANGUAGES] and [containerPool] are object literals, so [obj[key]]
    also finds the members every object inherits from [Object.prototype];
    those are functions (or the prototype itself) and hence truthy. *)

Inductive Lookup (A : Type) : Type :=
| Own (a : A)
| Inherited
| Undefined.
Arguments Inherited {A}.
Arguments Undefined {A}.

Definition objectPrototypeKeys : list string :=
  [ "constructor"; "__proto__"; "hasOwnProperty"; "isPrototypeOf";
    "propertyIsEnumerable"; "toLocaleString"; "toString"; "valueOf";
    "__defineGetter__"; "__defineSetter__"; "__lookupGetter__";
    "__lookupSetter__" ].

Definition inStrings (k : string) (l : list string) : bool :=
  existsb (String.eqb k) l.

Fixpoint ownGet {A} (k : string) (o : list (string * A)) : option A :=
  match o with
  | [] => None
  | (k', a) :: o' => if String.eqb k k' then Some a else ownGet k o'
  end.

Fixpoint ownSet {A} (k : string) (a : A) (o : list (string * A))
    : list (string * A) :=
  match o with
  | [] => [(k, a)]
  | (k', a') :: o' =>
      if String.eqb k k' then (k', a) :: o' else (k', a') :: ownSet k a o'
  end.

Definition objGet {A} (o : list (string * A)) (k : string) : Lookup A :=
  match ownGet k o with
  | Some a => Own a
  | None => if inStrings k objectPrototypeKeys then Inherited else Undefined
  end.

Definition LANGUAGES : list (string * LanguageConfig) :=
  [ ("cpp", cppConfig); ("rust", rustConfig); ("go", goConfig) ].

(** ** Error clean-up (the [catch] block of the compile job) *)

(** A thrown JavaScript value, as far as the server looks at it:
    [error.stderr] and [error.message]. *)
Record JsError := mkError {
  errStderr : option string;
  errMessage : option string
}.

(** [new Error(msg)] *)
Definition newError (msg : string) : JsError := mkError None (Some msg).

(** Number of leading characters of [s] that are not a double quote:
    what the greedy negated class of the wrapper pattern consumes. *)
Fixpoint spanNonQuote (s : string) : nat :=
  match s with
  | String c s' => if Ascii.eqb c "034"%char then 0 else S (spanNonQuote s')
  | EmptyString => 0
  end.

(** The tail of the wrapper pattern, anchored at the start of [s]: the
    shell name, [ -c ], a double quote, one or more characters other than a
    double quote, and a closing double quote.  The result is the length
    matched. *)
Definition matchShellTail (shell s : string) : option nat :=
  let lit := shell ++ " -c " ++ dq in
  if startsWith lit s then
    let r := dropChars (String.length lit) s in
    let n := spanNonQuote r in
    if (0 <? n)%nat && startsWith dq (dropChars n r)
    then Some (String.length lit + n + 1)
    else None
  else None.

(** The lazy [.*?] followed by the tail: the shortest run of characters
    other than line terminators after which the tail matches. *)
Fixpoint matchLazyDots (shell s : string) : option nat :=
  match matchShellTail shell s with
  | Some n => Some n
  | None =>
      match s with
      | String c s' =>
          if isLineTerminator c then None
          else option_map S (matchLazyDots shell s')
      | EmptyString => None
      end
  end.

(** The whole wrapper pattern ([Command failed:], lazy dots, tail),
    anchored at the start of [s]. *)
Definition matchWrapper (shell s : string) : option nat :=
  let lit := "Command failed:" in
  if startsWith lit s
  then option_map (Nat.add (String.length lit))
         (matchLazyDots shell (dropChars (String.length lit) s))
  else None.

(** The global [replace] of the wrapper pattern by the empty string:
    every match, scanning from the left, is deleted; [skip] counts the
    characters of the current match still to drop. *)
Fixpoint replaceWrapperFrom (shell : string) (skip : nat) (s : string)
    : string :=
  match s with
  | EmptyString => EmptyString
  | String c s' =>
      match skip with
      | S k => replaceWrapperFrom shell k s'
      | O =>
          match matchWrapper shell s with
          | Some (S k) => replaceWrapperFrom shell k s'
          | _ => String c (replaceWrapperFrom shell 0 s')
          end
      end
  end.

Definition replaceWrapper (shell s : string) : string :=
  replaceWrapperFrom shell 0 s.

Fixpoint skipWhile (p : ascii -> bool) (s : string) : string :=
  match s with
  | String c s' => if p c then skipWhile p s' else s
  | EmptyString => EmptyString
  end.

(** [l.match(/^\d+\s*\|/)] *)
Definition numberedLine (l : string) : bool :=
  match l with
  | String c _ =>
      isDigit c && startsWith "|" (skipWhile isSpace (skipWhile isDigit l))
  | EmptyString => false
  end.

Definition rustDiagnosticLine (l : string) : bool :=
  startsWith "error:" l || startsWith "-->" l || startsWith "|" l
  || numberedLine l.

Definition fromSome (s : option string) : string :=
  match s with Some x => x | None => EmptyString end.

(** The per-language filtering, lines 243-253. *)
Definition filterError (language raw : string) : string :=
  if String.eqb language "cpp" then
    let e1 := match fromFirst "main.cpp:" raw with
              | Some m => m
              | None => raw
              end in
    trim (beforeFirst "emcc: error:" e1)
  else if String.eqb language "rust" then
    let e1 := replaceWrapper "bash" raw in
    trim (joinLines (filter rustDiagnosticLine (splitLines e1)))
  else
    trim (replaceWrapper "sh" raw).

(** Line 242: [error.stderr || error.message || "Compilation failed"]. *)
Definition rawError (error : JsError) : string :=
  fromSome (orElse (orElse (errStderr error) (errMessage error))
              (Some "Compilation failed")).

(** Lines 242-255: the message of the [Error] the job throws. *)
Definition cleanError (language : string) (error : JsError) : string :=
  let cleaned := filterError language (rawError error) in
  fromSome (orElse (Some cleaned) (Some "Compilation failed")).

(** ** Admission queue ([executeWithQueue])

    [J] is what a queued closure stands for.  [enter] is the synchronous
    prefix of [executeWithQueue]; [finish] is its [finally] block, where
    calling [next()] increments the counter again before anything else
    can run. *)

Definition MAX_CONCURRENT_COMPILATIONS : nat := 4.

Section Admission.
Variable J : Type.

Record Admission := mkAdmission {
  activeCompilations : nat;
  requestQueue : list J
}.

Definition enter (limit : nat) (j : J) (a : Admission) : Admission * bool :=
  if (activeCompilations a <? limit)%nat
  then (mkAdmission (activeCompilations a + 1) (requestQueue a), true)
  else (mkAdmission (activeCompilations a) (requestQueue a ++ [j])%list, false).

Definition finish (a : Admission) : Admission * option J :=
  let active := activeCompilations a - 1 in
  match requestQueue a with
  | [] => (mkAdmission active [], None)
  | next :: rest => (mkAdmission (active + 1) rest, Some next)
  end.
End Admission.

(** ** The outside world *)

(** Calls that leave the process.  [Exec] is [execPromise(cmd)]; the
    others are the [fs/promises] functions the job uses ([mkdir] with
    [recursive], [rm] with [recursive] and [force]). *)
Inductive ExtCall : Type :=
| Exec (cmd : string)
| Mkdir (path : string)
| WriteFile (path content : string)
| ReadFile (path : string)
| Rm (path : string).

(** A call either resolves ([Resolved out]: the standard output of a
    command, the content of a file, nothing for the rest) or rejects. *)
Inductive ExtResult : Type :=
| Resolved (out : string)
| Rejected (e : JsError).

(** The oracle.  [answer n c] is what the call [c] yields when it is the
    [n]-th interaction of the flow with the world; [clock n] is
    [Date.now()] at that point and [uuid n] is [uuidv4()]. *)
Record World := mkWorld {
  answer : nat -> ExtCall -> ExtResult;
  clock : nat -> Z;
  uuid : nat -> string;
  tmpdir : string                 (* [os.tmpdir()], an absolute path *)
}.

Inductive Json : Type :=
| JBool (b : bool)
| JStr (s : string).

Definition JsonObject := list (string * Json).

Fixpoint field (k : string) (o : JsonObject) : option Json :=
  match o with
  | [] => None
  | (k', v) :: o' => if String.eqb k k' then Some v else field k o'
  end.

(** A property whose value is [undefined] is left out by [res.json]. *)
Definition optField (k : string) (v : option string) : JsonObject :=
  match v with
  | Some s => [(k, JStr s)]
  | None => []
  end.

Record Response := mkResponse {
  status : nat;
  body : JsonObject
}.

(** [req.body].  The interface sends strings; a property that is absent
    (or [null]) is [None]. *)
Record Request := mkRequest {
  reqLanguage : option string;
  reqCode : option string
}.

(** What the closure handed to [executeWithQueue] captures. *)
Record Job := mkJob {
  jobLanguage : string;
  jobCode : string;
  jobCacheKey : string
}.

Record Server := mkServer {
  compilationCache : Cache;
  admission : Admission Job;
  containerPool : list (string * list string);
  poolInitializing : bool;
  poolReady : bool;
  poolInitPromise : bool     (* whether the variable holds a promise *)
}.

Inductive Event : Type :=
| Called (c : ExtCall) (r : ExtResult)   (* an awaited call and its result *)
| Fired (c : ExtCall)                    (* a call nobody waits for *)
| Acquired (containerName : string)      (* [getContainer] returned *)
| Released (language containerName : string) (* [releaseContainer] called *)
| Started (j : Job).                     (* a queued closure was called *)

(** One logical flow: the shared server state, the flow's position in its
    dialogue with the world, what it did so far, and the job's local
    variable [containerName]. *)
Record Proc := mkProc {
  server : Server;
  tick : nat;
  trace : list Event;
  containerName : string
}.

Inductive Outcome (A : Type) : Type :=
| Ret (a : A)
| Throw (e : JsError).
Arguments Throw {A}.

Definition M (A : Type) : Type := Proc -> Outcome A * Proc.

Definition ret {A} (a : A) : M A := fun p => (Ret a, p).

Definition bind {A B} (m : M A) (f : A -> M B) : M B :=
  fun p =>
    match m p with
    | (Ret a, p') => f a p'
    | (Throw e, p') => (Throw e, p')
    end.

Definition throw {A} (e : JsError) : M A := fun p => (Throw e, p).

(** [try { m } catch (e) { h e }] *)
Definition tryCatch {A} (m : M A) (h : JsError -> M A) : M A :=
  fun p =>
    match m p with
    | (Ret a, p') => (Ret a, p')
    | (Throw e, p') => h e p'
    end.

(** [try { m } finally { fin }] *)
Definition tryFinally {A} (m : M A) (fin : M unit) : M A :=
  fun p =>
    match m p with
    | (Ret a, p') =>
        match fin p' with
        | (Ret _, p'') => (Ret a, p'')
        | (Throw e, p'') => (Throw e, p'')
        end
    | (Throw e, p') =>
        match fin p' with
        | (Ret _, p'') => (Throw e, p'')
        | (Throw e', p'') => (Throw e', p'')
        end
    end.

Declare Scope flow_scope.
Delimit Scope flow_scope with flow.
Notation "x <- m ;; k" := (bind m (fun x => k))
  (at level 61, m at next level, right associativity) : flow_scope.
Notation "m ;; k" := (bind m (fun _ => k))
  (at level 61, right associativity) : flow_scope.
Local Open Scope flow_scope.

Definition getServer : M Server := fun p => (Ret (server p), p).

Definition modifyServer (f : Server -> Server) : M unit :=
  fun p => (Ret tt, mkProc (f (server p)) (tick p) (trace p) (containerName p)).

Definition emit (e : Event) : M unit :=
  fun p =>
    (Ret tt, mkProc (server p) (tick p) (trace p ++ [e])%list (containerName p)).

Definition getContainerName : M string := fun p => (Ret (containerName p), p).

Definition setContainerName (n : string) : M unit :=
  fun p => (Ret tt, mkProc (server p) (tick p) (trace p) n).

Section Flow.
(** [crypto.createHash('sha256').update(s).digest('hex')] *)
Variable sha256hex : string -> string.
Variable w : World.

(** [await call] *)
Definition await (c : ExtCall) : M string :=
  fun p =>
    let r := answer w (tick p) c in
    let p' := mkProc (server p) (S (tick p)) (trace p ++ [Called c r])%list
                (containerName p) in
    match r with
    | Resolved out => (Ret out, p')
    | Rejected e => (Throw e, p')
    end.

(** A call whose promise is dropped (with a [catch] that swallows). *)
Definition fire (c : ExtCall) : M unit := emit (Fired c).

Definition dateNow : M Z :=
  fun p =>
    (Ret (clock w (tick p)),
     mkProc (server p) (S (tick p)) (trace p) (containerName p)).

Definition uuidv4 : M string :=
  fun p =>
    (Ret (uuid w (tick p)),
     mkProc (server p) (S (tick p)) (trace p) (containerName p)).

(** [path.join] on segments that need no normalisation. *)
Fixpoint pathJoin (segments : list string) : string :=
  match segments with
  | [] => "."
  | [s] => s
  | s :: rest => s ++ "/" ++ pathJoin rest
  end.

Definition typeError (msg : string) : JsError := newError msg.

Definition setCache (f : Cache -> Cache) (s : Server) : Server :=
  mkServer (f (compilationCache s)) (admission s) (containerPool s)
    (poolInitializing s) (poolReady s) (poolInitPromise s).

Definition setAdmission (a : Admission Job) (s : Server) : Server :=
  mkServer (compilationCache s) a (containerPool s)
    (poolInitializing s) (poolReady s) (poolInitPromise s).

Definition setPool (language : string) (pool : list string) (s : Server)
    : Server :=
  mkServer (compilationCache s) (admission s)
    (ownSet language pool (containerPool s))
    (poolInitializing s) (poolReady s) (poolInitPromise s).

Definition setInit (initializing ready promise : bool) (s : Server) : Server :=
  mkServer (compilationCache s) (admission s) (containerPool s)
    initializing ready promise.
(** ** Container pool *)

Definition warmName (lang : string) (i : nat) : string :=
  "wasm-pool-" ++ lang ++ "-" ++ showNat i.

Definition tempName (language : string) (now : Z) : string :=
  "wasm-temp-" ++ language ++ "-" ++ showZ now.

Definition dockerRun (containerName image : string) : ExtCall :=
  Exec ("docker run -d --name " ++ containerName ++ " " ++ image
        ++ " tail -f /dev/null").

Definition dockerRm (containerName : string) : ExtCall :=
  Exec ("docker rm -f " ++ containerName).

Fixpoint forEach {A} (l : list A) (f : A -> M unit) : M unit :=
  match l with
  | [] => ret tt
  | x :: l' => f x ;; forEach l' f
  end.

(** [containerPool[lang].push(containerName)] *)
Definition pushPool (lang containerName : string) : M unit :=
  s <- getServer ;;
  match objGet (containerPool s) lang with
  | Own pool => modifyServer (setPool lang (pool ++ [containerName])%list)
  | _ => throw (typeError "pool.push is not a function")
  end.

(** One warm-up chain of [initPool], with its final [catch]. *)
Definition warmContainer (config : LanguageConfig) (i : nat) : M unit :=
  let lang := id config in
  let containerName := warmName lang i in
  tryCatch
    (stdout <- await (Exec ("docker ps -a --filter " ++ dq ++ "name="
                            ++ containerName ++ dq ++ " --format " ++ dq
                            ++ "{{.Names}}" ++ dq)) ;;
     if String.eqb (trim stdout) containerName then
       stateOut <- await (Exec ("docker inspect -f " ++ dq
                                ++ "{{.State.Running}}" ++ dq ++ " "
                                ++ containerName)) ;;
       if String.eqb (trim stateOut) "true" then
         pushPool lang containerName
       else
         await (Exec ("docker start " ++ containerName)) ;;
         pushPool lang containerName
     else
       await (dockerRun containerName (dockerImage config)) ;;
       pushPool lang containerName)
    (fun _ => ret tt).

(** [initPool()].  The warm-up chains are started together and awaited
    with [Promise.all]; here they complete in the order they were
    started.  A flow that finds a warm-up in flight waits for it and does
    nothing itself. *)
Definition initPool : M unit :=
  s <- getServer ;;
  if poolReady s then ret tt
  else if poolInitializing s && poolInitPromise s then ret tt
  else
    modifyServer (setInit true (poolReady s) true) ;;
    up <- tryCatch (await (Exec "docker version") ;; ret true)
            (fun _ => ret false) ;;
    if up then
      forEach (map snd LANGUAGES)
        (fun config =>
           forEach (seq 0 (poolSize config)) (warmContainer config)) ;;
      modifyServer (setInit false true true)
    else
      modifyServer (setInit false false true).

(** [getContainer(language)].  For a key that is not an own property of
    [containerPool] or of [LANGUAGES] the source reads a field of
    [undefined] or of an inherited member; that is a throw here. *)
Definition getContainer (language : string) : M string :=
  s <- getServer ;;
  match objGet (containerPool s) language with
  | Own (c :: pool) =>
      modifyServer (setPool language pool) ;;
      emit (Acquired c) ;;
      ret c
  | Own [] =>
      now <- dateNow ;;
      let containerName := tempName language now in
      match objGet LANGUAGES language with
      | Own config =>
          await (dockerRun containerName (dockerImage config)) ;;
          emit (Acquired containerName) ;;
          ret containerName
      | _ => throw (typeError "Cannot read properties of undefined")
      end
  | _ => throw (typeError "Cannot read properties of undefined")
  end.

(** [LANGUAGES[language]?.poolSize || 2] *)
Definition releasePoolSize (language : string) : nat :=
  match objGet LANGUAGES language with
  | Own config => if (poolSize config =? 0)%nat then 2 else poolSize config
  | _ => 2
  end.

(** [releaseContainer(language, containerName)] *)
Definition releaseContainer (language containerName : string) : M unit :=
  emit (Released language containerName) ;;
  s <- getServer ;;
  match objGet (containerPool s) language with
  | Own pool =>
      if (List.length pool <? releasePoolSize language)%nat
         && includes "pool" containerName
      then modifyServer (setPool language (pool ++ [containerName])%list)
      else tryCatch (await (dockerRm containerName) ;; ret tt)
             (fun _ => ret tt)
  | _ => throw (typeError "Cannot read properties of undefined")
  end.

(** ** The compile job (the closure passed to [executeWithQueue]) *)

Definition getCacheKey (language code : string) : string :=
  sha256hex (language ++ ":" ++ code).

Definition successBody (wasmBase64 wasmExecContent : string) : JsonObject :=
  [ ("success", JBool true); ("wasm", JStr wasmBase64);
    ("wasmExec", JStr wasmExecContent) ].

(** The [try] block of the job. *)
Definition jobTry (j : Job) (tmpDir : string) : M JsonObject :=
  let language := jobLanguage j in
  let code := jobCode j in
  let cacheKey := jobCacheKey j in
  let config := objGet LANGUAGES language in
  await (Mkdir tmpDir) ;;
  (* [config.filename] and [path.join] throw unless [config] is one of
     the registered profiles *)
  cfg <- match config with
         | Own c => ret c
         | Inherited =>
             throw (typeError
               ("The " ++ dq ++ "path" ++ dq
                ++ " argument must be of type string. Received undefined"))
         | Undefined =>
             throw (typeError "Cannot read properties of undefined")
         end ;;
  await (WriteFile (pathJoin [tmpDir; filename cfg]) code) ;;
  let absoluteTmpDir := tmpDir in
  c <- getContainer language ;;
  setContainerName c ;;
  tryCatch
    (await (Exec ("docker exec " ++ c ++ " sh -c " ++ dq
                  ++ "cd /src && rm -f *" ++ dq)))
    (fun _ => ret "") ;;
  await (Exec ("docker cp " ++ dq ++ absoluteTmpDir ++ "/." ++ dq ++ " "
               ++ c ++ ":/src/")) ;;
  await (Exec ("docker exec -w /src " ++ c ++ " " ++ compileCmd cfg)) ;;
  await (Exec ("docker cp " ++ c ++ ":/src/output.wasm " ++ dq
               ++ absoluteTmpDir ++ "/output.wasm" ++ dq)) ;;
  (if String.eqb language "go"
   then await (Exec ("docker cp " ++ c ++ ":/src/wasm_exec.js " ++ dq
                     ++ absoluteTmpDir ++ "/wasm_exec.js" ++ dq))
   else ret "") ;;
  wasmBuffer <- await (ReadFile (pathJoin [tmpDir; "output.wasm"])) ;;
  let wasmBase64 := base64 wasmBuffer in
  wasmExecContent <-
    (if String.eqb language "go"
     then await (ReadFile (pathJoin [tmpDir; "wasm_exec.js"]))
     else ret "") ;;
  now1 <- dateNow ;;
  now2 <- dateNow ;;
  modifyServer
    (setCache (cacheStore now1 now2 cacheKey wasmBase64 wasmExecContent)) ;;
  await (Rm tmpDir) ;;
  fire (Exec ("docker exec " ++ c ++ " rm -rf /src/*")) ;;
  releaseContainer language c ;;
  dateNow ;;
  ret (successBody wasmBase64 wasmExecContent).

(** The [catch] block of the job. *)
Definition jobCatch (language tmpDir : string) (error : JsError)
    : M JsonObject :=
  c <- getContainerName ;;
  (if truthy (Some c) then releaseContainer language c else ret tt) ;;
  tryCatch (await (Rm tmpDir) ;; ret tt) (fun _ => ret tt) ;;
  throw (newError (cleanError language error)).

(** The scratch directory of a job that starts at process state [p]. *)
Definition jobTmpDir (p : Proc) : string :=
  pathJoin [tmpdir w; "wasm-compilers-express"; uuid w (tick p)].

Definition compileJob (j : Job) : M JsonObject :=
  id <- uuidv4 ;;
  let tmpDir := pathJoin [tmpdir w; "wasm-compilers-express"; id] in
  setContainerName "" ;;
  tryCatch (jobTry j tmpDir) (jobCatch (jobLanguage j) tmpDir).

(** The [finally] block of [executeWithQueue].  Calling [next()] runs the
    queued closure up to its first [await]; the rest of that closure is
    another flow ([runQueued]). *)
Definition finallyBlock : M unit :=
  s <- getServer ;;
  let (a, next) := finish (admission s) in
  modifyServer (setAdmission a) ;;
  match next with
  | Some j => emit (Started j)
  | None => ret tt
  end.

(** [executeWithQueue(fn)] as seen by its caller: [Some result] when the
    job was run at once, [None] when the closure was queued and the
    promise is still pending. *)
Definition executeWithQueue (j : Job) : M (option JsonObject) :=
  s <- getServer ;;
  let (a, started) := enter MAX_CONCURRENT_COMPILATIONS j (admission s) in
  modifyServer (setAdmission a) ;;
  if started
  then tryFinally (r <- compileJob j ;; ret (Some r)) finallyBlock
  else ret None.


(** ** The request handler ([POST /api/compile]) *)

Inductive HandlerResult : Type :=
| Responded (r : Response)
| Pending (j : Job).

Definition errorBody (msg : option string) : JsonObject :=
  optField "error" msg.

Definition cachedBody (cached : CacheEntry) : JsonObject :=
  ([ ("success", JBool true); ("wasm", JStr (wasm cached)) ]
   ++ optField "wasmExec" (wasmExec cached)
   ++ [ ("cached", JBool true) ])%list.

Definition handler (req : Request) : M HandlerResult :=
  s0 <- getServer ;;
  (if poolReady s0 then ret tt else initPool) ;;
  dateNow ;;
  if negb (truthy (reqLanguage req)) || negb (truthy (reqCode req)) then
    ret (Responded
           (mkResponse 400 (errorBody (Some "Missing language or code"))))
  else
    let language := fromSome (reqLanguage req) in
    let code := fromSome (reqCode req) in
    match objGet LANGUAGES language with
    | Undefined =>
        ret (Responded
               (mkResponse 400 (errorBody (Some "Unsupported language"))))
    | _ =>
        let cacheKey := getCacheKey language code in
        s <- getServer ;;
        match JsMap.get cacheKey (compilationCache s) with
        | Some cached => ret (Responded (mkResponse 200 (cachedBody cached)))
        | None =>
            tryCatch
              (r <- executeWithQueue (mkJob language code cacheKey) ;;
               match r with
               | Some result => ret (Responded (mkResponse 200 result))
               | None => ret (Pending (mkJob language code cacheKey))
               end)
              (fun err =>
                 ret (Responded (mkResponse 500 (errorBody (errMessage err)))))
        end
    end.

End Flow.

(** The state the module starts in: an empty cache and queue, and an
    empty free list for every key of [LANGUAGES]. *)
Definition initialServer : Server :=
  mkServer (JsMap.empty CacheEntry) (mkAdmission 0 [])
    (map (fun kv => (fst kv, @nil string)) LANGUAGES)
    false false false.

Definition startProc (s : Server) : Proc := mkProc s 0 [] "".

(** The server after a history of requests, each handled to its end in
    its own world. *)
Definition serveOne (sha256hex : string -> string) (s : Server)
    (wr : World * Request) : Server :=
  server (snd (handler sha256hex (fst wr) (snd wr) (startProc s))).

Definition serverAfter (sha256hex : string -> string)
    (history : list (World * Request)) : Server :=
  fold_left (serveOne sha256hex) history initialServer.

(** ** Reading a trace *)

Definition isAcquired (e : Event) : bool :=
  match e with Acquired _ => true | _ => false end.

Definition isReleased (e : Event) : bool :=
  match e with Released _ _ => true | _ => false end.

Definition isStarted (e : Event) : bool :=
  match e with Started _ => true | _ => false end.

Definition isRmOf (path : string) (e : Event) : bool :=
  match e with
  | Called (Rm p) _ => String.eqb p path
  | _ => false
  end.

Definition isRmDone (path : string) (e : Event) : bool :=
  match e with
  | Called (Rm p) (Resolved _) => String.eqb p path
  | _ => false
  end.

Definition count (f : Event -> bool) (tr : list Event) : nat :=
  List.length (filter f tr).

(** ** Invariants of the server state *)

(** Every pooled container name carries the [pool] marker (and so is a
    non-empty string). *)
Definition PoolNamesOk (s : Server) : Prop :=
  forall language pool c,
    In (language, pool) (containerPool s) -> In c pool ->
    includes "pool" c = true.

Definition registered (language : string) : Prop :=
  exists config, objGet LANGUAGES language = Own config.

(** Every cache entry was stored for a registered language and holds a
    shim text, which is empty unless that language is go. *)
Definition CacheShimOk (sha256hex : string -> string) (c : Cache) : Prop :=
  forall key e,
    In (key, e) c ->
    exists language code shim,
      key = getCacheKey sha256hex language code /\
      registered language /\
      wasmExec e = Some shim /\
      (language <> "go" -> shim = "").

(** ** Sample inputs for the examples *)

Definition sampleKey (n : nat) : string := "key-" ++ showNat n.

Definition sampleTime (n : nat) : Z := 1700000000000 + Z.of_nat n.

(** The cache after [n] results were stored under distinct keys, one per
    millisecond, starting from the empty cache. *)
Fixpoint fillCache (n : nat) : Cache :=
  match n with
  | O => JsMap.empty CacheEntry
  | S k =>
      cacheStore (sampleTime k) (sampleTime k) (sampleKey k) "AGFzbQ==" ""
        (fillCache k)
  end.

(** A cache of [old + fresh] entries of which the first [old] are two
    hours old at [sampleTime 0]. *)
Definition agedCache (old fresh : nat) : Cache :=
  (map (fun i => (sampleKey i,
                  mkEntry "AGFzbQ==" (Some "") (sampleTime 0 - 2 * CACHE_TTL)))
     (seq 0 old)
   ++ map (fun i => (sampleKey i, mkEntry "AGFzbQ==" (Some "") (sampleTime 0)))
        (seq old fresh))%list.

(** ** Sample worlds for the examples *)

(** Every call succeeds; no pooled container exists yet; the compiler
    leaves a three-byte artifact and, for go, a shim. *)
Definition sampleAnswer (n : nat) (c : ExtCall) : ExtResult :=
  match c with
  | ReadFile p =>
      if includes "wasm_exec.js" p then Resolved "// shim"
      else Resolved "Man"
  | _ => Resolved ""
  end.

Definition sampleWorld : World :=
  mkWorld sampleAnswer sampleTime (fun n => "job-" ++ showNat n) "/tmp".

(** Docker cannot be reached. *)
Definition dockerDownWorld : World :=
  mkWorld (fun _ c =>
             match c with
             | Exec _ => Rejected (mkError (Some "") (Some "Command failed: docker"))
             | _ => Resolved ""
             end)
    sampleTime (fun n => "job-" ++ showNat n) "/tmp".

(** The compiler rejects the source and prints nothing but blanks. *)
Definition blankFailureWorld : World :=
  mkWorld (fun _ c =>
             match c with
             | Exec cmd =>
                 if startsWith "docker exec -w" cmd
                 then Rejected (mkError (Some "  ") (Some "Command failed"))
                 else Resolved ""
             | _ => Resolved ""
             end)
    sampleTime (fun n => "job-" ++ showNat n) "/tmp".

(** The scratch directory cannot be created. *)
Definition noScratchWorld : World :=
  mkWorld (fun _ c =>
             match c with
             | Mkdir _ =>
                 Rejected (mkError None (Some "ENOSPC: no space left on device"))
             | _ => Resolved ""
             end)
    sampleTime (fun n => "job-" ++ showNat n) "/tmp".

(** The server after a start-up during which docker could not be
    reached: the pool is empty and not ready. *)
Definition degradedServer : Server :=
  server (snd (initPool dockerDownWorld (startProc initialServer))).

(** An injective stand-in for the digest. *)
Definition plainHash (s : string) : string := s.

(** ** The admission queue under interleaving

    Calls to [executeWithQueue] and completions of running jobs arrive in
    any order.  Jobs are numbered by arrival.  Besides the counter and the
    queue of the source, the state records which jobs are in flight, which
    have settled (and how), and the order in which jobs were started. *)

Record Sched := mkSched {
  adm : Admission nat;
  running : list nat;
  settled : list (nat * bool);
  startLog : list nat;
  arrivals : nat
}.

Inductive SchedEvent : Type :=
| Arrive                        (* [executeWithQueue(fn)] is called *)
| Settle (j : nat) (ok : bool). (* the job's promise resolves or rejects *)

Fixpoint removeOne (j : nat) (l : list nat) : list nat :=
  match l with
  | [] => []
  | x :: l' => if Nat.eqb j x then l' else x :: removeOne j l'
  end.

Definition isRunning (j : nat) (s : Sched) : bool :=
  existsb (Nat.eqb j) (running s).

Definition schedStep (limit : nat) (s : Sched) (e : SchedEvent) : Sched :=
  match e with
  | Arrive =>
      let j := arrivals s in
      let (a, started) := enter limit j (adm s) in
      if started
      then mkSched a (running s ++ [j]) (settled s) (startLog s ++ [j])
             (S (arrivals s))
      else mkSched a (running s) (settled s) (startLog s) (S (arrivals s))
  | Settle j ok =>
      if isRunning j s then
        let (a, next) := finish (adm s) in
        let rest := removeOne j (running s) in
        match next with
        | Some n =>
            mkSched a (rest ++ [n]) (settled s ++ [(j, ok)])
              (startLog s ++ [n]) (arrivals s)
        | None =>
            mkSched a rest (settled s ++ [(j, ok)]) (startLog s) (arrivals s)
        end
      else s
  end.

Definition schedInit : Sched := mkSched (mkAdmission 0 []) [] [] [] 0.

Definition schedRun (limit : nat) (events : list SchedEvent) : Sched :=
  fold_left (schedStep limit) events schedInit.


Definition waiting (s : Sched) : list nat := requestQueue (adm s).


(** What holds of the scheduler in every state it can reach. *)
Definition SchedInv (limit : nat) (s : Sched) : Prop :=
  activeCompilations (adm s) = List.length (running s) /\
  List.length (running s) <= limit /\
  (waiting s <> [] -> List.length (running s) = limit) /\
  Permutation (running s ++ waiting s ++ map fst (settled s))%list
    (seq 0 (arrivals s)) /\
  startLog s = seq 0 (List.length (startLog s)) /\
  waiting s = seq (List.length (startLog s)) (List.length (waiting s)) /\
  arrivals s = List.length (startLog s) + List.length (waiting s).

(** ** What a flow did, read off the process states before and after *)

(** From [p] to [p'] the flow left the counter and the queue alone,
    acquired [a] containers and released [r], started no queued closure,
    only added to its trace, and kept the pool's names well formed. *)
Definition Steps (p p' : Proc) (a r : nat) : Prop :=
  admission (server p') = admission (server p) /\
  count isAcquired (trace p') = count isAcquired (trace p) + a /\
  count isReleased (trace p') = count isReleased (trace p) + r /\
  count isStarted (trace p') = count isStarted (trace p) /\
  (forall f, count f (trace p) <= count f (trace p')) /\
  (forall ev, In ev (trace p) -> In ev (trace p')) /\
  (PoolNamesOk (server p) -> PoolNamesOk (server p')).

(** What a job may have done to the cache: nothing, or one store of its
    result under its key. *)
Definition CacheStep (j : Job) (c c' : Cache) : Prop :=
  c' = c \/
  exists cfg wasm64 shim now1 now2,
    objGet LANGUAGES (jobLanguage j) = Own cfg /\
    (jobLanguage j <> "go" -> shim = "") /\
    c' = cacheStore now1 now2 (jobCacheKey j) wasm64 shim c.

(** What a job that returned has done: it read the artifact, read the
    shim if the language is go, stored the result and removed its scratch
    directory. *)
Definition JobReturned (j : Job) (tmpDir : string) (body : JsonObject)
    (p p' : Proc) : Prop :=
  exists cfg bytes shim now1 now2,
    objGet LANGUAGES (jobLanguage j) = Own cfg /\
    body = successBody (base64 bytes) shim /\
    In (Called (ReadFile (pathJoin [tmpDir; "output.wasm"])) (Resolved bytes))
      (trace p') /\
    (if String.eqb (jobLanguage j) "go"
     then In (Called (ReadFile (pathJoin [tmpDir; "wasm_exec.js"]))
                (Resolved shim)) (trace p')
     else shim = "") /\
    compilationCache (server p')
    = cacheStore now1 now2 (jobCacheKey j) (base64 bytes) shim
        (compilationCache (server p)) /\
    S (count (isRmDone tmpDir) (trace p)) <= count (isRmDone tmpDir) (trace p').

(** A stretch of a flow that acquires and releases nothing and leaves the
    cache and the job's local variable alone. *)
Definition Quiet (p p' : Proc) : Prop :=
  Steps p p' 0 0 /\
  compilationCache (server p') = compilationCache (server p) /\
  containerName p' = containerName p.

(** The process state one clock reading later. *)
Definition tickProc (p : Proc) : Proc :=
  mkProc (server p) (S (tick p)) (trace p) (containerName p).

(** The process state after [f] was applied to the counter and queue. *)
Definition withAdmission (a : Admission Job) (p : Proc) : Proc :=
  mkProc (setAdmission a (server p)) (tick p) (trace p) (containerName p).

(** The job a valid request stands for. *)
Definition requestJob (sha256hex : string -> string) (req : Request) : Job :=
  let language := fromSome (reqLanguage req) in
  let code := fromSome (reqCode req) in
  mkJob language code (getCacheKey sha256hex language code).

(** How the handler answers a request that passed validation, from the
    process state [p0] reached after the warm-up: from the cache; or by
    running the job at once and then the [finally] block; or not yet,
    because the job was queued. *)
Definition AnsweredFromJob (w : World) (job : Job) (p0 : Proc)
    (r : Outcome HandlerResult * Proc) : Prop :=
  match JsMap.get (jobCacheKey job) (compilationCache (server p0)) with
  | Some cached =>
      r = (Ret (Responded (mkResponse 200 (cachedBody cached))), tickProc p0)
  | None =>
      let (a, started) :=
        enter MAX_CONCURRENT_COMPILATIONS job (admission (server p0)) in
      if started then
        exists p2,
          match compileJob w job (withAdmission a (tickProc p0)) with
          | (Ret body, pj) =>
              finallyBlock pj = (Ret tt, p2) /\
              r = (Ret (Responded (mkResponse 200 body)), p2)
          | (Throw e, pj) =>
              finallyBlock pj = (Ret tt, p2) /\
              r = (Ret (Responded (mkResponse 500 (errorBody (errMessage e)))),
                   p2)
          end
      else
        r = (Ret (Pending job), withAdmission a (tickProc p0))
  end.

(** The handler's validation: the error message, if the request is
    rejected. *)
Definition validationError (req : Request) : option string :=
  if negb (truthy (reqLanguage req)) || negb (truthy (reqCode req))
  then Some "Missing language or code"
  else match objGet LANGUAGES (fromSome (reqLanguage req)) with
       | Undefined => Some "Unsupported language"
       | _ => None
       end.

(** Where a response comes from. *)
Inductive Origin (sha256hex : string -> string) (w : World) (req : Request)
    (p : Proc) (resp : Response) : Prop :=
| FromValidation (msg : string) :
    validationError req = Some msg ->
    resp = mkResponse 400 (errorBody (Some msg)) ->
    Origin sha256hex w req p resp
| FromCache (cached : CacheEntry) :
    validationError req = None ->
    JsMap.get (jobCacheKey (requestJob sha256hex req))
      (compilationCache (server p)) = Some cached ->
    resp = mkResponse 200 (cachedBody cached) ->
    Origin sha256hex w req p resp
| FromJob (p0 : Proc) (a : Admission Job) (body : JsonObject) (pj p2 : Proc) :
    validationError req = None ->
    JsMap.get (jobCacheKey (requestJob sha256hex req))
      (compilationCache (server p)) = None ->
    Quiet p p0 ->
    compileJob w (requestJob sha256hex req) (withAdmission a (tickProc p0))
    = (Ret body, pj) ->
    finallyBlock pj = (Ret tt, p2) ->
    snd (handler sha256hex w req p) = p2 ->
    resp = mkResponse 200 body ->
    Origin sha256hex w req p resp
| FromFailedJob (p0 : Proc) (a : Admission Job) (e : JsError) (pj p2 : Proc) :
    validationError req = None ->
    JsMap.get (jobCacheKey (requestJob sha256hex req))
      (compilationCache (server p)) = None ->
    Quiet p p0 ->
    compileJob w (requestJob sha256hex req) (withAdmission a (tickProc p0))
    = (Throw e, pj) ->
    finallyBlock pj = (Ret tt, p2) ->
    snd (handler sha256hex w req p) = p2 ->
    resp = mkResponse 500 (errorBody (errMessage e)) ->
    Origin sha256hex w req p resp.

(** ** Further vocabulary *)

(** The test of the first loop of [cleanCache], negated: the entry's age
    at [now] does not exceed the TTL. *)
Definition isFresh (now : Z) (kv : string * CacheEntry) : bool :=
  negb (now - timestamp (snd kv) >? CACHE_TTL)%Z.

(** The free list of a language; a key the pool does not own has none. *)
Definition freeList (s : Server) (language : string) : list string :=
  match ownGet language (containerPool s) with
  | Some pool => pool
  | None => []
  end.

(** The shape of the pool: one free list per registered language; no
    container twice in a list; every pooled container is one of the warm
    containers of that language, numbered below the pool size. *)
Definition PoolShape (s : Server) : Prop :=
  map fst (containerPool s) = map fst LANGUAGES /\
  forall language pool,
    In (language, pool) (containerPool s) ->
    NoDup pool /\
    forall c, In c pool ->
              exists i, i < releasePoolSize language /\
                        c = warmName language i.

(** The pool as the warm-up and the jobs leave it between two requests:
    it has the shape above and its lists are empty as long as the pool is
    not ready. *)
Definition PoolWellFormed (s : Server) : Prop :=
  PoolShape s /\
  (poolReady s = false ->
   forall language pool, In (language, pool) (containerPool s) -> pool = []).

(** Two server states with the same free lists and the same readiness. *)
Definition PoolFrame (s s' : Server) : Prop :=
  containerPool s' = containerPool s /\ poolReady s' = poolReady s.

(** Every character of [s] satisfies [p]. *)
Fixpoint allChars (p : ascii -> bool) (s : string) : bool :=
  match s with
  | EmptyString => true
  | String c s' => p c && allChars p s'
  end.

(** A text that holds no line feed: one line. *)
Definition oneLine (s : string) : bool :=
  allChars (fun c => negb (Ascii.eqb c "010"%char)) s.

(** The character is not a double quote. *)
Definition notQuote (c : ascii) : bool := negb (Ascii.eqb c "034"%char).

(** What the lazy dots of the wrapper pattern can run over before the
    shell name: neither a double quote nor a line terminator. *)
Definition plainChar (c : ascii) : bool :=
  notQuote c && negb (isLineTerminator c).

(** ** Periodic health check (the [setInterval] callback)

    Every six hours the containers in the free lists are restarted, list
    by list in the order of [Object.entries(containerPool)]; a restart
    that fails is logged and the loop goes on.  The callback is taken
    here as one flow that no request interleaves with. *)

Definition dockerRestart (containerName : string) : ExtCall :=
  Exec ("docker restart " ++ containerName).

Definition healthCheck (w : World) : M unit :=
  s <- getServer ;;
  forEach (containerPool s)
    (fun entry =>
       forEach (snd entry)
         (fun containerName =>
            tryCatch (await w (dockerRestart containerName) ;; ret tt)
              (fun _ => ret tt))).

(** The calls a flow made, in order, without their results. *)
Fixpoint callsOf (tr : list Event) : list ExtCall :=
  match tr with
  | [] => []
  | Called c _ :: tr' => c :: callsOf tr'
  | _ :: tr' => callsOf tr'
  end.



(** The position of a character in the base64 alphabet ([64] for a
    character that is not in it). *)
Fixpoint indexIn (c : ascii) (s : string) : nat :=
  match s with
  | EmptyString => 0
  | String d s' => if Ascii.eqb c d then 0 else S (indexIn c s')
  end.

Definition b64Index (c : ascii) : nat := indexIn c b64Alphabet.

(** From [p] to [q] the flow left the free lists and the readiness alone
    and only added to its trace. *)
Definition Follows (p q : Proc) : Prop :=
  PoolFrame (server p) (server q) /\
  forall ev, In ev (trace p) -> In ev (trace q).

(** * Properties *)

Unset Implicit Arguments.

(** ** Container names *)

Lemma includes_nonempty (sub s : string) :
  sub <> "" -> includes sub s = true -> s <> "".
Proof.
  intros Hsub H ->. destruct sub; [congruence|]. discriminate.
Qed.

(** A warm container's name carries the [pool] marker. *)
Lemma warmName_marked (lang : string) (i : nat) :
  includes "pool" (warmName lang i) = true.
Proof. reflexivity. Qed.

Lemma tempName_nonempty (language : string) (now : Z) :
  tempName language now <> "".
Proof. discriminate. Qed.

Lemma includes_pool_digits (d : uint) :
  includes "pool" (NilEmpty.string_of_uint d) = false.
Proof. induction d; simpl; auto. Qed.

Lemma includes_pool_nilzero (d : uint) :
  includes "pool" (NilZero.string_of_uint d) = false.
Proof.
  destruct d; try reflexivity;
    match goal with
    | |- includes _ (NilZero.string_of_uint ?x) = _ =>
        exact (includes_pool_digits x)
    end.
Qed.

Lemma includes_pool_showZ (now : Z) : includes "pool" (showZ now) = false.
Proof.
  unfold showZ, NilZero.string_of_int.
  destruct (Z.to_int now) as [d|d].
  - apply includes_pool_nilzero.
  - exact (includes_pool_nilzero d).
Qed.

(** An ephemeral container's name of a registered language does not. *)
Lemma tempName_unmarked (language : string) (now : Z) :
  In language ["cpp"; "rust"; "go"] ->
  includes "pool" (tempName language now) = false.
Proof.
  intros [<-|[<-|[<-|[]]]]; unfold tempName; simpl;
    apply includes_pool_showZ.
Qed.

(** ** Admission queue *)

Lemma perm_snoc (l : list nat) (x : nat) : Permutation (l ++ [x])%list (x :: l).
Proof. symmetry. apply Permutation_cons_append. Qed.

Lemma removeOne_length (j : nat) (l : list nat) :
  In j l -> S (List.length (removeOne j l)) = List.length l.
Proof.
  induction l as [|x l IH]; simpl; [tauto|].
  intros [->|Hin].
  - now rewrite Nat.eqb_refl.
  - destruct (Nat.eqb j x); [reflexivity|]. simpl. now rewrite IH.
Qed.

Lemma removeOne_perm (j : nat) (l : list nat) :
  In j l -> Permutation l (j :: removeOne j l).
Proof.
  induction l as [|x l IH]; simpl; [tauto|].
  destruct (Nat.eqb_spec j x) as [->|Hne]; [reflexivity|].
  intros [->|Hin]; [congruence|].
  rewrite (IH Hin) at 1. apply perm_swap.
Qed.

Lemma isRunning_In (j : nat) (s : Sched) :
  isRunning j s = true <-> In j (running s).
Proof.
  unfold isRunning. rewrite existsb_exists. split.
  - intros (x & Hin & Heq). apply Nat.eqb_eq in Heq. now subst.
  - intros Hin. exists j. split; [assumption|apply Nat.eqb_refl].
Qed.

Lemma schedInit_inv (limit : nat) : SchedInv limit schedInit.
Proof.
  unfold SchedInv, schedInit, waiting; simpl.
  repeat split; try reflexivity; try lia; try constructor.
  intros H; now elim H.
Qed.

Lemma arrive_inv (limit : nat) (s : Sched) :
  SchedInv limit s -> SchedInv limit (schedStep limit s Arrive).
Proof.
  unfold SchedInv, waiting.
  intros (Hact & Hle & Hfull & Hperm & Hlog & Hq & Harr).
  unfold schedStep, enter.
  destruct (Nat.ltb_spec (activeCompilations (adm s)) limit) as [Hlt|Hge];
    cbn [adm running settled startLog arrivals activeCompilations requestQueue].
  - assert (Hempty : requestQueue (adm s) = []).
    { destruct (requestQueue (adm s)) eqn:E; [reflexivity|].
      assert (List.length (running s) = limit) by (apply Hfull; discriminate).
      lia. }
    rewrite Hempty in *. simpl in Harr.
    rewrite ?length_app; cbn [List.length].
    repeat split; try lia.
    + intros H; now elim H.
    + rewrite seq_S. simpl.
      rewrite (perm_snoc (running s)), (perm_snoc (seq 0 (arrivals s))).
      simpl. now constructor.
    + rewrite Nat.add_1_r, seq_S, <- Hlog. simpl. f_equal. f_equal. lia.
  - rewrite ?length_app; cbn [List.length].
    repeat split; try lia.
    + rewrite seq_S. simpl.
      rewrite (perm_snoc (requestQueue (adm s))), (perm_snoc (seq 0 (arrivals s))).
      simpl. rewrite <- Permutation_middle. now constructor.
    + assumption.
    + rewrite Nat.add_1_r, seq_S, <- Hq. f_equal. f_equal. lia.
Qed.

Lemma settle_inv (limit : nat) (s : Sched) (j : nat) (ok : bool) :
  SchedInv limit s -> SchedInv limit (schedStep limit s (Settle j ok)).
Proof.
  intros Hinv. unfold schedStep.
  destruct (isRunning j s) eqn:Hrun; [|assumption].
  apply isRunning_In in Hrun.
  destruct Hinv as (Hact & Hle & Hfull & Hperm & Hlog & Hq & Harr).
  unfold SchedInv, waiting in *. unfold finish.
  pose proof (removeOne_length j (running s) Hrun) as Hlen.
  pose proof (removeOne_perm j (running s) Hrun) as Hrm.
  remember (removeOne j (running s)) as rm eqn:Erm. clear Erm.
  destruct (requestQueue (adm s)) as [|next rest] eqn:Equeue;
    cbn [adm running settled startLog arrivals activeCompilations requestQueue].
  - rewrite map_app. cbn [map fst List.length] in *.
    repeat split; try lia; try assumption.
    + intros H; now elim H.
    + rewrite <- Hperm, Hrm. cbn [app].
      rewrite (perm_snoc (map fst (settled s))).
      simpl. symmetry. apply Permutation_middle.
  - assert (Hlim : List.length (running s) = limit) by (apply Hfull; discriminate).
    cbn [List.length] in Hq, Harr.
    rewrite <- cons_seq in Hq. injection Hq as Hnext Hrest.
    rewrite map_app, ?length_app. cbn [map fst List.length].
    repeat split; try lia.
    + rewrite <- Hperm, Hrm.
      rewrite (perm_snoc rm).
      rewrite (perm_snoc (map fst (settled s))).
      simpl. rewrite <- !Permutation_middle. apply perm_swap.
    + rewrite Nat.add_1_r, seq_S, <- Hlog. cbn [Nat.add]. congruence.
    + rewrite Nat.add_1_r. exact Hrest.
Qed.

Lemma schedStep_inv (limit : nat) (s : Sched) (e : SchedEvent) :
  SchedInv limit s -> SchedInv limit (schedStep limit s e).
Proof. destruct e; [apply arrive_inv|apply settle_inv]. Qed.

Lemma fold_schedStep_inv (limit : nat) (events : list SchedEvent) :
  forall s, SchedInv limit s -> SchedInv limit (fold_left (schedStep limit) events s).
Proof.
  induction events as [|e events IH]; intros s Hs; simpl; [assumption|].
  apply IH, schedStep_inv, Hs.
Qed.

Lemma schedRun_inv (limit : nat) (events : list SchedEvent) :
  SchedInv limit (schedRun limit events).
Proof. apply fold_schedStep_inv, schedInit_inv. Qed.





(** C4. When a job in flight settles, resolved or rejected alike, the
    head of the queue (if there is one) and nothing else is taken out and
    started; the queue lists the waiting jobs in arrival order, and jobs
    are started in arrival order. *)
Theorem C4_completion_releases_head :
  forall (limit : nat) (events : list SchedEvent) (j : nat) (ok : bool),
    let s := schedRun limit events in
    In j (running s) ->
    let s' := schedStep limit s (Settle j ok) in
    In (j, ok) (settled s') /\
    match waiting s with
    | [] =>
        waiting s' = [] /\ startLog s' = startLog s /\
        running s' = removeOne j (running s)
    | next :: rest =>
        waiting s' = rest /\ startLog s' = (startLog s ++ [next])%list /\
        running s' = (removeOne j (running s) ++ [next])%list /\
        forall q, In q rest -> next < q
    end /\
    waiting s' = seq (List.length (startLog s')) (List.length (waiting s')) /\
    startLog s' = seq 0 (List.length (startLog s')).
Proof.
  intros limit events j ok s Hrun s'.
  assert (Hinv : SchedInv limit s) by apply schedRun_inv.
  assert (Hinv' : SchedInv limit s') by (apply settle_inv, Hinv).
  destruct Hinv as (_ & _ & _ & _ & _ & Hq & _).
  destruct Hinv' as (_ & _ & _ & _ & Hlog' & Hq' & _).
  assert (Hstep : s' = schedStep limit s (Settle j ok)) by reflexivity.
  unfold schedStep in Hstep.
  apply isRunning_In in Hrun. rewrite Hrun in Hstep.
  unfold finish in Hstep. unfold waiting in Hq |- *.
  destruct (requestQueue (adm s)) as [|next rest] eqn:Equeue.
  - rewrite Hstep at 1 2 3 4. cbn [settled adm requestQueue startLog running].
    split; [apply in_or_app; right; left; reflexivity|].
    split; [repeat split|]. split; assumption.
  - rewrite Hstep at 1 2 3 4. cbn [settled adm requestQueue startLog running].
    split; [apply in_or_app; right; left; reflexivity|].
    split; [|split; assumption].
    repeat split.
    intros q Hin. cbn [List.length] in Hq. rewrite <- cons_seq in Hq.
    injection Hq as Hnext Hrest. rewrite Hrest in Hin.
    apply in_seq in Hin. lia.
Qed.

Lemma C4_completion_releases_head_witness :
  In 1 (running (schedRun MAX_CONCURRENT_COMPILATIONS
                   [Arrive; Arrive; Arrive; Arrive; Arrive; Arrive])) /\
  startLog (schedStep MAX_CONCURRENT_COMPILATIONS
              (schedRun MAX_CONCURRENT_COMPILATIONS
                 [Arrive; Arrive; Arrive; Arrive; Arrive; Arrive])
              (Settle 1 false))
  = seq 0 5.
Proof.
  split.
  - simpl. tauto.
  - apply (C4_completion_releases_head MAX_CONCURRENT_COMPILATIONS
             [Arrive; Arrive; Arrive; Arrive; Arrive; Arrive] 1 false).
    simpl. tauto.
Defined.

(** ** Result cache *)

Lemma delete_size_le {V : Type} (k : string) (m : JsMap.t V) :
  JsMap.size (JsMap.delete k m) <= JsMap.size m.
Proof.
  unfold JsMap.size. induction m as [|[k' v'] m IH]; simpl; [lia|].
  destruct (String.eqb k k'); simpl; lia.
Qed.

Lemma delete_size_same {V : Type} (k : string) (m : JsMap.t V) :
  JsMap.size (JsMap.delete k m) = JsMap.size m -> JsMap.delete k m = m.
Proof.
  unfold JsMap.size. induction m as [|[k' v'] m IH]; simpl; [reflexivity|].
  destruct (String.eqb k k'); simpl; intros H.
  - lia.
  - f_equal. apply IH. lia.
Qed.

Lemma delete_size_in {V : Type} (k : string) (m : JsMap.t V) :
  In k (JsMap.keys m) -> S (JsMap.size (JsMap.delete k m)) = JsMap.size m.
Proof.
  unfold JsMap.size, JsMap.keys.
  induction m as [|[k' v'] m IH]; simpl; [tauto|].
  destruct (String.eqb_spec k k') as [->|Hne]; [reflexivity|].
  intros [Heq|Hin]; [congruence|]. simpl. now rewrite IH.
Qed.

Lemma set_size_le {V : Type} (k : string) (v : V) (m : JsMap.t V) :
  JsMap.size (JsMap.set k v m) <= S (JsMap.size m).
Proof.
  unfold JsMap.size. induction m as [|[k' v'] m IH]; simpl; [lia|].
  destruct (String.eqb k k'); simpl; lia.
Qed.

Lemma set_size_new {V : Type} (k : string) (v : V) (m : JsMap.t V) :
  JsMap.get k m = None -> JsMap.size (JsMap.set k v m) = S (JsMap.size m).
Proof.
  unfold JsMap.size. induction m as [|[k' v'] m IH]; simpl; [reflexivity|].
  destruct (String.eqb k k'); [discriminate|]. simpl. intros H. now rewrite IH.
Qed.

Lemma purgeExpired_size_le (now : Z) (entries : list (string * CacheEntry)) :
  forall c, JsMap.size (purgeExpired now entries c) <= JsMap.size c.
Proof.
  unfold purgeExpired.
  induction entries as [|e entries IH]; intros c; simpl; [lia|].
  destruct (_ >? _)%Z.
  - etransitivity; [apply IH|apply delete_size_le].
  - apply IH.
Qed.

Lemma purgeExpired_size_same (now : Z) (entries : list (string * CacheEntry)) :
  forall c, JsMap.size (purgeExpired now entries c) = JsMap.size c ->
            purgeExpired now entries c = c.
Proof.
  unfold purgeExpired.
  induction entries as [|e entries IH]; intros c; simpl; [reflexivity|].
  destruct (_ >? _)%Z; [|apply IH].
  intros Hsize.
  pose proof (purgeExpired_size_le now entries (JsMap.delete (fst e) c)) as H1.
  pose proof (delete_size_le (fst e) c) as H2.
  unfold purgeExpired in H1.
  assert (Hd : JsMap.delete (fst e) c = c) by (apply delete_size_same; lia).
  rewrite Hd in *. now apply IH.
Qed.

Lemma insertByTimestamp_in (x y : string * CacheEntry)
    (l : list (string * CacheEntry)) :
  In y (insertByTimestamp x l) -> y = x \/ In y l.
Proof.
  induction l as [|z l IH]; simpl.
  - intros [H|[]]; auto.
  - destruct (_ <=? _)%Z; simpl.
    + intros [H|[H|H]]; auto.
    + intros [H|H]; auto. destruct (IH H); auto.
Qed.

Lemma sortByTimestamp_in (y : string * CacheEntry)
    (l : list (string * CacheEntry)) :
  In y (sortByTimestamp l) -> In y l.
Proof.
  unfold sortByTimestamp. induction l as [|x l IH]; simpl; [tauto|].
  intros H. apply insertByTimestamp_in in H. destruct H; auto.
Qed.

Lemma insertByTimestamp_length (x : string * CacheEntry)
    (l : list (string * CacheEntry)) :
  List.length (insertByTimestamp x l) = S (List.length l).
Proof.
  induction l as [|z l IH]; simpl; [reflexivity|].
  destruct (_ <=? _)%Z; simpl; [reflexivity|]. now rewrite IH.
Qed.

Lemma sortByTimestamp_length (l : list (string * CacheEntry)) :
  List.length (sortByTimestamp l) = List.length l.
Proof.
  unfold sortByTimestamp. induction l as [|x l IH]; simpl; [reflexivity|].
  now rewrite insertByTimestamp_length, IH.
Qed.

(** As long as the cache holds at most one entry more than
    [MAX_CACHE_SIZE], [cleanCache] brings it down to [MAX_CACHE_SIZE]. *)
Lemma cleanCache_size_bound (now : Z) (c : Cache) :
  JsMap.size c <= S MAX_CACHE_SIZE ->
  JsMap.size (cleanCache now c) <= MAX_CACHE_SIZE.
Proof.
  intros Hc. unfold cleanCache.
  pose proof (purgeExpired_size_le now (JsMap.entries c) c) as Hle.
  destruct (Nat.ltb_spec MAX_CACHE_SIZE
              (JsMap.size (purgeExpired now (JsMap.entries c) c))) as [Hgt|Hok];
    [|assumption].
  assert (Hsame : purgeExpired now (JsMap.entries c) c = c)
    by (apply purgeExpired_size_same; lia).
  rewrite Hsame in *.
  assert (Hsize : JsMap.size c = S MAX_CACHE_SIZE) by lia.
  rewrite Hsize. replace (S MAX_CACHE_SIZE - MAX_CACHE_SIZE) with 1 by lia.
  unfold JsMap.entries.
  destruct (sortByTimestamp c) as [|x sorted] eqn:Es.
  - pose proof (sortByTimestamp_length c) as Hl. rewrite Es in Hl.
    unfold JsMap.size in Hsize. simpl in Hl. lia.
  - simpl. unfold deleteAll. simpl.
    assert (Hin : In (fst x) (JsMap.keys c)).
    { unfold JsMap.keys. apply in_map, sortByTimestamp_in.
      rewrite Es. now left. }
    pose proof (delete_size_in (fst x) c Hin). lia.
Qed.

(** Hence a store leaves at most [MAX_CACHE_SIZE + 1] entries. *)
Lemma cacheStore_size_bound (now1 now2 : Z) (key w shim : string) (c : Cache) :
  JsMap.size c <= S MAX_CACHE_SIZE ->
  JsMap.size (cacheStore now1 now2 key w shim c) <= S MAX_CACHE_SIZE.
Proof.
  intros Hc. unfold cacheStore.
  etransitivity; [apply set_size_le|].
  apply le_n_S, cleanCache_size_bound, Hc.
Qed.

(** C1, evaluated.  Starting from the empty cache, one hundred stores of
    distinct keys fill the cache to [MAX_CACHE_SIZE]; the next store of a
    new key evicts nothing and leaves [MAX_CACHE_SIZE + 1] entries, the
    oldest key still among them; only the store after that evicts the
    oldest entry, and the cache stays at [MAX_CACHE_SIZE + 1]. *)
Theorem C1_store_exceeds_capacity :
  JsMap.size (fillCache MAX_CACHE_SIZE) = MAX_CACHE_SIZE /\
  JsMap.size (fillCache (S MAX_CACHE_SIZE)) = S MAX_CACHE_SIZE /\
  JsMap.keys (fillCache (S MAX_CACHE_SIZE))
  = map sampleKey (seq 0 (S MAX_CACHE_SIZE)) /\
  JsMap.keys (fillCache (S (S MAX_CACHE_SIZE)))
  = map sampleKey (seq 1 (S MAX_CACHE_SIZE)).
Proof. vm_compute. repeat split. Qed.

(** On a cache that is further over capacity, and holds expired entries,
    the eviction step even leaves more than [MAX_CACHE_SIZE] entries: the
    sorted snapshot still lists the entries the purge has just deleted. *)
Lemma cleanCache_stale_snapshot :
  JsMap.size (agedCache 2 103) = 105 /\
  JsMap.size (cleanCache (sampleTime 0) (agedCache 2 103)) = 102.
Proof. vm_compute. split; reflexivity. Qed.

(** ** Flows: the monad's building blocks *)

Arguments warmName : simpl never.
Arguments tempName : simpl never.
Arguments dockerRun : simpl never.
Arguments dockerRm : simpl never.
Arguments trim : simpl never.
Arguments pathJoin : simpl never.
Arguments base64 : simpl never.
Arguments cacheStore : simpl never.
Arguments cleanError : simpl never.
Arguments includes : simpl never.
Arguments String.append : simpl never.
Arguments String.eqb : simpl never.
Arguments objGet : simpl never.
Arguments ownSet : simpl never.
Arguments releasePoolSize : simpl never.
Arguments count : simpl never.

Ltac flow_unfold :=
  unfold bind, ret, throw, tryCatch, tryFinally, getServer, modifyServer,
    emit, getContainerName, setContainerName, await, fire, dateNow, uuidv4.

Lemma count_app (f : Event -> bool) (l1 l2 : list Event) :
  count f (l1 ++ l2)%list = count f l1 + count f l2.
Proof. unfold count. now rewrite filter_app, length_app. Qed.

Lemma count_snoc (f : Event -> bool) (l : list Event) (e : Event) :
  count f (l ++ [e])%list = count f l + (if f e then 1 else 0).
Proof. rewrite count_app. unfold count. simpl. now destruct (f e). Qed.

Lemma in_snoc (l : list Event) (e ev : Event) :
  In ev l -> In ev (l ++ [e])%list.
Proof. intros H. apply in_or_app. now left. Qed.

Lemma in_last (l : list Event) (e : Event) : In e (l ++ [e])%list.
Proof. apply in_or_app. right. now left. Qed.

Lemma Steps_refl (p : Proc) : Steps p p 0 0.
Proof. unfold Steps. repeat split; auto; lia. Qed.

Lemma Steps_trans (p q s : Proc) (a r a' r' : nat) :
  Steps p q a r -> Steps q s a' r' -> Steps p s (a + a') (r + r').
Proof.
  intros (H1 & H2 & H3 & H4 & H5 & H6 & H7) (K1 & K2 & K3 & K4 & K5 & K6 & K7).
  unfold Steps. repeat split; try congruence; try lia; auto.
  intros f. specialize (H5 f). specialize (K5 f). lia.
Qed.

Lemma Steps_cast (p q : Proc) (a r a' r' : nat) :
  Steps p q a r -> a = a' -> r = r' -> Steps p q a' r'.
Proof. intros H -> ->. exact H. Qed.

(** ** Objects keyed by string *)

Lemma ownGet_In {A : Type} (k : string) (o : list (string * A)) (a : A) :
  ownGet k o = Some a -> In (k, a) o.
Proof.
  induction o as [|[k' a'] o IH]; simpl; [discriminate|].
  destruct (String.eqb_spec k k') as [->|Hne].
  - intros [= ->]. now left.
  - intros H. right. auto.
Qed.

Lemma objGet_Own_In {A : Type} (k : string) (o : list (string * A)) (a : A) :
  objGet o k = Own a -> In (k, a) o.
Proof.
  unfold objGet. destruct (ownGet k o) eqn:E.
  - intros [= ->]. now apply ownGet_In.
  - destruct (inStrings k objectPrototypeKeys); discriminate.
Qed.

Lemma ownSet_In {A : Type} (k : string) (a : A) (o : list (string * A))
    (k' : string) (a' : A) :
  In (k', a') (ownSet k a o) -> a' = a \/ In (k', a') o.
Proof.
  unfold ownSet. induction o as [|[k0 a0] o IH]; simpl.
  - intros [[= <- <-]|[]]. now left.
  - destruct (String.eqb k k0); simpl.
    + intros [[= <- <-]|H]; auto.
    + intros [H|H]; auto. destruct (IH H); auto.
Qed.

Lemma ownGet_ownSet {A : Type} (k : string) (a a0 : A) (o : list (string * A)) :
  ownGet k o = Some a0 -> ownGet k (ownSet k a o) = Some a.
Proof.
  unfold ownSet. induction o as [|[k0 b] o IH]; simpl; [discriminate|].
  destruct (String.eqb k k0) eqn:E; simpl; rewrite E; auto.
Qed.

Lemma objGet_ownSet {A : Type} (k : string) (a a0 : A) (o : list (string * A)) :
  objGet o k = Own a0 -> objGet (ownSet k a o) k = Own a.
Proof.
  unfold objGet. destruct (ownGet k o) eqn:E.
  - intros _. now rewrite (ownGet_ownSet k a a1 o E).
  - destruct (inStrings k objectPrototypeKeys); discriminate.
Qed.

(** The registered languages are exactly cpp, rust and go. *)
Lemma registered_cases (language : string) (config : LanguageConfig) :
  objGet LANGUAGES language = Own config ->
  (language = "cpp" /\ config = cppConfig) \/
  (language = "rust" /\ config = rustConfig) \/
  (language = "go" /\ config = goConfig).
Proof.
  unfold objGet, LANGUAGES. cbn [ownGet].
  destruct (String.eqb_spec language "cpp") as [->|_];
    [intros [= <-]; auto|].
  destruct (String.eqb_spec language "rust") as [->|_];
    [intros [= <-]; auto 6|].
  destruct (String.eqb_spec language "go") as [->|_];
    [intros [= <-]; auto 6|].
  destruct (inStrings language objectPrototypeKeys); discriminate.
Qed.

Lemma registered_in_list (language : string) (config : LanguageConfig) :
  objGet LANGUAGES language = Own config ->
  In language ["cpp"; "rust"; "go"].
Proof.
  intros H. destruct (registered_cases language config H)
    as [[-> _]|[[-> _]|[-> _]]]; simpl; auto.
Qed.

Lemma releasePoolSize_registered (language : string) (config : LanguageConfig) :
  objGet LANGUAGES language = Own config ->
  releasePoolSize language = poolSize config.
Proof.
  intros H. unfold releasePoolSize. rewrite H.
  destruct (registered_cases language config H) as [[_ ->]|[[_ ->]|[_ ->]]];
    reflexivity.
Qed.

(** ** Container pool *)

Lemma PoolNamesOk_setPool (s : Server) (language : string)
    (pool : list string) :
  PoolNamesOk s ->
  (forall c, In c pool -> includes "pool" c = true) ->
  PoolNamesOk (setPool language pool s).
Proof.
  intros Hs Hpool l pl c Hin Hc. unfold setPool in Hin. simpl in Hin.
  apply ownSet_In in Hin. destruct Hin as [->|Hin]; [auto|].
  exact (Hs l pl c Hin Hc).
Qed.

Lemma PoolNamesOk_same_pool (s s' : Server) :
  containerPool s' = containerPool s -> PoolNamesOk s -> PoolNamesOk s'.
Proof. unfold PoolNamesOk. intros ->. auto. Qed.

Ltac count_le :=
  let f := fresh "f" in
  intros f; rewrite ?count_snoc;
  repeat match goal with
         | |- context [if ?b then _ else _] => destruct b
         end;
  lia.

Lemma PoolNamesOk_setCache (f : Cache -> Cache) (s : Server) :
  PoolNamesOk s -> PoolNamesOk (setCache f s).
Proof. apply PoolNamesOk_same_pool. reflexivity. Qed.

Ltac in_mono :=
  let ev := fresh "ev" in
  let Hin := fresh "Hin" in
  intros ev Hin; repeat apply in_snoc; auto.

Ltac steps_split :=
  unfold Steps; simpl; rewrite ?count_snoc; simpl;
  repeat match goal with
         | |- _ /\ _ => split
         end;
  try reflexivity; try lia; try count_le; try solve [in_mono];
  auto using PoolNamesOk_setCache.

(** [releaseContainer] returns, adds one [Released] event and no
    [Acquired] one, and pools only a name that carries the marker. *)
Lemma releaseContainer_spec (w : World) (language c : string) (p : Proc)
    (pool : list string) :
  objGet (containerPool (server p)) language = Own pool ->
  exists p',
    releaseContainer w language c p = (Ret tt, p') /\
    Steps p p' 0 1 /\
    compilationCache (server p') = compilationCache (server p) /\
    containerName p' = containerName p /\
    In (Released language c) (trace p').
Proof.
  intros Hown. unfold releaseContainer. flow_unfold. simpl. rewrite Hown.
  destruct (_ && _) eqn:Hpush; simpl.
  - eexists. split; [reflexivity|]. steps_split; [|apply in_last].
    intros Hok. apply PoolNamesOk_setPool; [assumption|].
    intros c' Hc'. apply in_app_or in Hc'. destruct Hc' as [Hc'|[<-|[]]].
    + exact (Hok language pool c' (objGet_Own_In _ _ _ Hown) Hc').
    + now apply andb_prop in Hpush.
  - destruct (answer w (tick p) (dockerRm c)); simpl;
      (eexists; split; [reflexivity|]); steps_split;
      apply in_snoc, in_last.
Qed.

(** [getContainer] either returns a name, with one [Acquired] event for
    it, or throws without any; a name it returns is non-empty when the
    pool's names are well formed. *)
Lemma getContainer_spec (w : World) (language : string) (p : Proc) :
  match getContainer w language p with
  | (Ret c, p') =>
      Steps p p' 1 0 /\
      compilationCache (server p') = compilationCache (server p) /\
      containerName p' = containerName p /\
      (exists pool, objGet (containerPool (server p')) language = Own pool) /\
      (PoolNamesOk (server p) -> c <> "") /\
      In (Acquired c) (trace p')
  | (Throw e, p') =>
      Steps p p' 0 0 /\
      compilationCache (server p') = compilationCache (server p) /\
      containerName p' = containerName p
  end.
Proof.
  unfold getContainer. flow_unfold. simpl.
  destruct (objGet (containerPool (server p)) language) as [[|c pool]| |] eqn:Hown;
    simpl.
  - destruct (objGet LANGUAGES language) as [config| |]; simpl;
      [|steps_split..].
    destruct (answer w (S (tick p)) _); simpl; steps_split.
    + eauto.
    + intros _. apply tempName_nonempty.
    + apply in_last.
  - steps_split.
    + intros Hok. apply PoolNamesOk_setPool; [assumption|].
      intros c' Hc'.
      exact (Hok language (c :: pool) c' (objGet_Own_In _ _ _ Hown)
               (or_intror Hc')).
    + eexists. apply (objGet_ownSet language pool (c :: pool)), Hown.
    + intros Hok.
      apply (includes_nonempty "pool"); [discriminate|].
      exact (Hok language (c :: pool) c (objGet_Own_In _ _ _ Hown)
               (or_introl eq_refl)).
    + apply in_last.
  - steps_split.
  - steps_split.
Qed.

(** ** The compile job *)

Lemma count_rm_snoc (dir : string) (l : list Event) (r : ExtResult) :
  count (isRmOf dir) (l ++ [Called (Rm dir) r])%list
  = S (count (isRmOf dir) l).
Proof. rewrite count_snoc. simpl. rewrite String.eqb_refl. lia. Qed.

(** The [catch] block releases the container if the job holds one,
    issues the removal of the scratch directory, and throws the cleaned
    error. *)
Lemma jobCatch_spec (w : World) (language tmpDir : string) (error : JsError)
    (p : Proc) :
  (containerName p <> "" ->
   exists pool, objGet (containerPool (server p)) language = Own pool) ->
  exists p',
    jobCatch w language tmpDir error p
    = (Throw (newError (cleanError language error)), p') /\
    Steps p p' 0 (if truthy (Some (containerName p)) then 1 else 0) /\
    compilationCache (server p') = compilationCache (server p) /\
    S (count (isRmOf tmpDir) (trace p)) <= count (isRmOf tmpDir) (trace p') /\
    (containerName p <> "" ->
     In (Released language (containerName p)) (trace p')).
Proof.
  intros Hown. unfold jobCatch. flow_unfold. simpl.
  destruct (containerName p) as [|a c] eqn:Ec; simpl.
  - destruct (answer w (tick p) (Rm tmpDir)) eqn:Ea; simpl;
      (eexists; split; [reflexivity|]);
      (split; [steps_split|]); (split; [reflexivity|]);
      (split; [simpl; rewrite count_rm_snoc; lia|congruence]).
  - destruct Hown as [pool Hown]; [discriminate|].
    destruct (releaseContainer_spec w language (String a c) p pool Hown)
      as (p1 & Hrel & Hsteps & Hcache & Hname & Hin).
    rewrite Hrel.
    assert (Hrm1 : count (isRmOf tmpDir) (trace p)
                   <= count (isRmOf tmpDir) (trace p1))
      by apply Hsteps.
    destruct (answer w (tick p1) (Rm tmpDir)) eqn:Ea; simpl;
      (eexists; split; [reflexivity|]);
      (split;
       [apply (Steps_trans p p1 _ 0 1 0 0 Hsteps); steps_split|]);
      (split; [exact Hcache|]);
      (split; [simpl; rewrite count_rm_snoc; lia|]);
      intros _; simpl; apply in_snoc; exact Hin.
Qed.

(** The innermost scrutinee at the head of a goal that is a nest of
    matches. *)
Ltac scrut t :=
  lazymatch t with
  | match ?x with _ => _ end => scrut x
  | (match ?x with _ => _ end) _ => scrut x
  | _ => t
  end.

(** Case analysis on whatever the flow inspects next. *)
Ltac step1 :=
  lazymatch goal with
  | |- ?g =>
      let x := scrut g in
      lazymatch x with
      | answer ?a ?b ?c => destruct x eqn:?; simpl
      | objGet ?a ?b => destruct x eqn:?; simpl
      | String.eqb ?a ?b =>
          first [ match goal with H : x = _ |- _ => rewrite H end
                | destruct x eqn:? ]; simpl
      end
  end.

(** Use a lemma about the final process state of a failed path. *)
Ltac leaf H :=
  lazymatch goal with
  | |- exists a, _ /\ Steps _ ?q _ _ /\ _ => apply (H q); simpl
  end.

Ltac fail1 Hleaf Hc Hcfg :=
  leaf Hleaf;
  [ steps_split
  | reflexivity
  | reflexivity
  | first
      [ left; exact Hc
      | right; do 5 eexists;
        split; [exact Hcfg|];
        split; [|rewrite Hc; reflexivity];
        let Hgo := fresh "Hgo" in
        intros Hgo;
        first [ reflexivity
              | exfalso; apply Hgo; apply String.eqb_eq; assumption ] ] ].

Lemma count_rmDone_snoc (dir out : string) (l : list Event) :
  count (isRmDone dir) (l ++ [Called (Rm dir) (Resolved out)])%list
  = S (count (isRmDone dir) l).
Proof. rewrite count_snoc. simpl. rewrite String.eqb_refl. lia. Qed.

(** The [try] block either returns, having acquired and released one
    container, or throws before any release; when the pool's names are
    well formed it then holds a container exactly when it acquired one. *)
Lemma jobTry_spec (w : World) (j : Job) (tmpDir : string) (p : Proc) :
  containerName p = "" ->
  match jobTry w j tmpDir p with
  | (Ret body, p') =>
      Steps p p' 1 1 /\ JobReturned j tmpDir body p p' /\
      exists c,
        In (Acquired c) (trace p') /\
        In (Released (jobLanguage j) c) (trace p')
  | (Throw e, p') =>
      exists a,
        a <= 1 /\
        Steps p p' a 0 /\
        (PoolNamesOk (server p) ->
         if truthy (Some (containerName p')) then a = 1 else a = 0) /\
        (containerName p' <> "" ->
         (exists pool,
             objGet (containerPool (server p')) (jobLanguage j) = Own pool) /\
         In (Acquired (containerName p')) (trace p')) /\
        CacheStep j (compilationCache (server p))
          (compilationCache (server p'))
  end.
Proof.
  intros Hname. unfold jobTry. flow_unfold. simpl.
  assert (Hleaf0 : forall p',
             Steps p p' 0 0 -> containerName p' = "" ->
             compilationCache (server p') = compilationCache (server p) ->
             exists a,
               a <= 1 /\
               Steps p p' a 0 /\
               (PoolNamesOk (server p) ->
                if truthy (Some (containerName p')) then a = 1 else a = 0) /\
               (containerName p' <> "" ->
                (exists pool,
                    objGet (containerPool (server p')) (jobLanguage j)
                    = Own pool) /\
                In (Acquired (containerName p')) (trace p')) /\
               CacheStep j (compilationCache (server p))
                 (compilationCache (server p'))).
  { intros p' Hs Hn Hc. exists 0. rewrite Hn, Hc. simpl.
    split; [lia|]. split; [exact Hs|].
    split; [reflexivity|]. split; [congruence|now left]. }
  step1; [|leaf Hleaf0; [steps_split|assumption|reflexivity]].
  step1; [|leaf Hleaf0; [steps_split|assumption|reflexivity]..].
  step1; [|leaf Hleaf0; [steps_split|assumption|reflexivity]].
  match goal with
  | |- context [getContainer w ?l ?q] =>
      pose proof (getContainer_spec w l q) as Hget;
      assert (Hpre : Steps p q 0 0) by steps_split;
      destruct (getContainer w l q) as [[c|e] p2]
  end; simpl in Hget |- *.
  2: { destruct Hget as (Hs & Hc & Hn).
       leaf Hleaf0; [|congruence|assumption].
       exact (Steps_trans _ _ _ _ _ _ _ Hpre Hs). }
  clear Hleaf0.
  destruct Hget as (Hs & Hc & Hn & [pool Hown] & Hne & Hacq).
  pose proof (Steps_trans _ _ _ _ _ _ _ Hpre Hs) as Hs2. simpl in Hs2.
  clear Hpre Hs.
  assert (Hleaf1 : forall p',
             Steps p2 p' 0 0 -> containerName p' = c ->
             containerPool (server p') = containerPool (server p2) ->
             CacheStep j (compilationCache (server p))
               (compilationCache (server p')) ->
             exists a,
               a <= 1 /\
               Steps p p' a 0 /\
               (PoolNamesOk (server p) ->
                if truthy (Some (containerName p')) then a = 1 else a = 0) /\
               (containerName p' <> "" ->
                (exists pool,
                    objGet (containerPool (server p')) (jobLanguage j)
                    = Own pool) /\
                In (Acquired (containerName p')) (trace p')) /\
               CacheStep j (compilationCache (server p))
                 (compilationCache (server p'))).
  { intros p' Hs Hn' Hp Hcs. exists 1. rewrite Hn', Hp.
    split; [lia|].
    split; [exact (Steps_trans _ _ _ _ _ _ _ Hs2 Hs)|].
    split; [|split; [|assumption]].
    - intros Hok. specialize (Hne Hok).
      destruct c; [congruence|reflexivity].
    - intros _. split; [eauto|]. apply Hs. exact Hacq. }
  clear Hne.
  step1.
  all: step1; [|fail1 Hleaf1 Hc Heql].
  all: step1; [|fail1 Hleaf1 Hc Heql].
  all: step1; [|fail1 Hleaf1 Hc Heql].
  all: step1.
  all: repeat (step1; [|fail1 Hleaf1 Hc Heql]).
  all: match goal with
       | |- context [releaseContainer ?w0 ?l ?n ?q] =>
           assert (Hmid : Steps p2 q 0 0) by steps_split;
           assert (Hrm : S (count (isRmDone tmpDir) (trace p2))
                         <= count (isRmDone tmpDir) (trace q))
             by (simpl; rewrite count_snoc, count_rmDone_snoc; simpl;
                 rewrite ?count_snoc; simpl; lia);
           destruct (releaseContainer_spec w0 l n q pool Hown)
             as (p4 & Hrel & Hs4 & Hc4 & Hn4 & Hrel4);
           rewrite Hrel; simpl in Hc4 |- *
       end.
  all: split;
    [ apply (Steps_trans p p4 _ 1 1 0 0);
      [ exact (Steps_trans _ _ _ _ _ _ _
                 (Steps_trans _ _ _ _ _ _ _ Hs2 Hmid) Hs4)
      | steps_split ]
    | ].
  all: split;
    [ | exists c; split; [apply Hs4, Hmid, Hacq|exact Hrel4] ].
  all: unfold JobReturned; do 5 eexists; simpl.
  all: split; [exact Heql|]; split; [reflexivity|].
  all: split; [apply Hs4; simpl; repeat first [apply in_last | apply in_snoc]|].
  all: match goal with
       | H : String.eqb (jobLanguage _) _ = _ |- _ => rewrite H
       end.
  all: split;
    [ first [ reflexivity
            | apply Hs4; simpl; repeat first [apply in_last | apply in_snoc] ]
    | ].
  all: split; [rewrite Hc4, Hc; reflexivity|].
  all: destruct Hs2 as (_ & _ & _ & _ & Hle2 & _);
       destruct Hs4 as (_ & _ & _ & _ & Hle4 & _);
       specialize (Hle2 (isRmDone tmpDir)); specialize (Hle4 (isRmDone tmpDir));
       lia.
Qed.

(** The whole job.  If it returns it acquired one container and released
    that container.  If it throws, the error is the cleaned one, the
    removal of the scratch directory was issued, a container it released
    is one it acquired, and (the pool's names being well formed) it
    released exactly what it acquired, at most one container. *)
Lemma compileJob_spec (w : World) (j : Job) (p : Proc) :
  let tmpDir := jobTmpDir w p in
  match compileJob w j p with
  | (Ret body, p') =>
      Steps p p' 1 1 /\ JobReturned j tmpDir body p p' /\
      exists c,
        In (Acquired c) (trace p') /\
        In (Released (jobLanguage j) c) (trace p')
  | (Throw e, p') =>
      (exists a r,
          a <= 1 /\ r <= 1 /\ Steps p p' a r /\
          (PoolNamesOk (server p) -> a = r) /\
          (r = 1 ->
           exists c,
             In (Acquired c) (trace p') /\
             In (Released (jobLanguage j) c) (trace p'))) /\
      S (count (isRmOf tmpDir) (trace p)) <= count (isRmOf tmpDir) (trace p') /\
      (exists raw, e = newError (cleanError (jobLanguage j) raw)) /\
      CacheStep j (compilationCache (server p)) (compilationCache (server p'))
  end.
Proof.
  unfold jobTmpDir, compileJob.
  unfold bind at 1. unfold uuidv4. unfold bind at 1. unfold setContainerName.
  unfold tryCatch. cbn [server tick trace containerName].
  generalize (pathJoin [tmpdir w; "wasm-compilers-express"; uuid w (tick p)]).
  intros tmpDir. cbv zeta.
  pose proof (jobTry_spec w j tmpDir
                (mkProc (server p) (S (tick p)) (trace p) "") eq_refl)
    as Htry.
  assert (Hp0 : Steps p (mkProc (server p) (S (tick p)) (trace p) "") 0 0)
    by steps_split.
  destruct (jobTry w j tmpDir (mkProc (server p) (S (tick p)) (trace p) ""))
    as [[body|e] p1].
  - destruct Htry as (Hs & Hret & Hsame). split; [|split].
    + exact (Steps_trans _ _ _ _ _ _ _ Hp0 Hs).
    + exact Hret.
    + exact Hsame.
  - destruct Htry as (a & Ha1 & Hs & Ha & Hown & Hcache).
    assert (Hown' : containerName p1 <> "" ->
                    exists pool,
                      objGet (containerPool (server p1)) (jobLanguage j)
                      = Own pool)
      by (intros Hne; apply Hown, Hne).
    destruct (jobCatch_spec w (jobLanguage j) tmpDir e p1 Hown')
      as (p' & Hcatch & Hs' & Hc' & Hrm & Hrel).
    rewrite Hcatch.
    split; [|split; [|split]].
    + exists a, (if truthy (Some (containerName p1)) then 1 else 0).
      split; [exact Ha1|].
      split; [destruct (truthy (Some (containerName p1))); lia|].
      split;
        [apply (Steps_cast _ _ _ _ _ _ (Steps_trans _ _ _ _ _ _ _ Hs Hs'));
         lia|].
      split.
      * intros Hok. specialize (Ha Hok).
        destruct (truthy (Some (containerName p1))); exact Ha.
      * intros Hr.
        assert (Hne : containerName p1 <> "").
        { intros Heq. rewrite Heq in Hr. discriminate. }
        exists (containerName p1). split; [|exact (Hrel Hne)].
        apply Hs'. apply (Hown Hne).
    + destruct Hs as (_ & _ & _ & _ & Hle & _).
      specialize (Hle (isRmOf tmpDir)). simpl in Hle. lia.
    + eauto.
    + rewrite Hc'. exact Hcache.
Qed.

(** ** Warm-up *)

Lemma Quiet_refl (p : Proc) : Quiet p p.
Proof. split; [apply Steps_refl|split; reflexivity]. Qed.

Lemma Quiet_trans (p q r : Proc) : Quiet p q -> Quiet q r -> Quiet p r.
Proof.
  intros (H1 & H2 & H3) (K1 & K2 & K3). split.
  - exact (Steps_trans _ _ _ _ _ _ _ H1 K1).
  - split; congruence.
Qed.

Lemma forEach_quiet {A : Type} (f : A -> M unit) (l : list A) :
  (forall x p, exists p', f x p = (Ret tt, p') /\ Quiet p p') ->
  forall p, exists p', forEach l f p = (Ret tt, p') /\ Quiet p p'.
Proof.
  intros Hf. induction l as [|x l IH]; intros p; simpl.
  - exists p. split; [reflexivity|apply Quiet_refl].
  - unfold bind. destruct (Hf x p) as (p1 & -> & Hq1).
    destruct (IH p1) as (p2 & -> & Hq2).
    exists p2. split; [reflexivity|]. exact (Quiet_trans _ _ _ Hq1 Hq2).
Qed.

Arguments forEach : simpl never.

(** [step1] for a goal that asks for the final state of a flow. *)
Ltac step_ex :=
  lazymatch goal with
  | |- exists q, ?m = _ /\ _ =>
      let x := scrut m in
      lazymatch x with
      | answer ?a ?b ?c => destruct x eqn:?; simpl
      | objGet ?a ?b => destruct x eqn:?; simpl
      | String.eqb ?a ?b => destruct x eqn:?; simpl
      end
  end.

Lemma PoolNamesOk_push_warm (s : Server) (lang : string) (i : nat)
    (pool : list string) :
  objGet (containerPool s) lang = Own pool ->
  PoolNamesOk s ->
  PoolNamesOk (setPool lang (pool ++ [warmName lang i])%list s).
Proof.
  intros Hown Hok. apply PoolNamesOk_setPool; [assumption|].
  intros c Hc. apply in_app_or in Hc. destruct Hc as [Hc|[<-|[]]].
  - exact (Hok lang pool c (objGet_Own_In _ _ _ Hown) Hc).
  - apply warmName_marked.
Qed.

Ltac quiet_leaf :=
  eexists; split; [reflexivity|];
  split; [steps_split; auto using PoolNamesOk_push_warm|split; reflexivity].

Lemma warmContainer_quiet (w : World) (config : LanguageConfig) (i : nat)
    (p : Proc) :
  exists p', warmContainer w config i p = (Ret tt, p') /\ Quiet p p'.
Proof.
  unfold warmContainer, pushPool. flow_unfold. simpl.
  repeat (step_ex; try quiet_leaf).
Qed.

Lemma initPool_quiet (w : World) (p : Proc) :
  exists p',
    initPool w p = (Ret tt, p') /\ Quiet p p' /\
    (poolReady (server p) = true -> p' = p).
Proof.
  unfold initPool. unfold bind at 1. unfold getServer.
  destruct (poolReady (server p)) eqn:Hready.
  - exists p. split; [reflexivity|]. split; [apply Quiet_refl|reflexivity].
  - destruct (poolInitializing (server p) && poolInitPromise (server p)).
    + exists p. split; [reflexivity|]. split; [apply Quiet_refl|discriminate].
    + flow_unfold. simpl.
      destruct (answer w (tick p) (Exec "docker version")); simpl.
      * match goal with
        | |- context [forEach ?l ?f ?q] =>
            destruct (forEach_quiet f l) with (p := q)
              as (p1 & Hrun & Hq1)
        end.
        { intros config q.
          apply forEach_quiet. intros i q'. apply warmContainer_quiet. }
        rewrite Hrun. eexists. split; [reflexivity|]. split; [|discriminate].
        refine (Quiet_trans _ _ _ _ (Quiet_trans _ _ _ Hq1 _));
          (split; [steps_split|split; reflexivity]).
      * eexists. split; [reflexivity|]. split; [|discriminate].
        split; [steps_split|split; reflexivity].
Qed.

(** ** The request handler *)

Lemma finallyBlock_spec (p : Proc) :
  exists p',
    finallyBlock p = (Ret tt, p') /\
    compilationCache (server p') = compilationCache (server p) /\
    containerPool (server p') = containerPool (server p) /\
    admission (server p') = fst (finish (admission (server p))) /\
    count isAcquired (trace p') = count isAcquired (trace p) /\
    count isReleased (trace p') = count isReleased (trace p) /\
    (forall f, count f (trace p) <= count f (trace p')) /\
    (forall ev, In ev (trace p) -> In ev (trace p')).
Proof.
  unfold finallyBlock. flow_unfold. simpl. unfold finish.
  destruct (requestQueue (admission (server p))) as [|next rest]; simpl.
  - eexists. split; [reflexivity|]. simpl. repeat split; auto.
  - eexists. split; [reflexivity|]. simpl. rewrite !count_snoc. simpl.
    repeat split; auto using in_snoc; try lia. count_le.
Qed.

(** The handler, case by case: the warm-up (if the pool is not ready)
    comes first and is quiet; then the validation decides whether the
    request is rejected, and the cache lookup and the admission decide how
    it is answered. *)
Lemma handler_spec (sha256hex : string -> string) (w : World)
    (req : Request) (p : Proc) :
  exists p0,
    Quiet p p0 /\ (poolReady (server p) = true -> p0 = p) /\
    match validationError req with
    | Some msg =>
        handler sha256hex w req p
        = (Ret (Responded (mkResponse 400 (errorBody (Some msg)))), tickProc p0)
    | None =>
        AnsweredFromJob w (requestJob sha256hex req) p0
          (handler sha256hex w req p)
    end.
Proof.
  destruct (initPool_quiet w p) as (p0 & Hinit & Hq & Hready).
  exists p0.
  assert (Hpre :
            (if poolReady (server p) then ret tt else initPool w) p
            = (Ret tt, p0)).
  { destruct (poolReady (server p)) eqn:E; [|exact Hinit].
    rewrite (Hready eq_refl). reflexivity. }
  split; [exact Hq|]. split; [exact Hready|].
  remember (handler sha256hex w req p) as r eqn:Hr.
  unfold handler in Hr. unfold bind at 1 in Hr. unfold getServer in Hr.
  unfold bind at 1 in Hr. rewrite Hpre in Hr.
  unfold bind at 1 in Hr. unfold dateNow in Hr. fold (tickProc p0) in Hr.
  unfold validationError.
  destruct (negb (truthy (reqLanguage req)) || negb (truthy (reqCode req)));
    [exact Hr|].
  assert (Hrest :
    r = (s <- getServer ;;
         match JsMap.get (jobCacheKey (requestJob sha256hex req))
                 (compilationCache s) with
         | Some cached => ret (Responded (mkResponse 200 (cachedBody cached)))
         | None =>
             tryCatch
               (r <- executeWithQueue w (requestJob sha256hex req) ;;
                match r with
                | Some result => ret (Responded (mkResponse 200 result))
                | None => ret (Pending (requestJob sha256hex req))
                end)
               (fun err =>
                  ret (Responded
                         (mkResponse 500 (errorBody (errMessage err)))))
         end) (tickProc p0) ->
    AnsweredFromJob w (requestJob sha256hex req) p0 r).
  { clear Hr. intros Hr. unfold AnsweredFromJob.
    unfold bind at 1 in Hr. unfold getServer in Hr.
    cbn [server tickProc] in Hr.
    destruct (JsMap.get _ (compilationCache (server p0))); [exact Hr|].
    unfold tryCatch, executeWithQueue in Hr.
    unfold bind at 1 in Hr. unfold bind at 1 in Hr. unfold getServer in Hr.
    cbn [server tickProc] in Hr.
    destruct (enter _ _ _) as [a started].
    unfold bind at 1 in Hr. unfold modifyServer in Hr.
    fold (withAdmission a (tickProc p0)) in Hr.
    destruct started; [|exact Hr].
    unfold tryFinally, bind, ret in Hr.
    destruct (compileJob w _ (withAdmission a (tickProc p0)))
      as [[body|e] pj].
    - destruct (finallyBlock_spec pj) as (p2 & Hfin & _). exists p2.
      cbv beta iota in Hr. rewrite Hfin in Hr. split; [exact Hfin|exact Hr].
    - destruct (finallyBlock_spec pj) as (p2 & Hfin & _). exists p2.
      cbv beta iota in Hr. rewrite Hfin in Hr. split; [exact Hfin|exact Hr]. }
  destruct (objGet LANGUAGES (fromSome (reqLanguage req)));
    [apply Hrest, Hr|apply Hrest, Hr|exact Hr].
Qed.

(** Every response of the handler has one of the four origins. *)
Lemma handler_origin (sha256hex : string -> string) (w : World)
    (req : Request) (p : Proc) (resp : Response) :
  fst (handler sha256hex w req p) = Ret (Responded resp) ->
  Origin sha256hex w req p resp.
Proof.
  intros Hresp.
  destruct (handler_spec sha256hex w req p) as (p0 & Hq & _ & Hcases).
  pose proof Hq as (_ & Hcache & _).
  destruct (validationError req) as [msg|] eqn:Hval.
  - rewrite Hcases in Hresp. injection Hresp as <-.
    now apply FromValidation with (msg := msg).
  - unfold AnsweredFromJob in Hcases. rewrite Hcache in Hcases.
    destruct (JsMap.get _ (compilationCache (server p))) as [cached|] eqn:Hget.
    + rewrite Hcases in Hresp. injection Hresp as <-.
      now apply FromCache with (cached := cached).
    + destruct (enter _ _ _) as [a started]. destruct started.
      2: { rewrite Hcases in Hresp. discriminate. }
      destruct Hcases as [p2 Hcases].
      destruct (compileJob w _ (withAdmission a (tickProc p0)))
        as [[body|e] pj] eqn:Hjob; destruct Hcases as [Hfin Hr];
        rewrite Hr in Hresp; injection Hresp as <-.
      * apply FromJob with (p0 := p0) (a := a) (body := body) (pj := pj)
                           (p2 := p2); auto.
        now rewrite Hr.
      * apply FromFailedJob with (p0 := p0) (a := a) (e := e) (pj := pj)
                                 (p2 := p2); auto.
        now rewrite Hr.
Qed.

(** ** Pool policy on release *)

(** C6. For a registered language whose free list is [pool]: releasing a
    warm container appends it to the free list exactly when the list is
    shorter than the language's pool size, and otherwise removes the
    container with docker and leaves the list alone; releasing an
    ephemeral container always removes it and never touches the list; and
    when the free list is empty, acquiring creates an ephemeral container
    (and fails only if docker fails to start it). *)
Theorem C6_release_policy :
  forall (w : World) (language : string) (config : LanguageConfig)
         (pool : list string) (p : Proc),
    objGet LANGUAGES language = Own config ->
    objGet (containerPool (server p)) language = Own pool ->
    (forall i,
        let c := warmName language i in
        let r := releaseContainer w language c p in
        fst r = Ret tt /\
        if (List.length pool <? poolSize config)%nat
        then server (snd r) = setPool language (pool ++ [c])%list (server p) /\
             trace (snd r) = (trace p ++ [Released language c])%list
        else server (snd r) = server p /\
             trace (snd r)
             = (trace p ++ [Released language c;
                            Called (dockerRm c)
                              (answer w (tick p) (dockerRm c))])%list) /\
    (forall now,
        let c := tempName language now in
        let r := releaseContainer w language c p in
        fst r = Ret tt /\
        server (snd r) = server p /\
        trace (snd r)
        = (trace p ++ [Released language c;
                       Called (dockerRm c)
                         (answer w (tick p) (dockerRm c))])%list) /\
    (pool = [] ->
     let c := tempName language (clock w (tick p)) in
     let r := getContainer w language p in
     match answer w (S (tick p)) (dockerRun c (dockerImage config)) with
     | Resolved _ =>
         fst r = Ret c /\ server (snd r) = server p /\
         In (Called (dockerRun c (dockerImage config))
               (answer w (S (tick p)) (dockerRun c (dockerImage config))))
            (trace (snd r))
     | Rejected e => fst r = Throw e /\ server (snd r) = server p
     end).
Proof.
  intros w language config pool p Hcfg Hown.
  pose proof (releasePoolSize_registered language config Hcfg) as Hsize.
  split; [|split].
  - intros i c r. subst r. unfold releaseContainer. flow_unfold. simpl.
    rewrite Hown, Hsize. subst c. rewrite warmName_marked, andb_true_r.
    destruct (List.length pool <? poolSize config)%nat; simpl.
    + repeat split.
    + destruct (answer w (tick p) (dockerRm (warmName language i))); simpl;
        rewrite <- app_assoc; repeat split.
  - intros now c r. subst r. unfold releaseContainer. flow_unfold. simpl.
    rewrite Hown. subst c.
    rewrite (tempName_unmarked language now (registered_in_list _ _ Hcfg)).
    rewrite andb_false_r. simpl.
    destruct (answer w (tick p) (dockerRm (tempName language now))); simpl;
      rewrite <- app_assoc; repeat split.
  - intros -> c r. subst r c. unfold getContainer. flow_unfold. simpl.
    rewrite Hown. simpl. rewrite Hcfg. simpl.
    destruct (answer w (S (tick p)) _) eqn:E; simpl.
    + repeat split. apply in_snoc, in_last.
    + repeat split.
Qed.

Lemma C6_release_policy_witness :
  fst (releaseContainer sampleWorld "go" (tempName "go" (sampleTime 0))
         (startProc initialServer)) = Ret tt /\
  server (snd (releaseContainer sampleWorld "go" (tempName "go" (sampleTime 0))
                 (startProc initialServer))) = initialServer.
Proof.
  destruct (C6_release_policy sampleWorld "go" goConfig []
              (startProc initialServer) eq_refl eq_refl)
    as (_ & Htemp & _).
  destruct (Htemp (sampleTime 0)) as (H1 & H2 & _).
  split; [exact H1|exact H2].
Defined.

(** ** Error clean-up *)

Lemma orElse_default_nonempty (a : option string) (c : ascii) (d : string) :
  fromSome (orElse a (Some (String c d))) <> "".
Proof.
  unfold orElse. destruct a as [[|x s]|]; simpl; discriminate.
Qed.

Lemma rawError_nonempty (error : JsError) : rawError error <> "".
Proof. unfold rawError. apply orElse_default_nonempty. Qed.

Lemma cleanError_nonempty (language : string) (error : JsError) :
  cleanError language error <> "".
Proof. unfold cleanError. apply orElse_default_nonempty. Qed.

Lemma cleanError_fallback (language : string) (error : JsError) :
  filterError language (rawError error) = "" ->
  cleanError language error = "Compilation failed".
Proof. unfold cleanError. intros ->. reflexivity. Qed.

Lemma cleanError_keeps (language : string) (error : JsError) :
  filterError language (rawError error) <> "" ->
  cleanError language error = filterError language (rawError error).
Proof.
  unfold cleanError. destruct (filterError language (rawError error));
    [congruence|reflexivity].
Qed.

(** C7. The text the job starts from is never empty; the message it
    throws is the filtered text, or the generic "Compilation failed" text
    when filtering left nothing, and is never empty; and every response of
    the handler other than a success carries a non-empty error string. *)
Theorem C7_error_never_empty :
  forall (sha256hex : string -> string) (w : World) (req : Request)
         (p : Proc) (resp : Response) (language : string) (error : JsError),
    fst (handler sha256hex w req p) = Ret (Responded resp) ->
    status resp <> 200 ->
    (exists msg, body resp = [("error", JStr msg)] /\ msg <> "") /\
    rawError error <> "" /\
    cleanError language error <> "" /\
    (filterError language (rawError error) = "" ->
     cleanError language error = "Compilation failed").
Proof.
  intros sha256hex w req p resp language error Hresp Hstatus.
  split; [|split; [apply rawError_nonempty|
                   split; [apply cleanError_nonempty|
                           apply cleanError_fallback]]].
  destruct (handler_origin sha256hex w req p resp Hresp)
    as [msg Hval ->|cached _ _ ->|p0 a body pj p2 _ _ _ _ _ _ ->
        |p0 a e pj p2 _ _ _ Hjob _ _ ->]; simpl in *.
  - exists msg. split; [reflexivity|].
    unfold validationError in Hval.
    destruct (_ || _); [injection Hval as <-; discriminate|].
    destruct (objGet LANGUAGES _); try discriminate.
    injection Hval as <-; discriminate.
  - now elim Hstatus.
  - now elim Hstatus.
  - pose proof (compileJob_spec w (requestJob sha256hex req)
                  (withAdmission a (tickProc p0))) as Hspec.
    rewrite Hjob in Hspec. destruct Hspec as (_ & _ & [raw ->] & _).
    eexists. split; [reflexivity|apply cleanError_nonempty].
Qed.

Lemma C7_error_never_empty_witness :
  cleanError "cpp" (mkError (Some "  ") (Some "Command failed")) <> "".
Proof.
  pose proof (C7_error_never_empty plainHash blankFailureWorld
                (mkRequest (Some "cpp") (Some "int main("))
                (startProc initialServer)
                (mkResponse 500 [("error", JStr "Compilation failed")])
                "cpp" (mkError (Some "  ") (Some "Command failed")))
    as H.
  assert (H1 : fst (handler plainHash blankFailureWorld
                      (mkRequest (Some "cpp") (Some "int main("))
                      (startProc initialServer))
               = Ret (Responded
                        (mkResponse 500
                           [("error", JStr "Compilation failed")])))
    by (vm_compute; reflexivity).
  assert (H2 : status (mkResponse 500 [("error", JStr "Compilation failed")])
               <> 200) by discriminate.
  specialize (H H1 H2). destruct H as (_ & _ & H & _). exact H.
Defined.

(** ** Validation *)

Lemma validation_rejects (req : Request) :
  truthy (reqLanguage req) = false \/ truthy (reqCode req) = false \/
  objGet LANGUAGES (fromSome (reqLanguage req)) = Undefined ->
  exists msg, validationError req = Some msg /\ msg <> "".
Proof.
  unfold validationError. intros H.
  destruct (negb (truthy (reqLanguage req)) || negb (truthy (reqCode req)))
    eqn:E.
  - eexists. split; [reflexivity|discriminate].
  - apply orb_false_elim in E. destruct E as [E1 E2].
    apply negb_false_iff in E1, E2.
    destruct H as [H|[H|H]]; try congruence.
    rewrite H. eexists. split; [reflexivity|discriminate].
Qed.

(** C9. A request whose source text is the empty string is answered with
    status 400 and the error "Missing language or code", exactly as a
    request with no source text at all, whatever its language and whatever
    the state of the server. *)
Theorem C9_empty_source_rejected :
  forall (sha256hex : string -> string) (w : World) (p : Proc)
         (language : option string),
    fst (handler sha256hex w (mkRequest language (Some "")) p)
    = Ret (Responded
             (mkResponse 400 [("error", JStr "Missing language or code")])) /\
    fst (handler sha256hex w (mkRequest language None) p)
    = fst (handler sha256hex w (mkRequest language (Some "")) p).
Proof.
  intros sha256hex w p language.
  assert (H : forall code, truthy code = false ->
            fst (handler sha256hex w (mkRequest language code) p)
            = Ret (Responded
                     (mkResponse 400
                        [("error", JStr "Missing language or code")]))).
  { intros code Hcode.
    destruct (handler_spec sha256hex w (mkRequest language code) p)
      as (p0 & _ & _ & Hcases).
    unfold validationError in Hcases. cbn [reqLanguage reqCode] in Hcases.
    rewrite Hcode, orb_true_r in Hcases. now rewrite Hcases. }
  split; [apply H; reflexivity|].
  rewrite (H None eq_refl), (H (Some "") eq_refl). reflexivity.
Qed.

(** C8, as the code has it.  A request that the validation rejects (the
    language or the source is missing or empty, or the language names no
    property of the registry object) is answered with status 400 and a
    validation message; the cache, the counter and the queue are unchanged
    and no container is acquired and no queued job started.  If the pool
    is ready nothing at all changes and no call leaves the process; if it
    is not, the handler has first awaited the warm-up. *)
Theorem C8_validation_frame :
  forall (sha256hex : string -> string) (w : World) (req : Request)
         (p : Proc),
    truthy (reqLanguage req) = false \/ truthy (reqCode req) = false \/
    objGet LANGUAGES (fromSome (reqLanguage req)) = Undefined ->
    let r := handler sha256hex w req p in
    (exists msg,
        fst r = Ret (Responded (mkResponse 400 [("error", JStr msg)])) /\
        msg <> "") /\
    compilationCache (server (snd r)) = compilationCache (server p) /\
    admission (server (snd r)) = admission (server p) /\
    count isAcquired (trace (snd r)) = count isAcquired (trace p) /\
    count isStarted (trace (snd r)) = count isStarted (trace p) /\
    (poolReady (server p) = true ->
     server (snd r) = server p /\ trace (snd r) = trace p).
Proof.
  intros sha256hex w req p Hbad r. subst r.
  destruct (validation_rejects req Hbad) as (msg & Hval & Hmsg).
  destruct (handler_spec sha256hex w req p) as (p0 & Hq & Hready & Hcases).
  rewrite Hval in Hcases. rewrite Hcases. simpl.
  destruct Hq as ((Hadm & Hacq & _ & Hst & _) & Hcache & _).
  split; [exists msg; split; [reflexivity|exact Hmsg]|].
  split; [exact Hcache|]. split; [exact Hadm|].
  split; [lia|]. split; [exact Hst|].
  intros Hr. rewrite (Hready Hr). split; reflexivity.
Qed.

Lemma C8_validation_frame_witness :
  compilationCache
    (server (snd (handler plainHash sampleWorld
                    (mkRequest (Some "python") (Some "print(1)"))
                    (startProc initialServer))))
  = compilationCache initialServer.
Proof.
  pose proof (C8_validation_frame plainHash sampleWorld
                (mkRequest (Some "python") (Some "print(1)"))
                (startProc initialServer))
    as H.
  assert (H1 : truthy (reqLanguage (mkRequest (Some "python") (Some "print(1)")))
               = false \/
               truthy (reqCode (mkRequest (Some "python") (Some "print(1)")))
               = false \/
               objGet LANGUAGES
                 (fromSome
                    (reqLanguage (mkRequest (Some "python") (Some "print(1)"))))
               = Undefined)
    by (right; right; reflexivity).
  specialize (H H1). destruct H as (_ & H & _). exact H.
Defined.

(** The free lists are not always left alone: with the pool not ready
    (docker was down when the server started), a request without a
    language makes the handler run the warm-up before it answers, and the
    free lists are populated. *)
Lemma C8_warm_up_counterexample :
  poolReady degradedServer = false /\
  fst (handler plainHash sampleWorld (mkRequest None (Some "int main() {}"))
         (startProc degradedServer))
  = Ret (Responded
           (mkResponse 400 [("error", JStr "Missing language or code")])) /\
  containerPool degradedServer = [("cpp", []); ("rust", []); ("go", [])] /\
  containerPool
    (server (snd (handler plainHash sampleWorld
                    (mkRequest None (Some "int main() {}"))
                    (startProc degradedServer))))
  = [("cpp", ["wasm-pool-cpp-0"; "wasm-pool-cpp-1"; "wasm-pool-cpp-2"]);
     ("rust", ["wasm-pool-rust-0"; "wasm-pool-rust-1"]);
     ("go", ["wasm-pool-go-0"; "wasm-pool-go-1"; "wasm-pool-go-2"])].
Proof. vm_compute. repeat split. Qed.

(** A language that names a member inherited from [Object.prototype]
    passes the validation although the registry has no such language: the
    job is admitted, fails on the missing file name, and the caller gets a
    status 500. *)
Lemma inherited_language_is_admitted :
  validationError (mkRequest (Some "constructor") (Some "x")) = None /\
  fst (handler plainHash sampleWorld
         (mkRequest (Some "constructor") (Some "x"))
         (startProc (serverAfter plainHash
                       [(sampleWorld, mkRequest None None)])))
  = Ret (Responded
           (mkResponse 500
              [("error",
                JStr ("The " ++ dq ++ "path" ++ dq
                      ++ " argument must be of type string. Received undefined"))])) /\
  trace (snd (handler plainHash sampleWorld
                (mkRequest (Some "constructor") (Some "x"))
                (startProc (serverAfter plainHash
                              [(sampleWorld, mkRequest None None)]))))
  = [Called (Mkdir "/tmp/wasm-compilers-express/job-1") (Resolved "");
     Called (Rm "/tmp/wasm-compilers-express/job-1") (Resolved "")].
Proof. vm_compute. repeat split. Qed.

(** ** Success responses *)

Lemma field_errorBody_success (msg : option string) :
  field "success" (errorBody msg) = None.
Proof. destruct msg; reflexivity. Qed.

Lemma cachedBody_fields (cached : CacheEntry) :
  field "success" (cachedBody cached) = Some (JBool true) /\
  field "wasm" (cachedBody cached) = Some (JStr (wasm cached)) /\
  field "cached" (cachedBody cached) = Some (JBool true) /\
  field "wasmExec" (cachedBody cached) = option_map JStr (wasmExec cached).
Proof. unfold cachedBody. destruct (wasmExec cached); repeat split. Qed.

Lemma successBody_fields (wasm64 shim : string) :
  field "success" (successBody wasm64 shim) = Some (JBool true) /\
  field "wasm" (successBody wasm64 shim) = Some (JStr wasm64) /\
  field "cached" (successBody wasm64 shim) = None /\
  field "wasmExec" (successBody wasm64 shim) = Some (JStr shim).
Proof. repeat split. Qed.

(** A success response need not carry a [cached] field: the response to
    a freshly compiled go program is a success and has none. *)
Lemma C2_fresh_response_counterexample :
  exists resp,
    fst (handler plainHash sampleWorld
           (mkRequest (Some "go") (Some "package main"))
           (startProc initialServer))
    = Ret (Responded resp) /\
    field "success" (body resp) = Some (JBool true) /\
    field "wasm" (body resp) = Some (JStr "TWFu") /\
    field "cached" (body resp) = None.
Proof. eexists. vm_compute. repeat split. Qed.

(** C2, as the code has it.  Every success response has status 200 and
    carries [success: true] and the base64 text of the artifact.  When the
    cache holds an entry for the request's key, the artifact is the
    entry's and the response carries [cached: true]; when it does not, the
    artifact is the base64 encoding of the bytes the job read from
    [output.wasm] and the response has no [cached] field. *)
Theorem C2_cached_flag :
  forall (sha256hex : string -> string) (w : World) (req : Request)
         (p : Proc) (resp : Response),
    fst (handler sha256hex w req p) = Ret (Responded resp) ->
    field "success" (body resp) = Some (JBool true) ->
    status resp = 200 /\
    match JsMap.get (jobCacheKey (requestJob sha256hex req))
            (compilationCache (server p)) with
    | Some cached =>
        field "wasm" (body resp) = Some (JStr (wasm cached)) /\
        field "cached" (body resp) = Some (JBool true)
    | None =>
        field "cached" (body resp) = None /\
        exists tmpDir bytes,
          field "wasm" (body resp) = Some (JStr (base64 bytes)) /\
          In (Called (ReadFile (pathJoin [tmpDir; "output.wasm"]))
                (Resolved bytes))
             (trace (snd (handler sha256hex w req p)))
    end.
Proof.
  intros sha256hex w req p resp Hresp Hsucc.
  destruct (handler_origin sha256hex w req p resp Hresp)
    as [msg Hval ->|cached _ Hget ->
        |p0 a result pj p2 _ Hget _ Hjob Hfin Hsnd ->
        |p0 a e pj p2 _ _ _ _ _ _ ->]; cbn [status body] in *.
  - rewrite field_errorBody_success in Hsucc. discriminate.
  - rewrite Hget. split; [reflexivity|]. split; apply cachedBody_fields.
  - rewrite Hget. split; [reflexivity|].
    pose proof (compileJob_spec w (requestJob sha256hex req)
                  (withAdmission a (tickProc p0))) as Hspec.
    rewrite Hjob in Hspec.
    destruct Hspec as (_ & (cfg & bytes & shim & now1 & now2 & Hret) & _).
    destruct Hret as (_ & -> & Hread & _).
    split; [reflexivity|].
    eexists _, bytes. split; [reflexivity|].
    rewrite Hsnd.
    destruct (finallyBlock_spec pj) as (p2' & Hfin' & _ & _ & _ & _ & _ & _ & Hin).
    rewrite Hfin in Hfin'. injection Hfin' as <-.
    apply Hin. exact Hread.
  - rewrite field_errorBody_success in Hsucc. discriminate.
Qed.

Lemma C2_cached_flag_witness :
  status (mkResponse 200
            [("success", JBool true); ("wasm", JStr "TWFu");
             ("wasmExec", JStr "// shim"); ("cached", JBool true)]) = 200.
Proof.
  pose proof (C2_cached_flag plainHash sampleWorld
                (mkRequest (Some "go") (Some "package main"))
                (startProc
                   (serverAfter plainHash
                      [(sampleWorld,
                        mkRequest (Some "go") (Some "package main"))]))
                (mkResponse 200
                   [("success", JBool true); ("wasm", JStr "TWFu");
                    ("wasmExec", JStr "// shim"); ("cached", JBool true)]))
    as H.
  assert (H1 : fst (handler plainHash sampleWorld
                      (mkRequest (Some "go") (Some "package main"))
                      (startProc
                         (serverAfter plainHash
                            [(sampleWorld,
                              mkRequest (Some "go") (Some "package main"))])))
               = Ret (Responded
                        (mkResponse 200
                           [("success", JBool true); ("wasm", JStr "TWFu");
                            ("wasmExec", JStr "// shim");
                            ("cached", JBool true)])))
    by (vm_compute; reflexivity).
  specialize (H H1 eq_refl). destruct H as [H _]. exact H.
Defined.

(** ** Invariants of the reachable server states *)


Lemma JsMap_set_In {V : Type} (k : string) (v : V) (m : JsMap.t V)
    (k' : string) (v' : V) :
  In (k', v') (JsMap.set k v m) -> (k' = k /\ v' = v) \/ In (k', v') m.
Proof.
  induction m as [|[k0 v0] m IH]; simpl.
  - intros [[= <- <-]|[]]. now left.
  - destruct (String.eqb_spec k k0) as [->|Hne]; simpl.
    + intros [[= <- <-]|H]; auto.
    + intros [H|H]; auto. destruct (IH H); auto.
Qed.

Lemma JsMap_delete_In {V : Type} (k : string) (m : JsMap.t V)
    (kv : string * V) :
  In kv (JsMap.delete k m) -> In kv m.
Proof.
  induction m as [|[k0 v0] m IH]; simpl; [tauto|].
  destruct (String.eqb k k0); simpl; [auto|].
  intros [H|H]; auto.
Qed.

Lemma purgeExpired_In (now : Z) (entries : list (string * CacheEntry))
    (kv : string * CacheEntry) :
  forall c, In kv (purgeExpired now entries c) -> In kv c.
Proof.
  unfold purgeExpired.
  induction entries as [|e entries IH]; intros c; simpl; [tauto|].
  destruct (_ >? _)%Z; intros H; apply IH in H; [|assumption].
  now apply JsMap_delete_In in H.
Qed.

Lemma deleteAll_In (toRemove : list (string * CacheEntry))
    (kv : string * CacheEntry) :
  forall c, In kv (deleteAll toRemove c) -> In kv c.
Proof.
  unfold deleteAll.
  induction toRemove as [|e toRemove IH]; intros c; simpl; [tauto|].
  intros H. apply IH in H. now apply JsMap_delete_In in H.
Qed.

(** [cleanCache] only deletes. *)
Lemma cleanCache_In (now : Z) (c : Cache) (kv : string * CacheEntry) :
  In kv (cleanCache now c) -> In kv c.
Proof.
  unfold cleanCache.
  destruct (_ <? _)%nat; intros H.
  - apply deleteAll_In in H. now apply purgeExpired_In in H.
  - now apply purgeExpired_In in H.
Qed.

Lemma cacheStore_shim_ok (sha256hex : string -> string) (now1 now2 : Z)
    (language code wasm64 shim : string) (c : Cache) :
  registered language ->
  (language <> "go" -> shim = "") ->
  CacheShimOk sha256hex c ->
  CacheShimOk sha256hex
    (cacheStore now1 now2 (getCacheKey sha256hex language code) wasm64 shim c).
Proof.
  intros Hreg Hshim Hc key e Hin. unfold cacheStore in Hin.
  apply JsMap_set_In in Hin. destruct Hin as [[-> ->]|Hin].
  - exists language, code, shim. repeat split; assumption.
  - apply cleanCache_In in Hin. exact (Hc key e Hin).
Qed.

Lemma CacheStep_shim_ok (sha256hex : string -> string) (req : Request)
    (c c' : Cache) :
  CacheStep (requestJob sha256hex req) c c' ->
  CacheShimOk sha256hex c -> CacheShimOk sha256hex c'.
Proof.
  intros [->|(cfg & wasm64 & shim & now1 & now2 & Hcfg & Hshim & ->)] Hc;
    [assumption|].
  apply cacheStore_shim_ok; [exists cfg; exact Hcfg|exact Hshim|exact Hc].
Qed.

Lemma JobReturned_CacheStep (j : Job) (tmpDir : string) (result : JsonObject)
    (p p' : Proc) :
  JobReturned j tmpDir result p p' ->
  CacheStep j (compilationCache (server p)) (compilationCache (server p')).
Proof.
  intros (cfg & bytes & shim & now1 & now2 & Hcfg & _ & _ & Hshim & Hc & _).
  right. exists cfg, (base64 bytes), shim, now1, now2.
  split; [exact Hcfg|]. split; [|exact Hc].
  intros Hgo. destruct (String.eqb_spec (jobLanguage j) "go"); [congruence|].
  exact Hshim.
Qed.

(** What one request does to the server: the pool's names stay well
    formed and the cache takes at most one step of the request's job. *)
Lemma handler_server_step (sha256hex : string -> string) (w : World)
    (req : Request) (p : Proc) :
  let s' := server (snd (handler sha256hex w req p)) in
  (PoolNamesOk (server p) -> PoolNamesOk s') /\
  CacheStep (requestJob sha256hex req) (compilationCache (server p))
    (compilationCache s').
Proof.
  cbv zeta.
  destruct (handler_spec sha256hex w req p) as (p0 & Hq & _ & Hcases).
  destruct Hq as ((_ & _ & _ & _ & _ & _ & Hpool) & Hcache & _).
  destruct (validationError req).
  { rewrite Hcases. simpl. split; [exact Hpool|left; exact Hcache]. }
  unfold AnsweredFromJob in Hcases.
  destruct (JsMap.get _ (compilationCache (server p0))).
  { rewrite Hcases. simpl. split; [exact Hpool|left; exact Hcache]. }
  destruct (enter _ _ _) as [a started]. destruct started.
  2: { rewrite Hcases. simpl. split; [|left; exact Hcache].
       intros Hok. apply (PoolNamesOk_same_pool (server p0)); auto. }
  destruct Hcases as [p2 Hcases].
  pose proof (compileJob_spec w (requestJob sha256hex req)
                (withAdmission a (tickProc p0))) as Hspec.
  destruct (compileJob w _ (withAdmission a (tickProc p0)))
    as [[result|e] pj]; destruct Hcases as [Hfin Hr]; rewrite Hr; simpl;
    destruct (finallyBlock_spec pj) as (p2' & Hfin' & Hc2 & Hp2 & _);
    rewrite Hfin in Hfin'; injection Hfin' as <-.
  - destruct Hspec as (Hsteps & Hret & _).
    split.
    + intros Hok. apply (PoolNamesOk_same_pool (server pj)); [exact Hp2|].
      apply Hsteps. apply (PoolNamesOk_same_pool (server p0)); auto.
    + rewrite Hc2. apply JobReturned_CacheStep in Hret.
      simpl in Hret. rewrite Hcache in Hret. exact Hret.
  - destruct Hspec as ((a0 & r0 & _ & _ & Hsteps & _) & _ & _ & Hstep).
    split.
    + intros Hok. apply (PoolNamesOk_same_pool (server pj)); [exact Hp2|].
      apply Hsteps. apply (PoolNamesOk_same_pool (server p0)); auto.
    + rewrite Hc2. simpl in Hstep. rewrite Hcache in Hstep. exact Hstep.
Qed.

Lemma initialServer_pool_ok : PoolNamesOk initialServer.
Proof.
  intros language pool c Hin Hc. simpl in Hin.
  destruct Hin as [[= <- <-]|[[= <- <-]|[[= <- <-]|[]]]]; destruct Hc.
Qed.

Lemma serverAfter_invariants (sha256hex : string -> string)
    (history : list (World * Request)) :
  PoolNamesOk (serverAfter sha256hex history) /\
  CacheShimOk sha256hex (compilationCache (serverAfter sha256hex history)).
Proof.
  unfold serverAfter.
  assert (H : forall s,
             PoolNamesOk s /\ CacheShimOk sha256hex (compilationCache s) ->
             PoolNamesOk (fold_left (serveOne sha256hex) history s) /\
             CacheShimOk sha256hex
               (compilationCache (fold_left (serveOne sha256hex) history s))).
  { induction history as [|[w req] history IH]; intros s [Hp Hc]; simpl;
      [split; assumption|].
    apply IH. unfold serveOne. cbn [fst snd].
    destruct (handler_server_step sha256hex w req (startProc s)) as [H1 H2].
    split; [exact (H1 Hp)|].
    exact (CacheStep_shim_ok sha256hex req _ _ H2 Hc). }
  apply H. split; [apply initialServer_pool_ok|].
  intros key e [].
Qed.

(** ** Clean-up and release *)



Lemma acquired_counted (c : string) (tr : list Event) :
  In (Acquired c) tr -> 1 <= count isAcquired tr.
Proof.
  unfold count. induction tr as [|e tr IH]; simpl; [tauto|].
  intros [->|Hin]; simpl; [lia|].
  specialize (IH Hin). destruct (isAcquired e); simpl; lia.
Qed.

Lemma acquired_unique (c c' : string) (tr : list Event) :
  count isAcquired tr <= 1 ->
  In (Acquired c) tr -> In (Acquired c') tr -> c = c'.
Proof.
  unfold count. induction tr as [|e tr IH]; simpl; [tauto|].
  intros Hle [->|Hin] [Heq|Hin']; simpl in Hle.
  - congruence.
  - pose proof (acquired_counted c' tr Hin') as H. unfold count in H. lia.
  - subst e. simpl in Hle.
    pose proof (acquired_counted c tr Hin) as H. unfold count in H. lia.
  - apply IH; auto. destruct (isAcquired e); simpl in Hle; lia.
Qed.


(** Two runs of the job from the initial server: the compiler rejects
    the source (the container is acquired, then released in the [catch]
    block), and the scratch directory cannot be created (no container is
    acquired and none released). *)
Lemma compileJob_failure_paths :
  (count isAcquired
     (trace (snd (compileJob blankFailureWorld (mkJob "cpp" "int main(" "k")
                    (startProc (serverAfter plainHash
                                  [(sampleWorld, mkRequest None None)])))))
   = 1 /\
   count isReleased
     (trace (snd (compileJob blankFailureWorld (mkJob "cpp" "int main(" "k")
                    (startProc (serverAfter plainHash
                                  [(sampleWorld, mkRequest None None)])))))
   = 1) /\
  trace (snd (compileJob noScratchWorld (mkJob "cpp" "int main() {}" "k")
                (startProc initialServer)))
  = [Called (Mkdir "/tmp/wasm-compilers-express/job-0")
       (Rejected (mkError None (Some "ENOSPC: no space left on device")));
     Called (Rm "/tmp/wasm-compilers-express/job-0") (Resolved "")].
Proof. vm_compute. repeat split. Qed.

(** ** The runtime shim *)






(** ** The cache as a map: keys stay distinct, the size stays bounded *)

Lemma delete_keys_in {V : Type} (k k' : string) (m : JsMap.t V) :
  In k' (JsMap.keys (JsMap.delete k m)) -> In k' (JsMap.keys m).
Proof.
  unfold JsMap.keys. induction m as [|[k0 v0] m IH]; simpl; [tauto|].
  destruct (String.eqb k k0); simpl; [auto|].
  intros [H|H]; auto.
Qed.

Lemma delete_NoDup {V : Type} (k : string) (m : JsMap.t V) :
  NoDup (JsMap.keys m) -> NoDup (JsMap.keys (JsMap.delete k m)).
Proof.
  unfold JsMap.keys. induction m as [|[k0 v0] m IH]; simpl; [auto|].
  intros Hnd. inversion Hnd as [|? ? Hnotin Hnd']; subst.
  destruct (String.eqb k k0); simpl; [assumption|].
  constructor; [|auto].
  intros Hin. apply Hnotin. exact (delete_keys_in k k0 m Hin).
Qed.

Lemma set_keys_in {V : Type} (k k' : string) (v : V) (m : JsMap.t V) :
  In k' (JsMap.keys (JsMap.set k v m)) -> k' = k \/ In k' (JsMap.keys m).
Proof.
  unfold JsMap.keys. induction m as [|[k0 v0] m IH]; simpl.
  - intros [H|[]]; auto.
  - destruct (String.eqb k k0); simpl.
    + intros [H|H]; auto.
    + intros [H|H]; auto. destruct (IH H); auto.
Qed.

Lemma set_NoDup {V : Type} (k : string) (v : V) (m : JsMap.t V) :
  NoDup (JsMap.keys m) -> NoDup (JsMap.keys (JsMap.set k v m)).
Proof.
  unfold JsMap.keys. induction m as [|[k0 v0] m IH]; simpl.
  - intros _. constructor; [tauto|constructor].
  - intros Hnd. inversion Hnd as [|? ? Hnotin Hnd']; subst.
    destruct (String.eqb_spec k k0) as [->|Hne]; simpl.
    + constructor; assumption.
    + constructor; [|auto].
      intros Hin. destruct (set_keys_in k k0 v m Hin); [congruence|auto].
Qed.

Lemma purgeExpired_NoDup (now : Z) (entries : list (string * CacheEntry)) :
  forall c, NoDup (JsMap.keys c) ->
            NoDup (JsMap.keys (purgeExpired now entries c)).
Proof.
  unfold purgeExpired.
  induction entries as [|e entries IH]; intros c Hc; simpl; [assumption|].
  destruct (_ >? _)%Z; apply IH; [apply delete_NoDup|]; assumption.
Qed.

Lemma deleteAll_NoDup (toRemove : list (string * CacheEntry)) :
  forall c, NoDup (JsMap.keys c) -> NoDup (JsMap.keys (deleteAll toRemove c)).
Proof.
  unfold deleteAll.
  induction toRemove as [|e toRemove IH]; intros c Hc; simpl; [assumption|].
  apply IH, delete_NoDup, Hc.
Qed.

Lemma cacheStore_NoDup (now1 now2 : Z) (key w shim : string) (c : Cache) :
  NoDup (JsMap.keys c) ->
  NoDup (JsMap.keys (cacheStore now1 now2 key w shim c)).
Proof.
  intros Hc. unfold cacheStore, cleanCache. apply set_NoDup.
  destruct (_ <? _)%nat.
  - apply deleteAll_NoDup, purgeExpired_NoDup, Hc.
  - apply purgeExpired_NoDup, Hc.
Qed.

(** X8.  In every state the server reaches by handling requests, one
    after the other, the cache has pairwise distinct keys and at most
    [MAX_CACHE_SIZE + 1] entries. *)
Lemma serverAfter_cache_bound (sha256hex : string -> string)
    (history : list (World * Request)) :
  NoDup (JsMap.keys (compilationCache (serverAfter sha256hex history))) /\
  JsMap.size (compilationCache (serverAfter sha256hex history))
  <= S MAX_CACHE_SIZE.
Proof.
  unfold serverAfter.
  assert (H : forall s,
             NoDup (JsMap.keys (compilationCache s)) /\
             JsMap.size (compilationCache s) <= S MAX_CACHE_SIZE ->
             NoDup (JsMap.keys
                      (compilationCache
                         (fold_left (serveOne sha256hex) history s))) /\
             JsMap.size
               (compilationCache (fold_left (serveOne sha256hex) history s))
             <= S MAX_CACHE_SIZE).
  { induction history as [|[w req] history IH]; intros s [Hnd Hsize]; simpl;
      [split; assumption|].
    apply IH. unfold serveOne. cbn [fst snd].
    destruct (handler_server_step sha256hex w req (startProc s)) as [_ Hstep].
    cbn [server startProc] in Hstep.
    destruct Hstep as [->|(cfg & w64 & shim & now1 & now2 & _ & _ & ->)].
    - split; assumption.
    - split; [apply cacheStore_NoDup, Hnd|apply cacheStore_size_bound, Hsize]. }
  apply H. split; [constructor|]. simpl. unfold MAX_CACHE_SIZE. lia.
Qed.

(** * Further properties *)

(** ** Admission queue: no slot idles while a job waits *)

(** X1.  In every state the admission queue can reach, under any order of
    arrivals and completions, a job waits only while the limit is reached:
    the queue is empty or exactly [limit] jobs are running.  A job that
    arrives while fewer than [limit] jobs run starts at once; otherwise it
    goes to the back of the queue and nothing else changes. *)
Theorem X1_no_idle_slot_while_waiting :
  forall (limit : nat) (events : list SchedEvent),
    let s := schedRun limit events in
    let s' := schedStep limit s Arrive in
    (waiting s = [] \/ List.length (running s) = limit) /\
    if (List.length (running s) <? limit)%nat
    then running s' = (running s ++ [arrivals s])%list /\
         waiting s' = [] /\
         startLog s' = (startLog s ++ [arrivals s])%list
    else running s' = running s /\
         waiting s' = (waiting s ++ [arrivals s])%list /\
         startLog s' = startLog s.
Proof.
  intros limit events s s'.
  pose proof (schedRun_inv limit events) as Hinv. fold s in Hinv.
  destruct Hinv as (Hact & Hle & Hfull & _).
  assert (Hidle : waiting s = [] \/ List.length (running s) = limit).
  { destruct (waiting s) eqn:E; [now left|right].
    apply Hfull. discriminate. }
  split; [exact Hidle|].
  unfold s', schedStep, enter, waiting. rewrite Hact.
  destruct (Nat.ltb_spec (List.length (running s)) limit) as [Hlt|Hge];
    cbn [adm running startLog requestQueue].
  - destruct Hidle as [Hempty|Hfullnow]; [|lia].
    unfold waiting in Hempty. now rewrite Hempty.
  - auto.
Qed.

(** ** The handler always answers *)




(** ** Result cache: lookups *)

Lemma JsMap_get_set_same {V : Type} (k : string) (v : V) (m : JsMap.t V) :
  JsMap.get k (JsMap.set k v m) = Some v.
Proof.
  induction m as [|[k' v'] m IH]; simpl.
  - now rewrite String.eqb_refl.
  - destruct (String.eqb k k') eqn:E; simpl; rewrite E; auto.
Qed.

(** What the handler does on a request that passes the validation and
    whose key is in the cache. *)
Lemma handler_hit (sha256hex : string -> string) (w : World) (req : Request)
    (p : Proc) (cached : CacheEntry) :
  validationError req = None ->
  JsMap.get (jobCacheKey (requestJob sha256hex req))
    (compilationCache (server p)) = Some cached ->
  exists p0,
    Quiet p p0 /\ (poolReady (server p) = true -> p0 = p) /\
    handler sha256hex w req p
    = (Ret (Responded (mkResponse 200 (cachedBody cached))), tickProc p0).
Proof.
  intros Hval Hget.
  destruct (handler_spec sha256hex w req p) as (p0 & Hq & Hready & Hcases).
  exists p0. split; [exact Hq|]. split; [exact Hready|].
  rewrite Hval in Hcases. unfold AnsweredFromJob in Hcases.
  destruct Hq as (_ & Hcache & _). rewrite Hcache, Hget in Hcases.
  exact Hcases.
Qed.

(** X4.  A request that passes the validation and whose key is in the
    cache is answered from the entry with status 200, whatever the age of
    the entry and whatever the clock says: the lookup does not read the
    timestamp.  The hit takes no slot, acquires no container and leaves
    the cache as it is (the entry's timestamp is not refreshed); when the
    pool is ready it changes nothing in the server and makes no external
    call. *)
Theorem X4_cache_hit_ignores_age :
  forall (sha256hex : string -> string) (w : World) (req : Request)
         (p : Proc) (cached : CacheEntry),
    validationError req = None ->
    JsMap.get (getCacheKey sha256hex (fromSome (reqLanguage req))
                 (fromSome (reqCode req)))
      (compilationCache (server p)) = Some cached ->
    let r := handler sha256hex w req p in
    fst r = Ret (Responded (mkResponse 200 (cachedBody cached))) /\
    compilationCache (server (snd r)) = compilationCache (server p) /\
    admission (server (snd r)) = admission (server p) /\
    count isAcquired (trace (snd r)) = count isAcquired (trace p) /\
    (poolReady (server p) = true ->
     server (snd r) = server p /\ trace (snd r) = trace p).
Proof.
  intros sha256hex w req p cached Hval Hget r. subst r.
  destruct (handler_hit sha256hex w req p cached Hval Hget)
    as (p0 & Hq & Hready & ->).
  destruct Hq as ((Hadm & Hacq & _) & Hcache & _). simpl.
  repeat split; try assumption; try lia.
  - now rewrite (Hready H).
  - now rewrite (Hready H).
Qed.

(** X5.  Store, then look up.  After a request was answered with status
    200, the same request is answered from the cache, in any world and
    from any state that holds the same cache: the second response carries
    [cached: true] and the same [wasm] and [wasmExec] as the first. *)
Theorem X5_success_is_cached :
  forall (sha256hex : string -> string) (w w' : World) (req : Request)
         (p q : Proc) (resp : Response),
    fst (handler sha256hex w req p) = Ret (Responded resp) ->
    status resp = 200 ->
    compilationCache (server q)
    = compilationCache (server (snd (handler sha256hex w req p))) ->
    exists resp',
      fst (handler sha256hex w' req q) = Ret (Responded resp') /\
      status resp' = 200 /\
      field "cached" (body resp') = Some (JBool true) /\
      field "success" (body resp') = Some (JBool true) /\
      field "wasm" (body resp') = field "wasm" (body resp) /\
      field "wasmExec" (body resp') = field "wasmExec" (body resp).
Proof.
  intros sha256hex w w' req p q resp Hresp Hstatus Hq.
  assert (Hhit : forall cached,
             validationError req = None ->
             JsMap.get (jobCacheKey (requestJob sha256hex req))
               (compilationCache (server q)) = Some cached ->
             field "wasm" (cachedBody cached) = field "wasm" (body resp) ->
             field "wasmExec" (cachedBody cached)
             = field "wasmExec" (body resp) ->
             exists resp',
               fst (handler sha256hex w' req q) = Ret (Responded resp') /\
               status resp' = 200 /\
               field "cached" (body resp') = Some (JBool true) /\
               field "success" (body resp') = Some (JBool true) /\
               field "wasm" (body resp') = field "wasm" (body resp) /\
               field "wasmExec" (body resp') = field "wasmExec" (body resp)).
  { intros cached Hval Hget Hw He.
    destruct (handler_hit sha256hex w' req q cached Hval Hget)
      as (q0 & _ & _ & ->).
    eexists. split; [reflexivity|]. simpl.
    destruct (cachedBody_fields cached) as (Hs & _ & Hc & _).
    repeat split; assumption. }
  destruct (handler_origin sha256hex w req p resp Hresp)
    as [msg _ ->|cached Hval Hget ->|p0 a result pj p2 Hval _ _ Hjob Hfin Hp2 ->
        |p0 a e pj p2 _ _ _ _ _ _ ->]; simpl in Hstatus; try discriminate.
  - apply (Hhit cached Hval); [|reflexivity|reflexivity].
    rewrite Hq.
    destruct (handler_hit sha256hex w req p cached Hval Hget)
      as (p0 & (_ & Hc & _) & _ & ->).
    simpl. rewrite Hc. exact Hget.
  - pose proof (compileJob_spec w (requestJob sha256hex req)
                  (withAdmission a (tickProc p0))) as Hspec.
    rewrite Hjob in Hspec. destruct Hspec as (_ & Hret & _).
    destruct Hret as (cfg & bytes & shim & now1 & now2 & _ & -> & _ & _
                      & Hstore & _).
    destruct (finallyBlock_spec pj) as (p2' & Hfin' & Hc2 & _).
    rewrite Hfin in Hfin'. injection Hfin' as <-.
    apply (Hhit (mkEntry (base64 bytes) (Some shim) now2) Hval);
      [|reflexivity|reflexivity].
    rewrite Hq, Hp2, Hc2, Hstore. unfold cacheStore.
    apply JsMap_get_set_same.
Qed.

Lemma X4_cache_hit_ignores_age_witness :
  fst (handler plainHash dockerDownWorld
         (mkRequest (Some "go") (Some "package main"))
         (startProc
            (serverAfter plainHash
               [(sampleWorld, mkRequest (Some "go") (Some "package main"))])))
  = Ret (Responded
           (mkResponse 200
              (cachedBody (mkEntry "TWFu" (Some "// shim") 1700000000029)))).
Proof.
  pose proof (X4_cache_hit_ignores_age plainHash dockerDownWorld
                (mkRequest (Some "go") (Some "package main"))
                (startProc
                   (serverAfter plainHash
                      [(sampleWorld,
                        mkRequest (Some "go") (Some "package main"))]))
                (mkEntry "TWFu" (Some "// shim") 1700000000029)) as H.
  assert (H1 : validationError (mkRequest (Some "go") (Some "package main"))
               = None) by reflexivity.
  assert (H2 : JsMap.get
                 (getCacheKey plainHash
                    (fromSome (reqLanguage
                                 (mkRequest (Some "go") (Some "package main"))))
                    (fromSome (reqCode
                                 (mkRequest (Some "go") (Some "package main")))))
                 (compilationCache
                    (server
                       (startProc
                          (serverAfter plainHash
                             [(sampleWorld,
                               mkRequest (Some "go") (Some "package main"))]))))
               = Some (mkEntry "TWFu" (Some "// shim") 1700000000029))
    by (vm_compute; reflexivity).
  specialize (H H1 H2). destruct H as (H & _). exact H.
Defined.

Lemma X5_success_is_cached_witness :
  exists resp',
    fst (handler plainHash dockerDownWorld
           (mkRequest (Some "go") (Some "package main"))
           (startProc
              (serverAfter plainHash
                 [(sampleWorld, mkRequest (Some "go") (Some "package main"))])))
    = Ret (Responded resp') /\
    field "cached" (body resp') = Some (JBool true).
Proof.
  pose proof (X5_success_is_cached plainHash sampleWorld dockerDownWorld
                (mkRequest (Some "go") (Some "package main"))
                (startProc initialServer)
                (startProc
                   (serverAfter plainHash
                      [(sampleWorld,
                        mkRequest (Some "go") (Some "package main"))]))
                (mkResponse 200 (successBody "TWFu" "// shim"))) as H.
  assert (H1 : fst (handler plainHash sampleWorld
                      (mkRequest (Some "go") (Some "package main"))
                      (startProc initialServer))
               = Ret (Responded (mkResponse 200 (successBody "TWFu" "// shim"))))
    by (vm_compute; reflexivity).
  assert (H2 : status (mkResponse 200 (successBody "TWFu" "// shim")) = 200)
    by reflexivity.
  assert (H3 : compilationCache
                 (server
                    (startProc
                       (serverAfter plainHash
                          [(sampleWorld,
                            mkRequest (Some "go") (Some "package main"))])))
               = compilationCache
                   (server (snd (handler plainHash sampleWorld
                                   (mkRequest (Some "go") (Some "package main"))
                                   (startProc initialServer)))))
    by (vm_compute; reflexivity).
  specialize (H H1 H2 H3). destruct H as (resp' & Ha & _ & Hb & _).
  exists resp'. split; [exact Ha|exact Hb].
Defined.

(** ** Result cache: what [cleanCache] keeps *)

Lemma filter_all_true {A : Type} (f : A -> bool) (l : list A) :
  (forall x, In x l -> f x = true) -> filter f l = l.
Proof.
  induction l as [|x l IH]; simpl; intros H; [reflexivity|].
  rewrite (H x (or_introl eq_refl)). f_equal. apply IH. auto.
Qed.

Lemma filter_all_false {A : Type} (f : A -> bool) (l : list A) :
  (forall x, In x l -> f x = false) -> filter f l = [].
Proof.
  induction l as [|x l IH]; simpl; intros H; [reflexivity|].
  rewrite (H x (or_introl eq_refl)). apply IH. auto.
Qed.

Lemma filter_twice {A : Type} (f g : A -> bool) (l : list A) :
  filter f (filter g l) = filter (fun x => g x && f x) l.
Proof.
  induction l as [|x l IH]; simpl; [reflexivity|].
  destruct (g x); simpl; [destruct (f x)|]; now rewrite IH.
Qed.

Lemma filter_keys_NoDup {V : Type} (f : string * V -> bool) (m : JsMap.t V) :
  NoDup (JsMap.keys m) -> NoDup (JsMap.keys (filter f m)).
Proof.
  unfold JsMap.keys. induction m as [|x m IH]; simpl; [auto|].
  intros Hnd. inversion Hnd as [|? ? Hnotin Hnd']; subst.
  destruct (f x); simpl; [|auto].
  constructor; [|auto].
  intros Hin. apply Hnotin. apply in_map_iff in Hin.
  destruct Hin as (y & Hy & Hin). apply filter_In in Hin.
  apply in_map_iff. exists y. tauto.
Qed.

(** On a map, an entry is determined by its key. *)
Lemma keys_determine {V : Type} (m : JsMap.t V) (a b : string * V) :
  NoDup (JsMap.keys m) -> In a m -> In b m -> fst a = fst b -> a = b.
Proof.
  unfold JsMap.keys. induction m as [|x m IH]; simpl; [tauto|].
  intros Hnd. inversion Hnd as [|? ? Hnotin Hnd']; subst.
  intros [->|Ha] [->|Hb] Heq; auto.
  - exfalso. apply Hnotin. rewrite Heq. now apply in_map.
  - exfalso. apply Hnotin. rewrite <- Heq. now apply in_map.
Qed.

(** [delete] on a map removes the entry of that key and nothing else. *)
Lemma delete_as_filter {V : Type} (k : string) (m : JsMap.t V) :
  NoDup (JsMap.keys m) ->
  JsMap.delete k m = filter (fun kv => negb (String.eqb k (fst kv))) m.
Proof.
  unfold JsMap.keys. induction m as [|[k' v'] m IH]; simpl; [reflexivity|].
  intros Hnd. inversion Hnd as [|? ? Hnotin Hnd']; subst.
  destruct (String.eqb_spec k k') as [->|Hne]; simpl.
  - symmetry. apply filter_all_true. intros [k0 v0] Hin. simpl.
    destruct (String.eqb_spec k' k0) as [->|_]; [|reflexivity].
    exfalso. apply Hnotin. apply in_map_iff. now exists (k0, v0).
  - f_equal. now apply IH.
Qed.

(** A loop that deletes the keys of the entries that satisfy [P]. *)
Lemma delete_loop_as_filter (P : string * CacheEntry -> bool)
    (es : list (string * CacheEntry)) :
  forall c : Cache,
    NoDup (JsMap.keys c) ->
    fold_left (fun c kv => if P kv then JsMap.delete (fst kv) c else c) es c
    = filter
        (fun kv => negb (existsb (fun e => P e && String.eqb (fst e) (fst kv)) es))
        c.
Proof.
  induction es as [|e es IH]; intros c Hnd; simpl.
  - symmetry. now apply filter_all_true.
  - destruct (P e) eqn:HP; simpl.
    + rewrite IH by now apply delete_NoDup.
      rewrite delete_as_filter by assumption. rewrite filter_twice.
      apply filter_ext. intros kv. now rewrite negb_orb.
    + now apply IH.
Qed.

Lemma existsb_own_key (P : string * CacheEntry -> bool) (c : Cache)
    (kv : string * CacheEntry) :
  NoDup (JsMap.keys c) -> In kv c ->
  existsb (fun e => P e && String.eqb (fst e) (fst kv)) c = P kv.
Proof.
  intros Hnd Hin. destruct (P kv) eqn:HP.
  - apply existsb_exists. exists kv. rewrite HP, String.eqb_refl. auto.
  - apply not_true_is_false. intros H. apply existsb_exists in H.
    destruct H as (e & He & H). apply andb_prop in H. destruct H as [HPe Heq].
    apply String.eqb_eq in Heq.
    rewrite (keys_determine c e kv Hnd He Hin Heq) in HPe. congruence.
Qed.

(** The first loop of [cleanCache] keeps exactly the fresh entries, in
    their order. *)
Lemma purgeExpired_as_filter (now : Z) (c : Cache) :
  NoDup (JsMap.keys c) ->
  purgeExpired now (JsMap.entries c) c = filter (isFresh now) c.
Proof.
  intros Hnd. unfold purgeExpired, JsMap.entries.
  rewrite (delete_loop_as_filter
             (fun kv => (now - timestamp (snd kv) >? CACHE_TTL)%Z) c c Hnd).
  apply filter_ext_in. intros kv Hin.
  rewrite (existsb_own_key _ c kv Hnd Hin). reflexivity.
Qed.

Lemma deleteAll_as_filter (toRemove : list (string * CacheEntry)) (c : Cache) :
  NoDup (JsMap.keys c) ->
  deleteAll toRemove c
  = filter
      (fun kv => negb (existsb (fun e => String.eqb (fst e) (fst kv)) toRemove))
      c.
Proof.
  intros Hnd.
  exact (delete_loop_as_filter (fun _ => true) toRemove c Hnd).
Qed.

(** X6.  After [cleanCache] no entry of the cache is older than the TTL,
    and every entry left was in the cache before, unchanged.  When at
    most [MAX_CACHE_SIZE] entries are within the TTL, what is left is
    exactly those entries, in their insertion order; in particular a
    cache of at most [MAX_CACHE_SIZE] entries, none of them expired, is
    left as it is. *)
Theorem X6_cleanCache_purges_expired :
  forall (now : Z) (c : Cache),
    NoDup (JsMap.keys c) ->
    (forall kv, In kv (cleanCache now c) ->
                In kv c /\ (now - timestamp (snd kv) <= CACHE_TTL)%Z) /\
    (List.length (filter (isFresh now) c) <= MAX_CACHE_SIZE ->
     cleanCache now c = filter (isFresh now) c) /\
    (JsMap.size c <= MAX_CACHE_SIZE ->
     (forall kv, In kv c -> (now - timestamp (snd kv) <= CACHE_TTL)%Z) ->
     cleanCache now c = c).
Proof.
  intros now c Hnd.
  assert (Hsmall : List.length (filter (isFresh now) c) <= MAX_CACHE_SIZE ->
                   cleanCache now c = filter (isFresh now) c).
  { intros Hlen. unfold cleanCache. cbv zeta.
    rewrite (purgeExpired_as_filter now c Hnd). unfold JsMap.size.
    destruct (Nat.ltb_spec MAX_CACHE_SIZE
                (List.length (filter (isFresh now) c))); [lia|reflexivity]. }
  split; [|split; [exact Hsmall|]].
  - intros kv Hin. split; [exact (cleanCache_In now c kv Hin)|].
    assert (Hfresh : In kv (filter (isFresh now) c)).
    { unfold cleanCache in Hin. cbv zeta in Hin.
      rewrite (purgeExpired_as_filter now c Hnd) in Hin.
      destruct (_ <? _)%nat; [|exact Hin].
      exact (deleteAll_In _ kv _ Hin). }
    apply filter_In in Hfresh. destruct Hfresh as [_ Hf].
    unfold isFresh in Hf. apply negb_true_iff in Hf.
    destruct (Z.gtb_spec (now - timestamp (snd kv)) CACHE_TTL); [discriminate|lia].
  - intros Hsize Hall.
    assert (Hid : filter (isFresh now) c = c).
    { apply filter_all_true. intros kv Hin. unfold isFresh.
      apply negb_true_iff.
      destruct (Z.gtb_spec (now - timestamp (snd kv)) CACHE_TTL);
        [specialize (Hall kv Hin); lia|reflexivity]. }
    rewrite Hsmall; rewrite Hid; [reflexivity|exact Hsize].
Qed.

(** ** Result cache: which entries are evicted *)

Lemma insertByTimestamp_perm (x : string * CacheEntry)
    (l : list (string * CacheEntry)) :
  Permutation (insertByTimestamp x l) (x :: l).
Proof.
  induction l as [|y l IH]; simpl; [reflexivity|].
  destruct (_ <=? _)%Z; [reflexivity|].
  rewrite IH. apply perm_swap.
Qed.

Lemma sortByTimestamp_perm (l : list (string * CacheEntry)) :
  Permutation (sortByTimestamp l) l.
Proof.
  induction l as [|x l IH]; simpl; [reflexivity|].
  rewrite insertByTimestamp_perm. now constructor.
Qed.

Lemma insertByTimestamp_sorted (x : string * CacheEntry)
    (l : list (string * CacheEntry)) :
  StronglySorted (fun a b => (timestamp (snd a) <= timestamp (snd b))%Z) l ->
  StronglySorted (fun a b => (timestamp (snd a) <= timestamp (snd b))%Z)
    (insertByTimestamp x l).
Proof.
  induction l as [|y l IH]; simpl; intros Hs.
  - constructor; constructor.
  - inversion Hs as [|? ? Hs' Hall]; subst.
    destruct (Z.leb_spec (timestamp (snd x)) (timestamp (snd y))) as [Hle|Hgt].
    + constructor; [assumption|]. constructor; [assumption|].
      eapply Forall_impl; [|exact Hall]. simpl. intros a Ha. lia.
    + constructor; [now apply IH|].
      apply Forall_forall. intros a Ha.
      apply (Permutation_in _ (insertByTimestamp_perm x l)) in Ha.
      destruct Ha as [<-|Ha]; [lia|].
      rewrite Forall_forall in Hall. now apply Hall.
Qed.

Lemma sortByTimestamp_sorted (l : list (string * CacheEntry)) :
  StronglySorted (fun a b => (timestamp (snd a) <= timestamp (snd b))%Z)
    (sortByTimestamp l).
Proof.
  induction l as [|x l IH]; simpl; [constructor|].
  now apply insertByTimestamp_sorted.
Qed.

Lemma sorted_app_le {A : Type} (R : A -> A -> Prop) (l1 l2 : list A) :
  StronglySorted R (l1 ++ l2)%list ->
  forall x y, In x l1 -> In y l2 -> R x y.
Proof.
  induction l1 as [|a l1 IH]; simpl; intros Hs x y Hx Hy; [tauto|].
  inversion Hs as [|? ? Hs' Hall]; subst.
  destruct Hx as [<-|Hx]; [|exact (IH Hs' x y Hx Hy)].
  rewrite Forall_forall in Hall. apply Hall, in_or_app. now right.
Qed.

Lemma NoDup_app_disjoint {A : Type} (l1 l2 : list A) :
  NoDup (l1 ++ l2)%list -> forall a, In a l1 -> In a l2 -> False.
Proof.
  induction l1 as [|x l1 IH]; simpl; intros Hnd a H1 H2; [tauto|].
  inversion Hnd as [|? ? Hnotin Hnd']; subst.
  destruct H1 as [->|H1]; [|exact (IH Hnd' a H1 H2)].
  apply Hnotin, in_or_app. now right.
Qed.

Lemma filter_perm_length {A : Type} (f : A -> bool) (l l' : list A) :
  Permutation l l' -> List.length (filter f l) = List.length (filter f l').
Proof.
  induction 1 as [|x l l' _ IH|x y l|l l' l'' _ IH1 _ IH2]; simpl.
  - reflexivity.
  - destruct (f x); simpl; now rewrite IH.
  - destruct (f x), (f y); reflexivity.
  - now rewrite IH1.
Qed.

(** X7.  Capacity eviction on a cache that holds more than
    [MAX_CACHE_SIZE] entries, none of them expired: [cleanCache] leaves
    exactly [MAX_CACHE_SIZE] entries, and the entries it removes are the
    oldest ones: no removed entry has a later timestamp than an entry
    that is kept. *)
Theorem X7_eviction_oldest_first :
  forall (now : Z) (c : Cache),
    NoDup (JsMap.keys c) ->
    (forall kv, In kv c -> (now - timestamp (snd kv) <= CACHE_TTL)%Z) ->
    MAX_CACHE_SIZE < JsMap.size c ->
    JsMap.size (cleanCache now c) = MAX_CACHE_SIZE /\
    forall old kept,
      In old c -> ~ In old (cleanCache now c) -> In kept (cleanCache now c) ->
      (timestamp (snd old) <= timestamp (snd kept))%Z.
Proof.
  intros now c Hnd Hall Hbig.
  assert (Hid : filter (isFresh now) c = c).
  { apply filter_all_true. intros kv Hin. unfold isFresh.
    apply negb_true_iff.
    destruct (Z.gtb_spec (now - timestamp (snd kv)) CACHE_TTL);
      [specialize (Hall kv Hin); lia|reflexivity]. }
  unfold cleanCache. cbv zeta.
  rewrite (purgeExpired_as_filter now c Hnd), Hid.
  unfold JsMap.size in *. unfold JsMap.entries.
  apply Nat.ltb_lt in Hbig. rewrite Hbig. apply Nat.ltb_lt in Hbig.
  set (k := List.length c - MAX_CACHE_SIZE).
  set (sorted := sortByTimestamp c).
  rewrite (deleteAll_as_filter (firstn k sorted) c Hnd).
  pose proof (sortByTimestamp_perm c) as Hperm. fold sorted in Hperm.
  pose proof (sortByTimestamp_sorted c) as Hsorted. fold sorted in Hsorted.
  rewrite <- (firstn_skipn k sorted) in Hsorted.
  assert (Hnds : NoDup (JsMap.keys sorted)).
  { unfold JsMap.keys.
    apply (Permutation_NoDup (l := map fst c)); [|exact Hnd].
    symmetry. now apply Permutation_map. }
  assert (Hmem : forall kv, In kv sorted ->
                  existsb (fun e => String.eqb (fst e) (fst kv)) (firstn k sorted)
                  = true <-> In kv (firstn k sorted)).
  { intros kv Hin. rewrite existsb_exists. split.
    - intros (e & He & Heq). apply String.eqb_eq in Heq.
      assert (Hes : In e sorted)
        by (rewrite <- (firstn_skipn k sorted); apply in_or_app; now left).
      now rewrite <- (keys_determine sorted e kv Hnds Hes Hin Heq).
    - intros Hk. exists kv. split; [assumption|apply String.eqb_refl]. }
  split.
  - rewrite (filter_perm_length _ c sorted (Permutation_sym Hperm)).
    assert (Hsplit : sorted = (firstn k sorted ++ skipn k sorted)%list)
      by (symmetry; apply firstn_skipn).
    remember (firstn k sorted) as evicted eqn:Ev in |- *.
    rewrite Hsplit, <- Ev. subst evicted.
    rewrite filter_app, length_app.
    rewrite filter_all_false, filter_all_true.
    + simpl. rewrite length_skipn.
      rewrite (Permutation_length Hperm). unfold k. lia.
    + intros kv Hin. apply negb_true_iff. apply not_true_is_false.
      intros Hex.
      assert (Hs : In kv sorted)
        by (rewrite <- (firstn_skipn k sorted); apply in_or_app; now right).
      apply (Hmem kv Hs) in Hex.
      assert (Hdis : NoDup (firstn k sorted ++ skipn k sorted)%list).
      { rewrite firstn_skipn. exact (NoDup_map_inv _ _ Hnds). }
      exact (NoDup_app_disjoint _ _ Hdis kv Hex Hin).
    + intros kv Hin. apply negb_false_iff.
      apply Hmem; [|assumption].
      rewrite <- (firstn_skipn k sorted). apply in_or_app. now left.
  - intros old kept Hold Hgone Hkept.
    apply filter_In in Hkept. destruct Hkept as [Hkc Hkf].
    assert (Hos : In old sorted) by exact (Permutation_in _ (Permutation_sym Hperm) Hold).
    assert (Hks : In kept sorted) by exact (Permutation_in _ (Permutation_sym Hperm) Hkc).
    assert (Ho1 : In old (firstn k sorted)).
    { apply (Hmem old Hos).
      destruct (existsb (fun e => String.eqb (fst e) (fst old))
                  (firstn k sorted)) eqn:E; [reflexivity|].
      exfalso. apply Hgone. apply filter_In. split; [assumption|].
      now rewrite E. }
    assert (Hk2 : In kept (skipn k sorted)).
    { rewrite <- (firstn_skipn k sorted) in Hks.
      apply in_app_or in Hks. destruct Hks as [Hk1|Hk2]; [|assumption].
      apply (Hmem kept) in Hk1.
      - rewrite Hk1 in Hkf. discriminate.
      - exact (Permutation_in _ (Permutation_sym Hperm) Hkc). }
    exact (sorted_app_le _ _ _ Hsorted old kept Ho1 Hk2).
Qed.

Lemma fillCache_NoDup (n : nat) : NoDup (JsMap.keys (fillCache n)).
Proof.
  induction n as [|n IH]; simpl; [constructor|].
  now apply cacheStore_NoDup.
Qed.

Lemma isFresh_le (now : Z) (kv : string * CacheEntry) :
  isFresh now kv = true -> (now - timestamp (snd kv) <= CACHE_TTL)%Z.
Proof.
  unfold isFresh. intros H. apply negb_true_iff in H.
  destruct (Z.gtb_spec (now - timestamp (snd kv)) CACHE_TTL);
    [discriminate|lia].
Qed.

Lemma X6_cleanCache_purges_expired_witness :
  cleanCache (sampleTime 5) (fillCache 3) = fillCache 3.
Proof.
  pose proof (X6_cleanCache_purges_expired (sampleTime 5) (fillCache 3)
                (fillCache_NoDup 3)) as H.
  destruct H as (_ & _ & H). apply H.
  - vm_compute. lia.
  - intros kv Hin. apply isFresh_le.
    assert (Hall : forallb (isFresh (sampleTime 5)) (fillCache 3) = true)
      by (vm_compute; reflexivity).
    rewrite forallb_forall in Hall. exact (Hall kv Hin).
Defined.

Lemma X7_eviction_oldest_first_witness :
  JsMap.size (cleanCache (sampleTime 101) (fillCache 101)) = MAX_CACHE_SIZE.
Proof.
  pose proof (X7_eviction_oldest_first (sampleTime 101) (fillCache 101)
                (fillCache_NoDup 101)) as H.
  assert (H1 : forall kv, In kv (fillCache 101) ->
                 (sampleTime 101 - timestamp (snd kv) <= CACHE_TTL)%Z).
  { intros kv Hin. apply isFresh_le.
    assert (Hall : forallb (isFresh (sampleTime 101)) (fillCache 101) = true)
      by (vm_compute; reflexivity).
    rewrite forallb_forall in Hall. exact (Hall kv Hin). }
  assert (H2 : MAX_CACHE_SIZE < JsMap.size (fillCache 101))
    by (vm_compute; lia).
  specialize (H H1 H2). destruct H as (H & _). exact H.
Defined.

(** ** Cache keys *)

Lemma includes_cons (sub : string) (a : ascii) (s : string) :
  includes sub (String a s) = startsWith sub (String a s) || includes sub s.
Proof. reflexivity. Qed.






(** ** Container names *)

Lemma showNat_inj (n m : nat) : showNat n = showNat m -> n = m.
Proof.
  assert (H : forall k, exists d,
               showNat k = NilEmpty.string_of_uint d /\ Nat.of_uint d = k).
  { intros k. unfold showNat.
    pose proof (Unsigned.of_to k) as Hk.
    destruct (Nat.to_uint k) eqn:E;
      try (eexists; split; [reflexivity|exact Hk]).
    exists (D0 Nil). split; [reflexivity|]. simpl in Hk. now rewrite <- Hk. }
  destruct (H n) as (dn & -> & <-). destruct (H m) as (dm & -> & <-).
  intros Heq.
  assert (Hd : Some dn = Some dm)
    by (rewrite <- (NilEmpty.usu dn), <- (NilEmpty.usu dm); now rewrite Heq).
  now injection Hd as ->.
Qed.

Lemma append_cancel_l (s a b : string) : (s ++ a) = (s ++ b) -> a = b.
Proof.
  induction s as [|c s IH]; intros H; [exact H|].
  change (String c (s ++ a) = String c (s ++ b)) in H.
  injection H as H. auto.
Qed.

Lemma warmName_inj (lang : string) (i j : nat) :
  warmName lang i = warmName lang j -> i = j.
Proof.
  unfold warmName. intros H.
  do 3 apply append_cancel_l in H. now apply showNat_inj.
Qed.

(** ** Objects keyed by string, continued *)

Lemma ownSet_keys {A : Type} (k : string) (a a0 : A) (o : list (string * A)) :
  ownGet k o = Some a0 -> map fst (ownSet k a o) = map fst o.
Proof.
  unfold ownSet. induction o as [|[k0 b] o IH]; simpl; [discriminate|].
  destruct (String.eqb k k0); simpl; [reflexivity|].
  intros H. f_equal. auto.
Qed.

Lemma ownSet_same {A : Type} (k : string) (a : A) (o : list (string * A)) :
  ownGet k o = Some a -> ownSet k a o = o.
Proof.
  unfold ownSet. induction o as [|[k0 b] o IH]; simpl; [discriminate|].
  destruct (String.eqb k k0); simpl.
  - now intros [= ->].
  - intros H. f_equal. auto.
Qed.

Lemma ownSet_twice {A : Type} (k : string) (a b : A) (o : list (string * A)) :
  ownSet k b (ownSet k a o) = ownSet k b o.
Proof.
  unfold ownSet. induction o as [|[k0 c] o IH]; simpl.
  - now rewrite String.eqb_refl.
  - destruct (String.eqb k k0) eqn:E; simpl; rewrite E; [reflexivity|].
    f_equal. exact IH.
Qed.

Lemma ownGet_ownSet_same {A : Type} (k : string) (a : A)
    (o : list (string * A)) :
  ownGet k (ownSet k a o) = Some a.
Proof.
  unfold ownSet. induction o as [|[k0 c] o IH]; simpl.
  - now rewrite String.eqb_refl.
  - destruct (String.eqb k k0) eqn:E; simpl; rewrite E; auto.
Qed.

Lemma ownGet_ownSet_other {A : Type} (k k' : string) (a : A)
    (o : list (string * A)) :
  k' <> k -> ownGet k' (ownSet k a o) = ownGet k' o.
Proof.
  intros Hne. unfold ownSet. induction o as [|[k0 c] o IH]; simpl.
  - destruct (String.eqb_spec k' k); [congruence|reflexivity].
  - destruct (String.eqb_spec k k0) as [->|Hk]; simpl.
    + destruct (String.eqb_spec k' k0); [congruence|reflexivity].
    + destruct (String.eqb k' k0); [reflexivity|exact IH].
Qed.

Lemma objGet_Own_ownGet {A : Type} (k : string) (o : list (string * A)) (a : A) :
  objGet o k = Own a <-> ownGet k o = Some a.
Proof.
  unfold objGet. destruct (ownGet k o).
  - split; intros [= ->]; reflexivity.
  - destruct (inStrings k objectPrototypeKeys); split; discriminate.
Qed.

Lemma ownGet_of_In {A : Type} (k : string) (a : A) (o : list (string * A)) :
  NoDup (map fst o) -> In (k, a) o -> ownGet k o = Some a.
Proof.
  induction o as [|[k0 b] o IH]; simpl; [tauto|].
  intros Hnd. inversion Hnd as [|? ? Hnotin Hnd']; subst.
  intros [[= -> ->]|Hin].
  - now rewrite String.eqb_refl.
  - destruct (String.eqb_spec k k0) as [->|_]; [|auto].
    exfalso. apply Hnotin. apply in_map_iff. now exists (k0, a).
Qed.

(** ** Container pool: what acquiring and releasing do to the free lists *)

Lemma PoolFrame_refl (s : Server) : PoolFrame s s.
Proof. split; reflexivity. Qed.

Lemma PoolFrame_trans (s1 s2 s3 : Server) :
  PoolFrame s1 s2 -> PoolFrame s2 s3 -> PoolFrame s1 s3.
Proof. intros [H1 H2] [K1 K2]. split; congruence. Qed.

Lemma getContainer_pool (w : World) (language : string) (p : Proc) :
  match getContainer w language p with
  | (Ret c, p') =>
      poolReady (server p') = poolReady (server p) /\
      ((exists rest,
           objGet (containerPool (server p)) language = Own (c :: rest) /\
           containerPool (server p')
           = ownSet language rest (containerPool (server p))) \/
       (objGet (containerPool (server p)) language = Own [] /\
        containerPool (server p') = containerPool (server p) /\
        c = tempName language (clock w (tick p)) /\
        registered language))
  | (Throw e, p') =>
      PoolFrame (server p) (server p') /\ containerName p' = containerName p
  end.
Proof.
  unfold getContainer. flow_unfold. simpl.
  destruct (objGet (containerPool (server p)) language) as [[|c pool]| |] eqn:Hown;
    simpl.
  - destruct (objGet LANGUAGES language) as [config| |] eqn:Hcfg; simpl;
      [|repeat split..].
    destruct (answer w (S (tick p)) _); simpl; [|repeat split].
    split; [reflexivity|]. right. repeat split. now exists config.
  - split; [reflexivity|]. left. exists pool. split; reflexivity.
  - repeat split.
  - repeat split.
Qed.

Lemma releaseContainer_pool (w : World) (language c : string) (p : Proc)
    (pool : list string) :
  objGet (containerPool (server p)) language = Own pool ->
  let p' := snd (releaseContainer w language c p) in
  poolReady (server p') = poolReady (server p) /\
  containerPool (server p')
  = if (List.length pool <? releasePoolSize language)%nat
       && includes "pool" c
    then ownSet language (pool ++ [c])%list (containerPool (server p))
    else containerPool (server p).
Proof.
  intros Hown. unfold releaseContainer. flow_unfold. simpl. rewrite Hown.
  destruct (_ && _); simpl; [split; reflexivity|].
  destruct (answer w (tick p) (dockerRm c)); simpl; split; reflexivity.
Qed.

Ltac frame_leaf := left; split; [reflexivity|split; reflexivity].

Ltac follows_leaf := split; [split; reflexivity|simpl; in_mono].

Ltac held_leaf Hq1 Hget :=
  right; eexists; eexists;
  split; [exact Hq1|split; [exact Hget|follows_leaf]].

(** The course of the [try] block as far as the pool goes: if it returns,
    it acquired a container and released it, and did nothing else to the
    pool; if it throws, either it holds no container and the pool is as
    before, or it holds the container it acquired. *)
Lemma jobTry_pool (w : World) (j : Job) (tmpDir : string) (p : Proc) :
  match jobTry w j tmpDir p with
  | (Ret body, p') =>
      exists q1 c q2 q3 p4,
        PoolFrame (server p) (server q1) /\
        getContainer w (jobLanguage j) q1 = (Ret c, q2) /\
        Follows q2 q3 /\
        releaseContainer w (jobLanguage j) c q3 = (Ret tt, p4) /\
        Follows p4 p'
  | (Throw e, p') =>
      (containerName p' = containerName p /\
       PoolFrame (server p) (server p')) \/
      (exists q1 q2,
          PoolFrame (server p) (server q1) /\
          getContainer w (jobLanguage j) q1 = (Ret (containerName p'), q2) /\
          Follows q2 p')
  end.
Proof.
  unfold jobTry. flow_unfold. simpl.
  step1; [|frame_leaf].
  step1; [|frame_leaf..].
  step1; [|frame_leaf].
  match goal with
  | |- context [getContainer w ?l ?q] =>
      remember q as q1 eqn:Eq1;
      assert (Hq1 : PoolFrame (server p) (server q1))
        by (subst q1; split; reflexivity);
      assert (Hn1 : containerName q1 = containerName p)
        by (subst q1; reflexivity);
      clear Eq1;
      pose proof (getContainer_spec w l q1) as Hspec;
      pose proof (getContainer_pool w l q1) as Hpool;
      destruct (getContainer w l q1) as [[c|e] p2] eqn:Hget
  end; simpl in Hspec, Hpool |- *.
  2: { left. destruct Hpool as [Hf Hn]. split; [congruence|].
       exact (PoolFrame_trans _ _ _ Hq1 Hf). }
  destruct Hspec as (_ & _ & _ & [pool Hown] & _).
  clear Hpool Hn1.
  step1.
  all: step1; [|held_leaf Hq1 Hget].
  all: step1; [|held_leaf Hq1 Hget].
  all: step1; [|held_leaf Hq1 Hget].
  all: step1.
  all: repeat (step1; [|held_leaf Hq1 Hget]).
  all: match goal with
       | |- context [releaseContainer ?w0 ?l ?n ?q] =>
           destruct (releaseContainer_spec w0 l n q pool Hown)
             as (p4 & Hrel & _);
           rewrite Hrel; simpl;
           refine (ex_intro _ q1 (ex_intro _ c (ex_intro _ p2
                    (ex_intro _ q (ex_intro _ p4
                       (conj Hq1 (conj Hget (conj _ (conj Hrel _)))))))));
           follows_leaf
       end.
Qed.

Lemma jobCatch_pool (w : World) (language tmpDir : string) (error : JsError)
    (p : Proc) :
  let p' := snd (jobCatch w language tmpDir error p) in
  match containerName p with
  | EmptyString => PoolFrame (server p) (server p')
  | c =>
      forall pool,
        objGet (containerPool (server p)) language = Own pool ->
        exists p1,
          releaseContainer w language c p = (Ret tt, p1) /\
          Follows p1 p'
  end.
Proof.
  unfold jobCatch. flow_unfold. simpl.
  destruct (containerName p) as [|a c] eqn:Ec; simpl.
  - destruct (answer w (tick p) (Rm tmpDir)); simpl; split; reflexivity.
  - intros pool Hown.
    destruct (releaseContainer_spec w language (String a c) p pool Hown)
      as (p1 & Hrel & _).
    exists p1. split; [exact Hrel|]. rewrite Hrel.
    destruct (answer w (tick p1) (Rm tmpDir)); simpl; follows_leaf.
Qed.

(** ** Container pool: the invariant *)

Lemma languages_keys_NoDup : NoDup (map fst LANGUAGES).
Proof.
  simpl. repeat constructor; simpl; intuition discriminate.
Qed.

Lemma PoolWellFormed_NoDup (s : Server) :
  PoolWellFormed s -> NoDup (map fst (containerPool s)).
Proof. intros [[Hkeys _] _]. rewrite Hkeys. apply languages_keys_NoDup. Qed.

Lemma PoolWellFormed_frame (s s' : Server) :
  PoolFrame s s' -> PoolWellFormed s -> PoolWellFormed s'.
Proof.
  intros [Hp Hr] [[H1 H2] H3]. unfold PoolWellFormed, PoolShape.
  rewrite Hp, Hr. auto.
Qed.

Lemma freeList_frame (s s' : Server) (language : string) :
  PoolFrame s s' -> freeList s' language = freeList s language.
Proof. intros [Hp _]. unfold freeList. now rewrite Hp. Qed.

Lemma freeList_Own (s : Server) (language : string) (pool : list string) :
  objGet (containerPool s) language = Own pool -> freeList s language = pool.
Proof.
  intros H. apply objGet_Own_ownGet in H. unfold freeList. now rewrite H.
Qed.

(** A free list never holds more containers than the pool size of its
    language. *)
Lemma PoolWellFormed_length (s : Server) (language : string)
    (pool : list string) :
  PoolWellFormed s -> In (language, pool) (containerPool s) ->
  List.length pool <= releasePoolSize language.
Proof.
  intros [[_ Hmem] _] Hin. destruct (Hmem language pool Hin) as [Hnd Hwarm].
  assert (H : List.length pool
              <= List.length (map (warmName language)
                                (seq 0 (releasePoolSize language)))).
  { apply NoDup_incl_length; [exact Hnd|].
    intros c Hc. destruct (Hwarm c Hc) as (i & Hi & ->).
    apply in_map, in_seq. lia. }
  now rewrite length_map, length_seq in H.
Qed.

(** Replacing the free list of [language] by a list with the same
    members keeps the invariant. *)
Lemma PoolWellFormed_replace (s s' : Server) (language : string)
    (pool pool' : list string) :
  PoolWellFormed s ->
  objGet (containerPool s) language = Own pool ->
  containerPool s' = ownSet language pool' (containerPool s) ->
  poolReady s' = poolReady s ->
  NoDup pool' -> incl pool' pool -> (poolReady s = false -> pool' = []) ->
  PoolWellFormed s'.
Proof.
  intros Hwf Hown Hp Hr Hnd Hincl Hempty.
  pose proof (PoolWellFormed_NoDup s Hwf) as Hkeys.
  destruct Hwf as [[H1 H2] H3].
  pose proof (proj1 (objGet_Own_ownGet _ _ _) Hown) as Hget.
  assert (Hkeys' : map fst (containerPool s') = map fst LANGUAGES)
    by (rewrite Hp, (ownSet_keys language pool' pool _ Hget); exact H1).
  assert (Hcases : forall l pl,
             In (l, pl) (containerPool s') ->
             (l = language /\ pl = pool') \/ In (l, pl) (containerPool s)).
  { intros l pl Hin.
    assert (Hnd' : NoDup (map fst (containerPool s')))
      by (rewrite Hkeys'; apply languages_keys_NoDup).
    pose proof (ownGet_of_In l pl _ Hnd' Hin) as Hg. rewrite Hp in Hg.
    destruct (String.eqb_spec l language) as [->|Hne].
    - rewrite ownGet_ownSet_same in Hg. injection Hg as <-. now left.
    - rewrite (ownGet_ownSet_other language l pool' _ Hne) in Hg.
      right. now apply ownGet_In. }
  split; [split; [exact Hkeys'|]|].
  - intros l pl Hin. destruct (Hcases l pl Hin) as [[-> ->]|Hold]; [|auto].
    split; [exact Hnd|]. intros c Hc.
    exact (proj2 (H2 language pool (ownGet_In _ _ _ Hget)) c (Hincl c Hc)).
  - rewrite Hr. intros Hnr l pl Hin.
    destruct (Hcases l pl Hin) as [[-> ->]|Hold]; [auto|].
    exact (H3 Hnr l pl Hold).
Qed.

Lemma freeList_replace (s s' : Server) (language : string)
    (pool pool' : list string) (l : string) :
  objGet (containerPool s) language = Own pool ->
  containerPool s' = ownSet language pool' (containerPool s) ->
  Permutation pool pool' ->
  Permutation (freeList s l) (freeList s' l).
Proof.
  intros Hown Hp Hperm. unfold freeList. rewrite Hp.
  apply objGet_Own_ownGet in Hown.
  destruct (String.eqb_spec l language) as [->|Hne].
  - now rewrite ownGet_ownSet_same, Hown.
  - now rewrite (ownGet_ownSet_other language l pool' _ Hne).
Qed.

(** Acquiring a container and releasing it afterwards moves a warm
    container from the head of its free list to the end, or creates and
    removes an ephemeral one; either way the free lists keep their
    members. *)
Lemma acquire_then_release (w : World) (language c : string)
    (q1 q2 q3 p4 : Proc) :
  PoolWellFormed (server q1) ->
  getContainer w language q1 = (Ret c, q2) ->
  PoolFrame (server q2) (server q3) ->
  releaseContainer w language c q3 = (Ret tt, p4) ->
  PoolWellFormed (server p4) /\
  poolReady (server p4) = poolReady (server q1) /\
  forall l, Permutation (freeList (server q1) l) (freeList (server p4) l).
Proof.
  intros Hwf Hget [Hf3 Hr3] Hrel.
  pose proof (getContainer_pool w language q1) as Hpool.
  rewrite Hget in Hpool. destruct Hpool as [Hr2 Hpool].
  destruct Hpool as [(rest & Hown & Hp2)|(Hown & Hp2 & -> & [cfg Hcfg])].
  - assert (Hown3 : objGet (containerPool (server q3)) language = Own rest)
      by (rewrite Hf3, Hp2; exact (objGet_ownSet _ _ _ _ Hown)).
    pose proof (releaseContainer_pool w language c q3 rest Hown3) as Hrp.
    rewrite Hrel in Hrp. simpl in Hrp. destruct Hrp as [Hr4 Hp4].
    pose proof (objGet_Own_In _ _ _ Hown) as Hin.
    pose proof (PoolWellFormed_length _ _ _ Hwf Hin) as Hlen.
    simpl in Hlen.
    destruct Hwf as [[Hkeys Hmem] Hempty].
    destruct (Hmem _ _ Hin) as [Hnd Hwarm].
    destruct (Hwarm c (or_introl eq_refl)) as (i & _ & Hc).
    assert (Hpush : (List.length rest <? releasePoolSize language)%nat
                    && includes "pool" c = true).
    { apply andb_true_intro. split; [apply Nat.ltb_lt; lia|].
      rewrite Hc. apply warmName_marked. }
    rewrite Hpush, Hf3, Hp2, ownSet_twice in Hp4.
    assert (Hperm : Permutation (c :: rest) (rest ++ [c])%list)
      by apply Permutation_cons_append.
    split; [|split; [congruence|]].
    + apply (PoolWellFormed_replace (server q1) (server p4) language
               (c :: rest) (rest ++ [c])%list); auto.
      * split; [split|]; assumption.
      * congruence.
      * exact (Permutation_NoDup Hperm Hnd).
      * intros x Hx. exact (Permutation_in _ (Permutation_sym Hperm) Hx).
      * intros Hnr. discriminate (Hempty Hnr _ _ Hin).
    + intros l.
      exact (freeList_replace _ _ language _ _ l Hown Hp4 Hperm).
  - assert (Hown3 : objGet (containerPool (server q3)) language = Own [])
      by (rewrite Hf3, Hp2; exact Hown).
    pose proof (releaseContainer_pool w language
                  (tempName language (clock w (tick q1))) q3 [] Hown3) as Hrp.
    rewrite Hrel in Hrp. simpl in Hrp. destruct Hrp as [Hr4 Hp4].
    rewrite (tempName_unmarked language _ (registered_in_list _ _ Hcfg)) in Hp4.
    rewrite andb_false_r in Hp4.
    assert (Hframe : PoolFrame (server q1) (server p4))
      by (split; congruence).
    split; [exact (PoolWellFormed_frame _ _ Hframe Hwf)|].
    split; [apply Hframe|].
    intros l. now rewrite (freeList_frame _ _ l Hframe).
Qed.

(** A container that [getContainer] hands out has a name. *)
Lemma acquired_name (w : World) (language c : string) (q1 q2 : Proc) :
  PoolWellFormed (server q1) ->
  getContainer w language q1 = (Ret c, q2) -> c <> "".
Proof.
  intros Hwf Hget.
  pose proof (getContainer_pool w language q1) as Hpool.
  rewrite Hget in Hpool. destruct Hpool as [_ Hpool].
  destruct Hpool as [(rest & Hown & _)|(_ & _ & -> & _)].
  - destruct Hwf as [[_ Hmem] _].
    destruct (Hmem _ _ (objGet_Own_In _ _ _ Hown)) as [_ Hwarm].
    destruct (Hwarm c (or_introl eq_refl)) as (i & _ & ->).
    apply (includes_nonempty "pool"); [discriminate|apply warmName_marked].
  - apply tempName_nonempty.
Qed.

(** The whole job keeps the pool well formed and keeps the members of
    every free list, whether it returns or throws. *)
Lemma compileJob_keeps_pool (w : World) (j : Job) (p : Proc) :
  PoolWellFormed (server p) ->
  let p' := snd (compileJob w j p) in
  PoolWellFormed (server p') /\
  poolReady (server p') = poolReady (server p) /\
  forall l, Permutation (freeList (server p) l) (freeList (server p') l).
Proof.
  intros Hwf. cbv zeta.
  set (p0 := mkProc (server p) (S (tick p)) (trace p) "").
  change (compileJob w j p)
    with (tryCatch
            (jobTry w j
               (pathJoin [tmpdir w; "wasm-compilers-express"; uuid w (tick p)]))
            (jobCatch w (jobLanguage j)
               (pathJoin [tmpdir w; "wasm-compilers-express"; uuid w (tick p)]))
            p0).
  generalize (pathJoin [tmpdir w; "wasm-compilers-express"; uuid w (tick p)]).
  intros tmpDir. unfold tryCatch.
  assert (Hfinish : forall q,
             PoolFrame (server p) (server q) ->
             PoolWellFormed (server q) /\
             poolReady (server q) = poolReady (server p) /\
             forall l, Permutation (freeList (server p) l) (freeList (server q) l)).
  { intros q Hf. split; [exact (PoolWellFormed_frame _ _ Hf Hwf)|].
    split; [apply Hf|]. intros l. now rewrite (freeList_frame _ _ l Hf). }
  assert (Hcycle : forall q1 c q2 q3 p4 q,
             PoolFrame (server p) (server q1) ->
             getContainer w (jobLanguage j) q1 = (Ret c, q2) ->
             PoolFrame (server q2) (server q3) ->
             releaseContainer w (jobLanguage j) c q3 = (Ret tt, p4) ->
             PoolFrame (server p4) (server q) ->
             PoolWellFormed (server q) /\
             poolReady (server q) = poolReady (server p) /\
             forall l, Permutation (freeList (server p) l) (freeList (server q) l)).
  { intros q1 c q2 q3 p4 q H1 Hget H3 Hrel H4.
    destruct (acquire_then_release w (jobLanguage j) c q1 q2 q3 p4
                (PoolWellFormed_frame _ _ H1 Hwf) Hget H3 Hrel)
      as (Hwf4 & Hr4 & Hperm).
    split; [exact (PoolWellFormed_frame _ _ H4 Hwf4)|].
    split; [destruct H1, H4; congruence|].
    intros l. rewrite (freeList_frame _ _ l H4).
    rewrite <- (freeList_frame _ _ l H1). apply Hperm. }
  pose proof (jobTry_pool w j tmpDir p0) as Htry.
  destruct (jobTry w j tmpDir p0) as [[result|e] p1]; cbn [snd].
  - destruct Htry as (q1 & c & q2 & q3 & p4 & H1 & Hget & H3 & Hrel & H4).
    exact (Hcycle q1 c q2 q3 p4 p1 H1 Hget (proj1 H3) Hrel (proj1 H4)).
  - pose proof (jobCatch_pool w (jobLanguage j) tmpDir e p1) as Hcatch.
    cbv zeta in Hcatch.
    destruct Htry as [[Hn Hf]|(q1 & q2 & H1 & Hget & H2)].
    + simpl in Hn. rewrite Hn in Hcatch.
      apply Hfinish. exact (PoolFrame_trans _ _ _ Hf Hcatch).
    + pose proof (acquired_name w _ _ q1 q2
                    (PoolWellFormed_frame _ _ H1 Hwf) Hget) as Hne.
      pose proof (getContainer_spec w (jobLanguage j) q1) as Hspec.
      rewrite Hget in Hspec.
      destruct Hspec as (_ & _ & _ & [pool Hown] & _).
      assert (Hown1 : objGet (containerPool (server p1)) (jobLanguage j)
                      = Own pool)
        by (destruct H2 as [[-> _] _]; exact Hown).
      destruct (containerName p1) as [|a c] eqn:Ec; [congruence|].
      destruct (Hcatch pool Hown1) as (p1' & Hrel & H4).
      exact (Hcycle q1 (String a c) q2 p1 p1' _ H1 Hget (proj1 H2) Hrel
               (proj1 H4)).
Qed.

(** ** Container pool: the warm-up *)


(** One warm-up chain returns; it appends the warm name to the free list
    of the language or leaves the pool as it is, and it appends when
    every call to the outside resolves. *)
Lemma warmContainer_pool (w : World) (config : LanguageConfig) (i : nat)
    (p : Proc) (pool : list string) :
  ownGet (id config) (containerPool (server p)) = Some pool ->
  exists p' (pushed : bool),
    warmContainer w config i p = (Ret tt, p') /\
    poolReady (server p') = poolReady (server p) /\
    containerPool (server p')
    = ownSet (id config)
        (pool ++ (if pushed then [warmName (id config) i] else []))%list
        (containerPool (server p)) /\
    ((forall n c, exists out, answer w n c = Resolved out) -> pushed = true).
Proof.
  intros Hget.
  assert (Hown : objGet (containerPool (server p)) (id config) = Own pool)
    by now apply objGet_Own_ownGet.
  assert (Hsame : containerPool (server p)
                  = ownSet (id config) (pool ++ [])%list
                      (containerPool (server p)))
    by (rewrite app_nil_r; symmetry; now apply ownSet_same).
  unfold warmContainer, pushPool. flow_unfold. simpl.
  rewrite ?Hown.
  repeat
    (lazymatch goal with
     | |- exists q b, ?m = _ /\ _ =>
         let x := scrut m in
         lazymatch x with
         | answer ?a ?b ?c => destruct x as [?out|?err] eqn:?; simpl
         | String.eqb ?a ?b => destruct x eqn:?; simpl
         end
     end;
     rewrite ?Hown; simpl).
  all: try solve
         [ eexists; exists true;
           split; [reflexivity|]; split; [reflexivity|];
           split; [reflexivity|]; reflexivity ].
  all: eexists; exists false;
    (split; [reflexivity|]); (split; [reflexivity|]);
    (split; [exact Hsame|]);
    intros Hall;
    match goal with
    | H : answer _ ?n ?c = Rejected _ |- _ =>
        destruct (Hall n c) as [out' Hout]; congruence
    end.
Qed.

Lemma forEach_cons {A : Type} (x : A) (l : list A) (f : A -> M unit) :
  forEach (x :: l) f = (f x ;; forEach l f).
Proof. reflexivity. Qed.

Lemma forEach_nil {A : Type} (f : A -> M unit) : forEach [] f = ret tt.
Proof. reflexivity. Qed.

(** The warm-up of one language: the chains for the indices [a], ...,
    [a + n - 1] append the warm names of some of these indices, in
    order, and of all of them when every call to the outside resolves. *)
Lemma warmLanguage_pool (w : World) (config : LanguageConfig) (n : nat) :
  forall (a : nat) (p : Proc) (pool : list string),
    ownGet (id config) (containerPool (server p)) = Some pool ->
    exists p' (f : nat -> bool),
      forEach (seq a n) (warmContainer w config) p = (Ret tt, p') /\
      poolReady (server p') = poolReady (server p) /\
      containerPool (server p')
      = ownSet (id config)
          (pool ++ map (warmName (id config)) (filter f (seq a n)))%list
          (containerPool (server p)) /\
      ((forall k c, exists out, answer w k c = Resolved out) ->
       forall i, f i = true).
Proof.
  induction n as [|n IH]; intros a p pool Hget.
  - exists p, (fun _ => true). simpl seq. rewrite forEach_nil.
    split; [reflexivity|]. split; [reflexivity|]. split; [|reflexivity].
    simpl. rewrite app_nil_r. symmetry. now apply ownSet_same.
  - simpl seq. rewrite forEach_cons. unfold bind.
    destruct (warmContainer_pool w config a p pool Hget)
      as (p1 & pushed & -> & Hr1 & Hp1 & Hall1).
    set (pool1 := (pool ++ (if pushed then [warmName (id config) a] else []))%list)
      in *.
    assert (Hget1 : ownGet (id config) (containerPool (server p1)) = Some pool1)
      by (rewrite Hp1; apply ownGet_ownSet_same).
    destruct (IH (S a) p1 pool1 Hget1) as (p' & f' & -> & Hr' & Hp' & Hall').
    exists p', (fun i => if (i =? a)%nat then pushed else f' i).
    split; [reflexivity|]. split; [congruence|]. split.
    + rewrite Hp', Hp1, ownSet_twice. f_equal.
      simpl filter. rewrite Nat.eqb_refl.
      assert (Hext : filter (fun i => if (i =? a)%nat then pushed else f' i)
                       (seq (S a) n)
                     = filter f' (seq (S a) n)).
      { apply filter_ext_in. intros i Hi. apply in_seq in Hi.
        destruct (Nat.eqb_spec i a); [lia|reflexivity]. }
      unfold pool1. destruct pushed; simpl; rewrite Hext;
        rewrite <- app_assoc; reflexivity.
    + intros Hall i. destruct (i =? a)%nat; auto.
Qed.

Lemma warm_names_NoDup (lang : string) (l : list nat) :
  NoDup l -> NoDup (map (warmName lang) l).
Proof.
  induction 1 as [|i l Hnotin _ IH]; simpl; constructor; [|exact IH].
  intros Hin. apply in_map_iff in Hin. destruct Hin as (j & Heq & Hj).
  apply warmName_inj in Heq. now subst.
Qed.

(** A pool of the right shape whose lists are all empty is the pool the
    module starts with. *)
Lemma empty_pool (s : Server) :
  PoolShape s ->
  (forall language pool, In (language, pool) (containerPool s) -> pool = []) ->
  containerPool s = containerPool initialServer.
Proof.
  intros [Hkeys _] Hempty. simpl in *.
  destruct (containerPool s) as [|[k1 l1] [|[k2 l2] [|[k3 l3] [|? ?]]]];
    try discriminate Hkeys.
  injection Hkeys as -> -> ->.
  rewrite (Hempty "cpp" l1), (Hempty "rust" l2), (Hempty "go" l3);
    simpl; auto.
Qed.

(** The two loops of [initPool] on a pool whose lists are empty: every
    language gets the warm names of some of its indices, in order. *)
Lemma warmAll_pool (w : World) (p : Proc) :
  containerPool (server p) = containerPool initialServer ->
  exists p' (f : string -> nat -> bool),
    forEach (map snd LANGUAGES)
      (fun config => forEach (seq 0 (poolSize config)) (warmContainer w config))
      p
    = (Ret tt, p') /\
    poolReady (server p') = poolReady (server p) /\
    containerPool (server p')
    = map (fun kv =>
             (fst kv,
              map (warmName (fst kv))
                (filter (f (fst kv)) (seq 0 (poolSize (snd kv))))))
        LANGUAGES /\
    ((forall k c, exists out, answer w k c = Resolved out) ->
     forall l i, f l i = true).
Proof.
  intros Hp. simpl in Hp. simpl map at 1.
  rewrite !forEach_cons, forEach_nil. unfold bind.
  destruct (warmLanguage_pool w cppConfig 3 0 p [])
    as (p1 & f1 & H1 & Hr1 & Hp1 & Hall1); [now rewrite Hp|].
  change (poolSize cppConfig) with 3. rewrite H1.
  rewrite Hp in Hp1. cbn [id cppConfig] in Hp1.
  destruct (warmLanguage_pool w rustConfig 2 0 p1 [])
    as (p2 & f2 & H2 & Hr2 & Hp2 & Hall2); [now rewrite Hp1|].
  change (poolSize rustConfig) with 2. rewrite H2.
  rewrite Hp1 in Hp2. cbn [id rustConfig] in Hp2.
  destruct (warmLanguage_pool w goConfig 3 0 p2 [])
    as (p3 & f3 & H3 & Hr3 & Hp3 & Hall3); [now rewrite Hp2|].
  change (poolSize goConfig) with 3. rewrite H3.
  rewrite Hp2 in Hp3. cbn [id goConfig] in Hp3.
  exists p3,
    (fun l => if String.eqb l "cpp" then f1
              else if String.eqb l "rust" then f2 else f3).
  split; [reflexivity|]. split; [congruence|]. split.
  - rewrite Hp3. reflexivity.
  - intros Hall l i.
    destruct (String.eqb l "cpp"); [auto|].
    destruct (String.eqb l "rust"); auto.
Qed.

Lemma PoolShape_warmed (s : Server) (f : string -> nat -> bool) :
  containerPool s
  = map (fun kv =>
           (fst kv,
            map (warmName (fst kv))
              (filter (f (fst kv)) (seq 0 (poolSize (snd kv))))))
      LANGUAGES ->
  PoolShape s.
Proof.
  intros Hp. split; [rewrite Hp; reflexivity|].
  intros l pool Hin. rewrite Hp in Hin. simpl in Hin.
  assert (H : forall n,
             NoDup (map (warmName l) (filter (f l) (seq 0 n))) /\
             forall c, In c (map (warmName l) (filter (f l) (seq 0 n))) ->
                       exists i, i < n /\ c = warmName l i).
  { intros n. split.
    - apply warm_names_NoDup, NoDup_filter, seq_NoDup.
    - intros c Hc. apply in_map_iff in Hc. destruct Hc as (i & <- & Hi).
      apply filter_In in Hi. destruct Hi as [Hi _]. apply in_seq in Hi.
      exists i. split; [lia|reflexivity]. }
  destruct Hin as [[= <- <-]|[[= <- <-]|[[= <- <-]|[]]]].
  - exact (H 3).
  - exact (H 2).
  - exact (H 3).
Qed.

(** [initPool] returns and keeps the pool well formed.  It does nothing
    when the pool is ready or a warm-up is in flight.  Otherwise it asks
    for the docker version: if that fails the pool is left as it is, not
    ready; if it succeeds the pool is ready afterwards and every free
    list holds the warm names of some of the indices below the pool
    size, in order. *)
Lemma initPool_pool (w : World) (p : Proc) :
  PoolWellFormed (server p) ->
  exists p',
    initPool w p = (Ret tt, p') /\
    PoolWellFormed (server p') /\
    if poolReady (server p)
       || (poolInitializing (server p) && poolInitPromise (server p))
    then p' = p
    else
      poolInitializing (server p') = false /\
      poolInitPromise (server p') = true /\
      match answer w (tick p) (Exec "docker version") with
      | Rejected _ =>
          poolReady (server p') = false /\
          containerPool (server p') = containerPool (server p)
      | Resolved _ =>
          poolReady (server p') = true /\
          exists f : string -> nat -> bool,
            containerPool (server p')
            = map (fun kv =>
                     (fst kv,
                      map (warmName (fst kv))
                        (filter (f (fst kv)) (seq 0 (poolSize (snd kv))))))
                LANGUAGES /\
            ((forall k c, exists out, answer w k c = Resolved out) ->
             forall l i, f l i = true)
      end.
Proof.
  intros Hwf. unfold initPool. unfold bind at 1. unfold getServer.
  destruct (poolReady (server p)) eqn:Hready; simpl orb.
  { exists p. auto. }
  destruct (poolInitializing (server p) && poolInitPromise (server p)).
  { exists p. auto. }
  pose proof (empty_pool (server p) (proj1 Hwf) (proj2 Hwf Hready)) as Hempty.
  flow_unfold. simpl.
  destruct (answer w (tick p) (Exec "docker version")); simpl.
  - match goal with
    | |- context [forEach ?l ?f ?q] =>
        destruct (warmAll_pool w q Hempty) as (p1 & g & Hrun & Hr1 & Hp1 & Hall);
        assert (Hrun' : forEach l f q = (Ret tt, p1)) by exact Hrun;
        rewrite Hrun'
    end.
    eexists. split; [reflexivity|]. simpl.
    assert (Hshape : PoolShape (setInit false true true (server p1)))
      by exact (PoolShape_warmed _ g Hp1).
    split; [split; [exact Hshape|discriminate]|].
    repeat split. exists g. split; [exact Hp1|exact Hall].
  - eexists. split; [reflexivity|]. simpl.
    split; [|repeat split].
    destruct Hwf as [Hshape He]. split; [exact Hshape|].
    intros _. exact (He Hready).
Qed.

(** ** Container pool: across a request *)

(** The handler once the warm-up (if any) has run and left the process in
    [p0]. *)
Lemma handler_after_init (sha256hex : string -> string) (w : World)
    (req : Request) (p p0 : Proc) :
  (if poolReady (server p) then ret tt else initPool w) p = (Ret tt, p0) ->
  match validationError req with
  | Some msg =>
      handler sha256hex w req p
      = (Ret (Responded (mkResponse 400 (errorBody (Some msg)))), tickProc p0)
  | None =>
      AnsweredFromJob w (requestJob sha256hex req) p0
        (handler sha256hex w req p)
  end.
Proof.
  intros Hpre.
  remember (handler sha256hex w req p) as r eqn:Hr.
  unfold handler in Hr. unfold bind at 1 in Hr. unfold getServer in Hr.
  unfold bind at 1 in Hr. rewrite Hpre in Hr.
  unfold bind at 1 in Hr. unfold dateNow in Hr. fold (tickProc p0) in Hr.
  unfold validationError.
  destruct (negb (truthy (reqLanguage req)) || negb (truthy (reqCode req)));
    [exact Hr|].
  assert (Hrest :
    r = (s <- getServer ;;
         match JsMap.get (jobCacheKey (requestJob sha256hex req))
                 (compilationCache s) with
         | Some cached => ret (Responded (mkResponse 200 (cachedBody cached)))
         | None =>
             tryCatch
               (r <- executeWithQueue w (requestJob sha256hex req) ;;
                match r with
                | Some result => ret (Responded (mkResponse 200 result))
                | None => ret (Pending (requestJob sha256hex req))
                end)
               (fun err =>
                  ret (Responded
                         (mkResponse 500 (errorBody (errMessage err)))))
         end) (tickProc p0) ->
    AnsweredFromJob w (requestJob sha256hex req) p0 r).
  { clear Hr. intros Hr. unfold AnsweredFromJob.
    unfold bind at 1 in Hr. unfold getServer in Hr.
    cbn [server tickProc] in Hr.
    destruct (JsMap.get _ (compilationCache (server p0))); [exact Hr|].
    unfold tryCatch, executeWithQueue in Hr.
    unfold bind at 1 in Hr. unfold bind at 1 in Hr. unfold getServer in Hr.
    cbn [server tickProc] in Hr.
    destruct (enter _ _ _) as [a started].
    unfold bind at 1 in Hr. unfold modifyServer in Hr.
    fold (withAdmission a (tickProc p0)) in Hr.
    destruct started; [|exact Hr].
    unfold tryFinally, bind, ret in Hr.
    destruct (compileJob w _ (withAdmission a (tickProc p0)))
      as [[result|e] pj].
    - destruct (finallyBlock_spec pj) as (p2 & Hfin & _). exists p2.
      cbv beta iota in Hr. rewrite Hfin in Hr. split; [exact Hfin|exact Hr].
    - destruct (finallyBlock_spec pj) as (p2 & Hfin & _). exists p2.
      cbv beta iota in Hr. rewrite Hfin in Hr. split; [exact Hfin|exact Hr]. }
  destruct (objGet LANGUAGES (fromSome (reqLanguage req)));
    [apply Hrest, Hr|apply Hrest, Hr|exact Hr].
Qed.

Lemma finallyBlock_frame (p p' : Proc) :
  finallyBlock p = (Ret tt, p') -> PoolFrame (server p) (server p').
Proof.
  unfold finallyBlock. flow_unfold. simpl. unfold finish.
  destruct (requestQueue (admission (server p))); simpl;
    intros [= <-]; split; reflexivity.
Qed.

(** After the warm-up, the handler keeps the pool well formed and keeps
    the members of every free list. *)
Lemma handler_tail_keeps_pool (sha256hex : string -> string) (w : World)
    (req : Request) (p p0 : Proc) :
  (if poolReady (server p) then ret tt else initPool w) p = (Ret tt, p0) ->
  PoolWellFormed (server p0) ->
  let p' := snd (handler sha256hex w req p) in
  PoolWellFormed (server p') /\
  poolReady (server p') = poolReady (server p0) /\
  forall l, Permutation (freeList (server p0) l) (freeList (server p') l).
Proof.
  intros Hpre Hwf. cbv zeta.
  assert (Hsame : forall q,
             PoolFrame (server p0) (server q) ->
             PoolWellFormed (server q) /\
             poolReady (server q) = poolReady (server p0) /\
             forall l, Permutation (freeList (server p0) l)
                         (freeList (server q) l)).
  { intros q Hf. split; [exact (PoolWellFormed_frame _ _ Hf Hwf)|].
    split; [apply Hf|]. intros l. now rewrite (freeList_frame _ _ l Hf). }
  pose proof (handler_after_init sha256hex w req p p0 Hpre) as Hcases.
  destruct (validationError req).
  { rewrite Hcases. apply Hsame. apply PoolFrame_refl. }
  unfold AnsweredFromJob in Hcases.
  destruct (JsMap.get _ (compilationCache (server p0))).
  { rewrite Hcases. apply Hsame. apply PoolFrame_refl. }
  destruct (enter _ _ _) as [a started]. destruct started.
  2: { rewrite Hcases. apply Hsame. split; reflexivity. }
  destruct Hcases as [p2 Hcases].
  pose proof (compileJob_keeps_pool w (requestJob sha256hex req)
                (withAdmission a (tickProc p0))) as Hjob.
  cbv zeta in Hjob. specialize (Hjob Hwf).
  destruct (compileJob w _ (withAdmission a (tickProc p0)))
    as [[result|e] pj]; destruct Hcases as [Hfin ->]; cbn [snd] in *;
    pose proof (finallyBlock_frame pj p2 Hfin) as Hf;
    destruct Hjob as (Hwfj & Hrj & Hpermj);
    (split; [exact (PoolWellFormed_frame _ _ Hf Hwfj)|]);
    (split; [destruct Hf; simpl in *; congruence|]);
    intros l; rewrite (freeList_frame _ _ l Hf); exact (Hpermj l).
Qed.

Lemma handler_keeps_pool (sha256hex : string -> string) (w : World)
    (req : Request) (p : Proc) :
  PoolWellFormed (server p) ->
  let p' := snd (handler sha256hex w req p) in
  PoolWellFormed (server p') /\
  (poolReady (server p) = true ->
   poolReady (server p') = true /\
   forall l, Permutation (freeList (server p) l) (freeList (server p') l)).
Proof.
  intros Hwf. cbv zeta.
  destruct (poolReady (server p)) eqn:Hready.
  - assert (Hpre : (if poolReady (server p) then ret tt else initPool w) p
                   = (Ret tt, p)) by (rewrite Hready; reflexivity).
    destruct (handler_tail_keeps_pool sha256hex w req p p Hpre Hwf)
      as (H1 & H2 & H3).
    split; [exact H1|]. intros _. split; [congruence|exact H3].
  - destruct (initPool_pool w p Hwf) as (p0 & Hinit & Hwf0 & _).
    assert (Hpre : (if poolReady (server p) then ret tt else initPool w) p
                   = (Ret tt, p0)) by (rewrite Hready; exact Hinit).
    destruct (handler_tail_keeps_pool sha256hex w req p p0 Hpre Hwf0)
      as (H1 & _).
    split; [exact H1|discriminate].
Qed.

Lemma initialServer_wellformed : PoolWellFormed initialServer.
Proof.
  split; [split; [reflexivity|]|].
  - intros l pool Hin. simpl in Hin.
    destruct Hin as [[= <- <-]|[[= <- <-]|[[= <- <-]|[]]]];
      (split; [constructor|intros c []]).
  - intros _ l pool Hin. simpl in Hin.
    destruct Hin as [[= <- <-]|[[= <- <-]|[[= <- <-]|[]]]]; reflexivity.
Qed.

Lemma serverAfter_wellformed (sha256hex : string -> string)
    (history : list (World * Request)) :
  PoolWellFormed (serverAfter sha256hex history).
Proof.
  unfold serverAfter.
  assert (H : forall s, PoolWellFormed s ->
                        PoolWellFormed (fold_left (serveOne sha256hex) history s)).
  { induction history as [|[w req] history IH]; intros s Hs; simpl;
      [assumption|].
    apply IH. unfold serveOne. cbn [fst snd].
    exact (proj1 (handler_keeps_pool sha256hex w req (startProc s) Hs)). }
  apply H, initialServer_wellformed.
Qed.

(** ** Container pool: the properties *)




(** X11.  In every state the server reaches by handling requests, one
    after the other, the pool has exactly the free lists of the
    registered languages; no container is twice in a free list; a free
    list never holds more containers than the pool size of its language;
    every pooled container is a warm container of that language; and as
    long as the pool is not ready the free lists are empty. *)
Theorem X11_pool_invariant :
  forall (sha256hex : string -> string) (history : list (World * Request))
         (language : string) (cfg : LanguageConfig),
    objGet LANGUAGES language = Own cfg ->
    let s := serverAfter sha256hex history in
    map fst (containerPool s) = ["cpp"; "rust"; "go"] /\
    NoDup (freeList s language) /\
    List.length (freeList s language) <= poolSize cfg /\
    (forall c, In c (freeList s language) ->
               exists i, i < poolSize cfg /\ c = warmName language i) /\
    (poolReady s = false -> freeList s language = []).
Proof.
  intros sha256hex history language cfg Hcfg s.
  pose proof (serverAfter_wellformed sha256hex history) as Hwf. fold s in Hwf.
  split; [exact (proj1 (proj1 Hwf))|].
  assert (Hin : In (language, freeList s language) (containerPool s)).
  { unfold freeList.
    destruct (ownGet language (containerPool s)) as [pool|] eqn:Hget;
      [now apply ownGet_In|].
    exfalso. destruct Hwf as [[Hkeys _] _].
    assert (Hk : In language (map fst (containerPool s))).
    { rewrite Hkeys.
      exact (registered_in_list language cfg Hcfg). }
    clear - Hget Hk. induction (containerPool s) as [|[k v] o IH];
      simpl in *; [tauto|].
    destruct (String.eqb_spec language k); [discriminate|].
    destruct Hk as [Hk|Hk]; [congruence|auto]. }
  pose proof (PoolWellFormed_length s language _ Hwf Hin) as Hlen.
  rewrite (releasePoolSize_registered language cfg Hcfg) in Hlen.
  destruct Hwf as [[_ Hmem] Hempty].
  destruct (Hmem _ _ Hin) as [Hnd Hwarm].
  rewrite (releasePoolSize_registered language cfg Hcfg) in Hwarm.
  split; [exact Hnd|]. split; [exact Hlen|]. split; [exact Hwarm|].
  intros Hnr. exact (Hempty Hnr _ _ Hin).
Qed.

Lemma X11_pool_invariant_witness :
  List.length
    (freeList
       (serverAfter plainHash
          [(sampleWorld, mkRequest None None);
           (sampleWorld, mkRequest (Some "go") (Some "package main"))])
       "go")
  <= 3.
Proof.
  pose proof (X11_pool_invariant plainHash
                [(sampleWorld, mkRequest None None);
                 (sampleWorld, mkRequest (Some "go") (Some "package main"))]
                "go" goConfig eq_refl) as H.
  cbv zeta in H. destruct H as (_ & _ & H & _). exact H.
Defined.

(** X12.  No request loses or duplicates a warm container.  Once the
    pool is ready, the free list of every language has the same members
    after a request as before it, whatever the request is and whatever
    the outside world answers: a job that took a warm container gives it
    back, on the success path and on every failure path, and an
    ephemeral container never enters a free list.  The pool stays
    ready. *)
Theorem X12_free_lists_conserved :
  forall (sha256hex : string -> string) (history : list (World * Request))
         (w : World) (req : Request) (language : string),
    let s := serverAfter sha256hex history in
    let s' := serveOne sha256hex s (w, req) in
    poolReady s = true ->
    poolReady s' = true /\
    Permutation (freeList s language) (freeList s' language).
Proof.
  intros sha256hex history w req language s s' Hready.
  pose proof (serverAfter_wellformed sha256hex history) as Hwf. fold s in Hwf.
  destruct (handler_keeps_pool sha256hex w req (startProc s) Hwf) as [_ H].
  destruct (H Hready) as [Hr Hperm].
  split; [exact Hr|exact (Hperm language)].
Qed.

Lemma X12_free_lists_conserved_witness :
  Permutation
    (freeList (serverAfter plainHash [(sampleWorld, mkRequest None None)])
       "cpp")
    (freeList
       (serveOne plainHash
          (serverAfter plainHash [(sampleWorld, mkRequest None None)])
          (blankFailureWorld, mkRequest (Some "cpp") (Some "int main(")))
       "cpp").
Proof.
  pose proof (X12_free_lists_conserved plainHash
                [(sampleWorld, mkRequest None None)] blankFailureWorld
                (mkRequest (Some "cpp") (Some "int main(")) "cpp") as H.
  cbv zeta in H.
  assert (H1 : poolReady
                 (serverAfter plainHash [(sampleWorld, mkRequest None None)])
               = true) by (vm_compute; reflexivity).
  specialize (H H1). destruct H as [_ H]. exact H.
Defined.

(** ** Strings: prefixes and occurrences *)

Lemma append_nil_l (s : string) : ("" ++ s) = s.
Proof. reflexivity. Qed.

Lemma append_cons (c : ascii) (s t : string) :
  (String c s ++ t) = String c (s ++ t).
Proof. reflexivity. Qed.

Lemma append_nil_r (s : string) : (s ++ "") = s.
Proof.
  induction s as [|c s IH]; [reflexivity|].
  rewrite append_cons. now rewrite IH.
Qed.

Lemma append_assoc (a b c : string) : ((a ++ b) ++ c) = (a ++ (b ++ c)).
Proof.
  induction a as [|x a IH]; [reflexivity|].
  rewrite !append_cons. now rewrite IH.
Qed.

Lemma startsWith_nil (s : string) : startsWith "" s = true.
Proof. destruct s; reflexivity. Qed.

Lemma startsWith_cons (a b : ascii) (p s : string) :
  startsWith (String a p) (String b s) = Ascii.eqb a b && startsWith p s.
Proof.
  unfold startsWith. simpl.
  destruct (ascii_dec a b) as [->|Hne].
  - now rewrite Ascii.eqb_refl.
  - destruct (Ascii.eqb_spec a b); [congruence|reflexivity].
Qed.

Lemma startsWith_cons_nil (a : ascii) (p : string) :
  startsWith (String a p) "" = false.
Proof. reflexivity. Qed.

Lemma startsWith_app (p s : string) :
  startsWith p s = true <-> exists t, s = (p ++ t).
Proof.
  revert s. induction p as [|a p IH]; intros s.
  - rewrite startsWith_nil. split; [intros _; now exists s|reflexivity].
  - destruct s as [|b s].
    + rewrite startsWith_cons_nil. split; [discriminate|].
      intros [t Ht]. rewrite append_cons in Ht. discriminate.
    + rewrite startsWith_cons, andb_true_iff, IH. split.
      * intros [Hab [t ->]]. apply Ascii.eqb_eq in Hab. subst b.
        exists t. now rewrite append_cons.
      * intros [t Ht]. rewrite append_cons in Ht. injection Ht as -> ->.
        split; [apply Ascii.eqb_refl|now exists t].
Qed.

Lemma includes_nil (sub : string) : includes sub "" = startsWith sub "".
Proof. unfold includes. apply orb_false_r. Qed.

Lemma includes_head (sub s : string) :
  startsWith sub s = true -> includes sub s = true.
Proof.
  intros H. destruct s; [now rewrite includes_nil|].
  rewrite includes_cons, H. reflexivity.
Qed.

Lemma includes_app (sub s : string) :
  includes sub s = true <-> exists a b, s = (a ++ sub ++ b).
Proof.
  split.
  - induction s as [|c s IH].
    + rewrite includes_nil. intros H. apply startsWith_app in H.
      destruct H as [t Ht]. now exists "", t.
    + rewrite includes_cons. intros H. apply orb_prop in H.
      destruct H as [H|H].
      * apply startsWith_app in H. destruct H as [t Ht]. now exists "", t.
      * destruct (IH H) as (a & b & ->). exists (String c a), b.
        now rewrite append_cons.
  - intros (a & b & ->). induction a as [|c a IH].
    + rewrite append_nil_l. apply includes_head, startsWith_app. now exists b.
    + rewrite append_cons, includes_cons, IH. apply orb_true_r.
Qed.

Lemma trimStart_suffix (s : string) : exists pre, s = (pre ++ trimStart s).
Proof.
  induction s as [|c s [pre IH]]; [now exists ""|].
  simpl. destruct (isSpace c).
  - exists (String c pre). rewrite append_cons. now rewrite <- IH.
  - now exists "".
Qed.

Lemma trimEnd_prefix (s : string) : exists post, s = (trimEnd s ++ post).
Proof.
  induction s as [|c s [post IH]]; [now exists ""|].
  simpl. destruct (trimEnd s) as [|d t] eqn:E.
  - destruct (isSpace c).
    + exists (String c s). reflexivity.
    + exists post. rewrite append_cons. now rewrite <- IH.
  - exists post. rewrite append_cons. now rewrite <- IH.
Qed.

Lemma trim_inside (s : string) : exists pre post, s = (pre ++ trim s ++ post).
Proof.
  destruct (trimStart_suffix s) as [pre Hpre].
  destruct (trimEnd_prefix (trimStart s)) as [post Hpost].
  exists pre, post. unfold trim. rewrite <- Hpost. exact Hpre.
Qed.

(** Trimming creates no occurrence. *)
Lemma includes_trim (sub s : string) :
  includes sub (trim s) = true -> includes sub s = true.
Proof.
  intros H. apply includes_app in H. destruct H as (a & b & Hab).
  destruct (trim_inside s) as (pre & post & Hs).
  apply includes_app. exists (pre ++ a), (b ++ post).
  rewrite Hs, Hab. now rewrite !append_assoc.
Qed.

Lemma trimEnd_cons_nonspace (c : ascii) (s : string) :
  isSpace c = false -> trimEnd (String c s) = String c (trimEnd s).
Proof. intros H. simpl. rewrite H. now destruct (trimEnd s). Qed.

Lemma beforeFirst_prefix (sub s : string) :
  exists rest, s = (beforeFirst sub s ++ rest).
Proof.
  induction s as [|c s [rest IH]]; cbn [beforeFirst].
  - destruct (startsWith sub ""); now exists "".
  - destruct (startsWith sub (String c s)).
    + now exists (String c s).
    + exists rest. rewrite append_cons. now rewrite <- IH.
Qed.

(** The text before the first occurrence holds no occurrence. *)
Lemma beforeFirst_clean (sub s : string) :
  sub <> "" -> includes sub (beforeFirst sub s) = false.
Proof.
  intros Hne. induction s as [|c s IH]; cbn [beforeFirst].
  - destruct (startsWith sub "") eqn:E; rewrite includes_nil;
      destruct sub; try congruence; reflexivity.
  - destruct (startsWith sub (String c s)) eqn:E.
    + rewrite includes_nil. destruct sub; [congruence|reflexivity].
    + rewrite includes_cons, IH, orb_false_r.
      apply not_true_is_false. intros H. apply startsWith_app in H.
      destruct H as [t Ht].
      destruct (beforeFirst_prefix sub s) as [rest Hrest].
      assert (Hs : startsWith sub (String c s) = true).
      { apply startsWith_app. exists (t ++ rest).
        rewrite <- append_assoc, <- Ht, append_cons. now rewrite <- Hrest. }
      congruence.
Qed.

Lemma fromFirst_starts (sub s m : string) :
  fromFirst sub s = Some m -> startsWith sub m = true.
Proof.
  induction s as [|c s IH]; cbn [fromFirst].
  - destruct (startsWith sub "") eqn:E; [|discriminate].
    now intros [= <-].
  - destruct (startsWith sub (String c s)) eqn:E; [|exact IH].
    now intros [= <-].
Qed.

Lemma fromFirst_includes (sub s : string) :
  includes sub s = true -> exists m, fromFirst sub s = Some m.
Proof.
  induction s as [|c s IH].
  - rewrite includes_nil. cbn [fromFirst]. intros ->. now exists "".
  - rewrite includes_cons. cbn [fromFirst].
    destruct (startsWith sub (String c s)); [now exists (String c s)|].
    exact IH.
Qed.

(** ** Error clean-up: C++ *)

Lemma startsWith_cons_diff (a b : ascii) (p s : string) :
  Ascii.eqb a b = false -> startsWith (String a p) (String b s) = false.
Proof. intros H. now rewrite startsWith_cons, H. Qed.

Lemma beforeFirst_cons_diff (a b : ascii) (p s : string) :
  Ascii.eqb a b = false ->
  beforeFirst (String a p) (String b s) = String b (beforeFirst (String a p) s).
Proof.
  intros H. cbn [beforeFirst]. now rewrite (startsWith_cons_diff a b p s H).
Qed.

Lemma trimStart_cons_nonspace (c : ascii) (s : string) :
  isSpace c = false -> trimStart (String c s) = String c s.
Proof. intros H. simpl. now rewrite H. Qed.

Lemma includes_false_no_head (sub s : string) :
  includes sub s = false -> startsWith sub s = false.
Proof.
  intros H. destruct (startsWith sub s) eqn:E; [|reflexivity].
  now rewrite (includes_head sub s E) in H.
Qed.

Lemma beforeFirst_absent (sub s : string) :
  includes sub s = false -> beforeFirst sub s = s.
Proof.
  induction s as [|c s IH]; intros H; cbn [beforeFirst].
  - now destruct (startsWith sub "").
  - rewrite (includes_false_no_head _ _ H).
    rewrite includes_cons in H. apply orb_false_elim in H.
    now rewrite (IH (proj2 H)).
Qed.

Lemma fromFirst_absent (sub s : string) :
  includes sub s = false -> fromFirst sub s = None.
Proof.
  induction s as [|c s IH]; intros H; cbn [fromFirst];
    rewrite (includes_false_no_head _ _ H); [reflexivity|].
  rewrite includes_cons in H. apply orb_false_elim in H. exact (IH (proj2 H)).
Qed.

Lemma filterError_cpp (raw : string) :
  filterError "cpp" raw
  = trim (beforeFirst "emcc: error:"
            match fromFirst "main.cpp:" raw with
            | Some m => m
            | None => raw
            end).
Proof. reflexivity. Qed.

(** X13.  The message shown for a failed C++ compilation never contains
    the text [emcc: error:] (that text and everything after it is cut
    off).  When the raw error text contains [main.cpp:], the message
    starts there: everything before the first diagnostic that names the
    source file is dropped.  When the raw text contains neither, the
    message is the raw text, trimmed (or the fallback if that is
    empty). *)
Theorem X13_cpp_error_text :
  forall error : JsError,
    includes "emcc: error:" (cleanError "cpp" error) = false /\
    (includes "main.cpp:" (rawError error) = true ->
     startsWith "main.cpp:" (cleanError "cpp" error) = true) /\
    (includes "main.cpp:" (rawError error) = false ->
     includes "emcc: error:" (rawError error) = false ->
     filterError "cpp" (rawError error) = trim (rawError error)).
Proof.
  intros error. split; [|split].
  - destruct (filterError "cpp" (rawError error)) as [|c s] eqn:E.
    + now rewrite (cleanError_fallback "cpp" error E).
    + rewrite (cleanError_keeps "cpp" error) by (rewrite E; discriminate).
      rewrite filterError_cpp in *.
      apply not_true_is_false. intros H. apply includes_trim in H.
      rewrite beforeFirst_clean in H; discriminate.
  - intros Hinc. destruct (fromFirst_includes _ _ Hinc) as [m Hm].
    pose proof (fromFirst_starts _ _ _ Hm) as Hstart.
    apply startsWith_app in Hstart. destruct Hstart as [t ->].
    assert (Hclean : filterError "cpp" (rawError error)
                     = ("main.cpp:"
                        ++ trimEnd (beforeFirst "emcc: error:" t))).
    { rewrite filterError_cpp, Hm. rewrite !append_cons, append_nil_l.
      rewrite !beforeFirst_cons_diff by reflexivity.
      unfold trim. rewrite trimStart_cons_nonspace by reflexivity.
      rewrite !trimEnd_cons_nonspace by reflexivity. reflexivity. }
    rewrite (cleanError_keeps "cpp" error)
      by (rewrite Hclean, append_cons; discriminate).
    rewrite Hclean. apply startsWith_app. eauto.
  - intros H1 H2. rewrite filterError_cpp.
    now rewrite (fromFirst_absent _ _ H1), (beforeFirst_absent _ _ H2).
Qed.

(** ** Error clean-up: Rust *)

Lemma allChars_app (p : ascii -> bool) (a b : string) :
  allChars p (a ++ b) = allChars p a && allChars p b.
Proof.
  induction a as [|c a IH]; [reflexivity|].
  rewrite append_cons. simpl. now rewrite IH, andb_assoc.
Qed.

Lemma splitLines_nonempty (s : string) : splitLines s <> [].
Proof.
  destruct s as [|c s]; simpl; [discriminate|].
  destruct (Ascii.eqb c "010"); [discriminate|].
  destruct (splitLines s); discriminate.
Qed.

Lemma splitLines_oneLine (s l : string) :
  In l (splitLines s) -> oneLine l = true.
Proof.
  revert l. induction s as [|c s IH]; intros l; simpl.
  - intros [<-|[]]. reflexivity.
  - destruct (Ascii.eqb c "010") eqn:Ec.
    + intros [<-|H]; [reflexivity|auto].
    + destruct (splitLines s) as [|l0 ls] eqn:El; simpl.
      * intros [<-|[]]. unfold oneLine. simpl. now rewrite Ec.
      * intros [<-|H].
        -- unfold oneLine. simpl. rewrite Ec. simpl.
           apply (IH l0). now left.
        -- apply IH. now right.
Qed.

Lemma splitLines_single (l : string) :
  oneLine l = true -> splitLines l = [l].
Proof.
  unfold oneLine. induction l as [|c l IH]; simpl; [reflexivity|].
  intros H. apply andb_prop in H. destruct H as [Hc Hl].
  apply negb_true_iff in Hc. rewrite Hc, (IH Hl). reflexivity.
Qed.

Lemma splitLines_app_nl (l rest : string) :
  oneLine l = true -> splitLines (l ++ nl ++ rest) = l :: splitLines rest.
Proof.
  unfold oneLine. induction l as [|c l IH]; intros H.
  - reflexivity.
  - simpl in H. apply andb_prop in H. destruct H as [Hc Hl].
    apply negb_true_iff in Hc. rewrite append_cons.
    cbn [splitLines]. rewrite Hc, (IH Hl). reflexivity.
Qed.

Lemma joinLines_cons (l l' : string) (ls : list string) :
  joinLines (l :: l' :: ls) = (l ++ nl ++ joinLines (l' :: ls)).
Proof. reflexivity. Qed.

Lemma splitLines_joinLines (ls : list string) :
  ls <> [] -> (forall l, In l ls -> oneLine l = true) ->
  splitLines (joinLines ls) = ls.
Proof.
  induction ls as [|l ls IH]; [congruence|]. intros _ Hall.
  destruct ls as [|l' ls].
  - apply splitLines_single. apply Hall. now left.
  - rewrite joinLines_cons, splitLines_app_nl by (apply Hall; now left).
    f_equal. apply IH; [discriminate|]. intros x Hx. apply Hall. now right.
Qed.

Lemma joinLines_snoc (ls : list string) (l : string) :
  ls <> [] -> joinLines (ls ++ [l]) = (joinLines ls ++ nl ++ l).
Proof.
  induction ls as [|x ls IH]; [congruence|]. intros _.
  destruct ls as [|y ls].
  - reflexivity.
  - change ((x :: y :: ls) ++ [l])%list with (x :: y :: (ls ++ [l]))%list.
    rewrite !joinLines_cons.
    change (y :: (ls ++ [l]))%list with ((y :: ls) ++ [l])%list.
    rewrite IH by discriminate. now rewrite !append_assoc.
Qed.

Lemma trimEnd_app (a b : string) :
  trimEnd b <> "" -> trimEnd (a ++ b) = (a ++ trimEnd b).
Proof.
  intros Hb. induction a as [|c a IH]; [reflexivity|].
  rewrite !append_cons. cbn [trimEnd]. rewrite IH.
  destruct (a ++ trimEnd b) eqn:E; [|reflexivity].
  destruct a; [|rewrite append_cons in E; discriminate].
  rewrite append_nil_l in E. congruence.
Qed.

Lemma isSpace_newline : isSpace "010" = true.
Proof. reflexivity. Qed.

(** A line that starts with a bar after optional white space still
    does when trailing white space is removed. *)
Lemma bar_after_spaces_trimEnd (l : string) :
  startsWith "|" (skipWhile isSpace l) = true ->
  startsWith "|" (skipWhile isSpace (trimEnd l)) = true /\ trimEnd l <> "".
Proof.
  induction l as [|c l IH]; cbn [skipWhile].
  - discriminate.
  - destruct (isSpace c) eqn:Ec.
    + intros H. destruct (IH H) as [H1 H2].
      cbn [trimEnd]. destruct (trimEnd l) as [|d t] eqn:E; [congruence|].
      cbn [skipWhile]. rewrite Ec. split; [exact H1|discriminate].
    + intros H. rewrite (trimEnd_cons_nonspace c l Ec).
      cbn [skipWhile]. rewrite Ec. split; [|discriminate].
      rewrite startsWith_cons in *. apply andb_prop in H.
      rewrite (proj1 H). apply startsWith_nil.
Qed.

Lemma isDigit_nonspace (c : ascii) : isDigit c = true -> isSpace c = false.
Proof.
  unfold isDigit, isSpace. cbv zeta. intros H.
  apply andb_prop in H. destruct H as [H1 H2].
  apply Nat.leb_le in H1, H2.
  repeat match goal with
         | |- context [(?a <=? ?b)%nat] => destruct (Nat.leb_spec a b)
         | |- context [(?a =? ?b)%nat] => destruct (Nat.eqb_spec a b)
         end; simpl; try reflexivity; lia.
Qed.

Lemma bar_after_digits_trimEnd (l : string) :
  startsWith "|" (skipWhile isSpace (skipWhile isDigit l)) = true ->
  startsWith "|" (skipWhile isSpace (skipWhile isDigit (trimEnd l))) = true /\
  trimEnd l <> "".
Proof.
  induction l as [|c l IH]; cbn [skipWhile].
  - discriminate.
  - destruct (isDigit c) eqn:Ec.
    + intros H. destruct (IH H) as [H1 H2].
      rewrite (trimEnd_cons_nonspace c l (isDigit_nonspace c Ec)).
      cbn [skipWhile]. rewrite Ec. split; [exact H1|discriminate].
    + intros H. destruct (bar_after_spaces_trimEnd (String c l) H) as [H1 H2].
      split; [|exact H2].
      destruct (trimEnd (String c l)) as [|d t] eqn:E; [congruence|].
      assert (Hd : d = c).
      { cbn [trimEnd] in E. destruct (trimEnd l); [destruct (isSpace c)|];
          congruence. }
      subst d. cbn [skipWhile]. rewrite Ec. exact H1.
Qed.

(** Removing trailing white space from a diagnostic line leaves a
    diagnostic line. *)
Lemma rustDiagnosticLine_trimEnd (l : string) :
  rustDiagnosticLine l = true ->
  rustDiagnosticLine (trimEnd l) = true /\ trimEnd l <> "".
Proof.
  unfold rustDiagnosticLine. intros H.
  apply orb_prop in H. destruct H as [H|H].
  - apply orb_prop in H. destruct H as [H|H].
    + apply orb_prop in H. destruct H as [H|H].
      * apply startsWith_app in H. destruct H as [t ->].
        rewrite !append_cons, append_nil_l.
        rewrite !trimEnd_cons_nonspace by reflexivity.
        split; [|discriminate].
        rewrite !startsWith_cons, startsWith_nil. reflexivity.
      * apply startsWith_app in H. destruct H as [t ->].
        rewrite !append_cons, append_nil_l.
        rewrite !trimEnd_cons_nonspace by reflexivity.
        split; [|discriminate].
        rewrite (startsWith_cons_diff "e" "-") by reflexivity.
        rewrite !startsWith_cons, startsWith_nil. reflexivity.
    + apply startsWith_app in H. destruct H as [t ->].
      rewrite !append_cons, append_nil_l.
      rewrite !trimEnd_cons_nonspace by reflexivity.
      split; [|discriminate].
      rewrite (startsWith_cons_diff "e" "|") by reflexivity.
      rewrite (startsWith_cons_diff "-" "|") by reflexivity.
      rewrite !startsWith_cons, startsWith_nil. reflexivity.
  - unfold numberedLine in H. destruct l as [|c l]; [discriminate|].
    apply andb_prop in H. destruct H as [Hc H].
    destruct (bar_after_digits_trimEnd (String c l) H) as [H1 H2].
    split; [|exact H2].
    rewrite (trimEnd_cons_nonspace c l (isDigit_nonspace c Hc)) in *.
    unfold numberedLine. rewrite Hc, H1. apply orb_true_r.
Qed.

Lemma rustDiagnosticLine_head (l : string) :
  rustDiagnosticLine l = true ->
  exists c t, l = String c t /\ isSpace c = false.
Proof.
  unfold rustDiagnosticLine. intros H.
  destruct l as [|c t]; [discriminate|]. exists c, t. split; [reflexivity|].
  rewrite !startsWith_cons in H. unfold numberedLine in H.
  repeat (apply orb_prop in H; destruct H as [H|H]);
    apply andb_prop in H; destruct H as [H _];
    try (apply Ascii.eqb_eq in H; subst c; reflexivity).
  now apply isDigit_nonspace.
Qed.

Lemma oneLine_trimEnd (l : string) :
  oneLine l = true -> oneLine (trimEnd l) = true.
Proof.
  intros H. destruct (trimEnd_prefix l) as [post Hpost].
  unfold oneLine in *. rewrite Hpost, allChars_app in H.
  now apply andb_prop in H.
Qed.

Lemma filterError_rust (raw : string) :
  filterError "rust" raw
  = trim (joinLines
            (filter rustDiagnosticLine (splitLines (replaceWrapper "bash" raw)))).
Proof. reflexivity. Qed.

Lemma joinLines_head (c : ascii) (t : string) (ls : list string) :
  exists t', joinLines (String c t :: ls) = String c t'.
Proof.
  destruct ls as [|l ls]; [now exists t|].
  rewrite joinLines_cons, append_cons. eauto.
Qed.

(** Trimming the joined diagnostic lines only removes the white space at
    the end of the last line. *)
Lemma trim_joined_lines (ls : list string) (ln : string) :
  (forall l, In l (ls ++ [ln])%list -> rustDiagnosticLine l = true) ->
  trim (joinLines (ls ++ [ln])) = joinLines (ls ++ [trimEnd ln]).
Proof.
  intros Hall.
  destruct (rustDiagnosticLine_trimEnd ln) as [_ Hne];
    [apply Hall, in_or_app; right; now left|].
  assert (Hhead : exists c t, joinLines (ls ++ [ln]) = String c t
                              /\ isSpace c = false).
  { destruct ls as [|l1 ls].
    - destruct (rustDiagnosticLine_head ln) as (c & t & -> & Hc);
        [apply Hall; now left|].
      now exists c, t.
    - destruct (rustDiagnosticLine_head l1) as (c & t & -> & Hc);
        [apply Hall; now left|].
      destruct (joinLines_head c t (ls ++ [ln])) as [t' Ht'].
      exists c, t'. split; [exact Ht'|exact Hc]. }
  destruct Hhead as (c & t & Hj & Hc).
  unfold trim. rewrite Hj, (trimStart_cons_nonspace c t Hc), <- Hj.
  destruct ls as [|l1 ls]; [reflexivity|].
  rewrite !joinLines_snoc by discriminate.
  rewrite <- !append_assoc. now apply trimEnd_app.
Qed.

(** X14.  The message shown for a failed Rust compilation is the
    fallback [Compilation failed] or consists of diagnostic lines only:
    each of its lines starts with [error:], [-->] or a bar, or is a
    numbered source line (digits, optional white space, a bar). *)
Theorem X14_rust_error_lines :
  forall error : JsError,
    cleanError "rust" error = "Compilation failed" \/
    forall l, In l (splitLines (cleanError "rust" error)) ->
              rustDiagnosticLine l = true.
Proof.
  intros error.
  pose proof (filterError_rust (rawError error)) as Hf.
  set (kept := filter rustDiagnosticLine
                 (splitLines (replaceWrapper "bash" (rawError error)))) in Hf.
  assert (Hkept : forall l, In l kept ->
                            rustDiagnosticLine l = true /\ oneLine l = true).
  { intros l Hl. apply filter_In in Hl. destruct Hl as [Hin Hd].
    split; [exact Hd|exact (splitLines_oneLine _ l Hin)]. }
  destruct kept as [|l0 kept0] eqn:Ek.
  - left. apply cleanError_fallback. exact Hf.
  - right. destruct (exists_last (l := l0 :: kept0)) as (ls & ln & Hsplit);
      [discriminate|].
    rewrite Hsplit in Hf, Hkept.
    rewrite trim_joined_lines in Hf by (intros l Hl; apply (Hkept l Hl)).
    assert (Hln : In ln (ls ++ [ln])%list) by (apply in_or_app; right; now left).
    destruct (rustDiagnosticLine_trimEnd ln (proj1 (Hkept ln Hln)))
      as [Hd Hne].
    assert (Hlines : forall l, In l (ls ++ [trimEnd ln])%list ->
                               rustDiagnosticLine l = true /\ oneLine l = true).
    { intros l Hl. apply in_app_or in Hl. destruct Hl as [Hl|[<-|[]]].
      - apply Hkept, in_or_app. now left.
      - split; [exact Hd|]. apply oneLine_trimEnd. apply (Hkept ln Hln). }
    assert (Hsl : splitLines (filterError "rust" (rawError error))
                  = (ls ++ [trimEnd ln])%list).
    { rewrite Hf. apply splitLines_joinLines.
      - destruct ls; discriminate.
      - intros l Hl. apply (Hlines l Hl). }
    assert (Hnonempty : filterError "rust" (rawError error) <> "").
    { intros Hempty. rewrite Hempty in Hsl. simpl in Hsl.
      destruct ls as [|x [|y ls]]; try discriminate Hsl.
      injection Hsl as Hsl. congruence. }
    rewrite (cleanError_keeps "rust" error Hnonempty), Hsl.
    intros l Hl. apply (Hlines l Hl).
Qed.

(** ** Error clean-up: the wrapper of a failed command *)

Lemma length_append (a b : string) :
  String.length (a ++ b) = String.length a + String.length b.
Proof.
  induction a as [|c a IH]; [reflexivity|].
  rewrite append_cons. simpl. now rewrite IH.
Qed.

Lemma dropChars_app (x y : string) : dropChars (String.length x) (x ++ y) = y.
Proof.
  induction x as [|c x IH]; [reflexivity|].
  rewrite append_cons. simpl. exact IH.
Qed.

Lemma spanNonQuote_app (x y : string) :
  allChars notQuote x = true ->
  spanNonQuote (x ++ dq ++ y) = String.length x.
Proof.
  induction x as [|c x IH]; intros H.
  - reflexivity.
  - simpl in H. apply andb_prop in H. destruct H as [Hc Hx].
    unfold notQuote in Hc. apply negb_true_iff in Hc.
    rewrite append_cons. cbn [spanNonQuote]. rewrite Hc.
    simpl. now rewrite (IH Hx).
Qed.

(** The literal that opens the tail of the wrapper pattern. *)
Lemma tail_literal (shell : string) :
  (shell ++ " -c " ++ dq) = ((shell ++ " -c ") ++ dq ++ "").
Proof. now rewrite append_assoc, append_nil_r. Qed.

Lemma shell_literal_plain (shell : string) :
  allChars notQuote shell = true -> allChars notQuote (shell ++ " -c ") = true.
Proof. intros H. now rewrite allChars_app, H. Qed.

(** The tail of the wrapper pattern does not start inside a stretch
    without double quotes that precedes the shell name. *)
Lemma no_early_tail (shell a z : string) :
  allChars notQuote shell = true -> allChars notQuote a = true -> a <> "" ->
  startsWith (shell ++ " -c " ++ dq) (a ++ (shell ++ " -c " ++ dq) ++ z)
  = false.
Proof.
  intros Hshell Ha Hne. apply not_true_is_false. intros H.
  apply startsWith_app in H. destruct H as [t Ht].
  assert (Hl : spanNonQuote (a ++ (shell ++ " -c " ++ dq) ++ z)
               = String.length a + String.length (shell ++ " -c ")).
  { rewrite <- (append_assoc shell " -c " dq).
    rewrite (append_assoc (shell ++ " -c ") dq z).
    rewrite <- (append_assoc a (shell ++ " -c ") (dq ++ z)).
    rewrite spanNonQuote_app, length_append; [reflexivity|].
    rewrite allChars_app, Ha. now apply shell_literal_plain. }
  assert (Hr : spanNonQuote ((shell ++ " -c " ++ dq) ++ t)
               = String.length (shell ++ " -c ")).
  { rewrite <- (append_assoc shell " -c " dq).
    rewrite (append_assoc (shell ++ " -c ") dq t).
    apply spanNonQuote_app. now apply shell_literal_plain. }
  rewrite Ht, Hr in Hl. destruct a; [congruence|]. simpl in Hl. lia.
Qed.

Lemma matchShellTail_here (shell script rest : string) :
  allChars notQuote script = true -> script <> "" ->
  matchShellTail shell ((shell ++ " -c " ++ dq) ++ script ++ dq ++ rest)
  = Some (String.length (shell ++ " -c " ++ dq) + String.length script + 1).
Proof.
  intros Hs Hne. unfold matchShellTail. cbv zeta.
  assert (Hstart : startsWith (shell ++ " -c " ++ dq)
                     ((shell ++ " -c " ++ dq) ++ script ++ dq ++ rest) = true)
    by (apply startsWith_app; eauto).
  rewrite Hstart, dropChars_app, (spanNonQuote_app script rest Hs).
  rewrite dropChars_app.
  assert (Hq : startsWith dq (dq ++ rest) = true)
    by (apply startsWith_app; eauto).
  rewrite Hq. destruct script; [congruence|]. reflexivity.
Qed.

Lemma matchLazyDots_tail (shell s : string) (n : nat) :
  matchShellTail shell s = Some n -> matchLazyDots shell s = Some n.
Proof. intros H. destruct s; cbn [matchLazyDots]; now rewrite H. Qed.

Lemma matchLazyDots_pre (shell pre script rest : string) :
  allChars notQuote shell = true ->
  allChars plainChar pre = true ->
  allChars notQuote script = true -> script <> "" ->
  matchLazyDots shell (pre ++ (shell ++ " -c " ++ dq) ++ script ++ dq ++ rest)
  = Some (String.length pre + String.length (shell ++ " -c " ++ dq)
          + String.length script + 1).
Proof.
  intros Hshell Hpre Hs Hne. induction pre as [|c pre IH].
  - rewrite append_nil_l. apply matchLazyDots_tail.
    now rewrite (matchShellTail_here shell script rest Hs Hne).
  - simpl in Hpre. apply andb_prop in Hpre. destruct Hpre as [Hc Hpre].
    unfold plainChar in Hc. apply andb_prop in Hc. destruct Hc as [Hq Hlt].
    apply negb_true_iff in Hlt.
    assert (Hplain : forall s, allChars plainChar s = true ->
                               allChars notQuote s = true).
    { induction s as [|d s IHs]; simpl; [reflexivity|].
      intros H. apply andb_prop in H. destruct H as [Hd Hs'].
      unfold plainChar in Hd. apply andb_prop in Hd.
      rewrite (proj1 Hd). now apply IHs. }
    assert (Hnone : matchShellTail shell
                      (String c pre ++ (shell ++ " -c " ++ dq)
                       ++ script ++ dq ++ rest) = None).
    { unfold matchShellTail. cbv zeta.
      rewrite (no_early_tail shell (String c pre) (script ++ dq ++ rest));
        try assumption; try discriminate; [reflexivity|].
      simpl. rewrite Hq. now apply Hplain. }
    rewrite (append_cons c pre) in Hnone |- *.
    cbn [matchLazyDots]. rewrite Hnone, Hlt.
    rewrite (IH Hpre). reflexivity.
Qed.

Lemma replaceWrapperFrom_skip (shell x y : string) :
  replaceWrapperFrom shell (String.length x) (x ++ y)
  = replaceWrapperFrom shell 0 y.
Proof.
  induction x as [|c x IH]; [reflexivity|].
  rewrite append_cons. simpl. exact IH.
Qed.

Lemma replaceWrapperFrom_match (shell x y : string) :
  x <> "" ->
  matchWrapper shell (x ++ y) = Some (String.length x) ->
  replaceWrapperFrom shell 0 (x ++ y) = replaceWrapperFrom shell 0 y.
Proof.
  intros Hne H. destruct x as [|c x]; [congruence|].
  rewrite append_cons in *. cbn [replaceWrapperFrom]. rewrite H.
  simpl String.length. apply replaceWrapperFrom_skip.
Qed.

(** A text without [Command failed:] holds no wrapper. *)
Lemma replaceWrapper_absent (shell s : string) :
  includes "Command failed:" s = false -> replaceWrapper shell s = s.
Proof.
  unfold replaceWrapper. induction s as [|c s IH]; intros H; [reflexivity|].
  cbn [replaceWrapperFrom]. unfold matchWrapper. cbv zeta.
  rewrite (includes_false_no_head _ _ H).
  rewrite includes_cons in H. apply orb_false_elim in H.
  now rewrite (IH (proj2 H)).
Qed.

(** The wrapper at the start of a text is removed as a whole. *)
Lemma replaceWrapper_leading (shell pre script rest : string) :
  allChars notQuote shell = true ->
  allChars plainChar pre = true ->
  allChars notQuote script = true -> script <> "" ->
  includes "Command failed:" rest = false ->
  replaceWrapper shell
    ("Command failed:" ++ pre ++ (shell ++ " -c " ++ dq) ++ script ++ dq ++ rest)
  = rest.
Proof.
  intros Hshell Hpre Hs Hne Hrest.
  rewrite <- (replaceWrapper_absent shell rest Hrest) at 2.
  unfold replaceWrapper.
  assert (Hx : ("Command failed:" ++ pre ++ (shell ++ " -c " ++ dq)
                ++ script ++ dq ++ rest)
               = (("Command failed:" ++ pre ++ (shell ++ " -c " ++ dq)
                   ++ script ++ dq) ++ rest))
    by now rewrite !append_assoc.
  rewrite Hx. apply replaceWrapperFrom_match; [discriminate|].
  rewrite <- Hx. unfold matchWrapper. cbv zeta.
  assert (Hstart : startsWith "Command failed:"
                     ("Command failed:" ++ pre ++ (shell ++ " -c " ++ dq)
                      ++ script ++ dq ++ rest) = true)
    by (apply startsWith_app; eauto).
  rewrite Hstart, dropChars_app.
  rewrite (matchLazyDots_pre shell pre script rest Hshell Hpre Hs Hne).
  simpl option_map. f_equal. rewrite !length_append. simpl String.length. lia.
Qed.

Lemma filterError_other (language raw : string) :
  language <> "cpp" -> language <> "rust" ->
  filterError language raw = trim (replaceWrapper "sh" raw).
Proof.
  intros H1 H2. unfold filterError.
  apply String.eqb_neq in H1, H2. now rewrite H1, H2.
Qed.

(** X15.  For a language other than cpp and rust (that is, for go) the
    error text is cleaned as follows.  A text that does not contain
    [Command failed:] is only trimmed.  A text that starts with the
    wrapper of a failed command, [Command failed:], the command line up
    to [sh -c] and the quoted script, loses that wrapper as a whole: what
    is shown is the rest of the text, trimmed, so the command line is
    not part of the message. *)
Theorem X15_command_wrapper_removed :
  forall language : string,
    language <> "cpp" -> language <> "rust" ->
    (forall raw,
        includes "Command failed:" raw = false ->
        filterError language raw = trim raw) /\
    (forall pre script rest,
        allChars plainChar pre = true ->
        allChars notQuote script = true -> script <> "" ->
        includes "Command failed:" rest = false ->
        filterError language
          ("Command failed:" ++ pre ++ "sh -c " ++ dq ++ script ++ dq ++ rest)
        = trim rest).
Proof.
  intros language H1 H2. split.
  - intros raw Hraw. rewrite (filterError_other language raw H1 H2).
    now rewrite (replaceWrapper_absent "sh" raw Hraw).
  - intros pre script rest Hpre Hs Hne Hrest.
    rewrite (filterError_other language _ H1 H2). f_equal.
    exact (replaceWrapper_leading "sh" pre script rest eq_refl Hpre Hs Hne
             Hrest).
Qed.

Lemma X15_command_wrapper_removed_witness :
  filterError "go"
    ("Command failed:" ++ " docker exec -w /src wasm-pool-go-0 " ++ "sh -c "
     ++ dq ++ "go build -o output.wasm main.go" ++ dq
     ++ nl ++ "./main.go:3:1: syntax error" ++ nl)
  = "./main.go:3:1: syntax error".
Proof.
  assert (H1 : "go" <> "cpp") by discriminate.
  assert (H2 : "go" <> "rust") by discriminate.
  pose proof (X15_command_wrapper_removed "go" H1 H2) as H.
  destruct H as [_ H].
  specialize (H " docker exec -w /src wasm-pool-go-0 "
                "go build -o output.wasm main.go"
                (nl ++ "./main.go:3:1: syntax error" ++ nl)
                eq_refl eq_refl).
  assert (H3 : "go build -o output.wasm main.go" <> "") by discriminate.
  assert (H4 : includes "Command failed:"
                 (nl ++ "./main.go:3:1: syntax error" ++ nl) = false)
    by (vm_compute; reflexivity).
  specialize (H H3 H4). exact H.
Defined.

(** ** Periodic health check *)

Arguments dockerRestart : simpl never.

Lemma callsOf_app (l1 l2 : list Event) :
  callsOf (l1 ++ l2) = (callsOf l1 ++ callsOf l2)%list.
Proof.
  induction l1 as [|e l1 IH]; simpl; [reflexivity|].
  destruct e; simpl; now rewrite IH.
Qed.

Lemma restartList (w : World) (containers : list string) :
  forall p,
    exists p',
      forEach containers
        (fun containerName =>
           tryCatch (await w (dockerRestart containerName) ;; ret tt)
             (fun _ => ret tt)) p
      = (Ret tt, p') /\
      server p' = server p /\
      containerName p' = containerName p /\
      tick p' = tick p + List.length containers /\
      exists new,
        trace p' = (trace p ++ new)%list /\
        callsOf new = map dockerRestart containers /\
        List.length new = List.length containers.
Proof.
  induction containers as [|c containers IH]; intros p.
  - rewrite forEach_nil. exists p. repeat split; [simpl; lia|].
    exists []. now rewrite app_nil_r.
  - rewrite forEach_cons. unfold bind at 1.
    set (p1 := mkProc (server p) (S (tick p))
                 (trace p ++ [Called (dockerRestart c)
                                (answer w (tick p) (dockerRestart c))])%list
                 (containerName p)).
    assert (H1 : tryCatch (await w (dockerRestart c) ;; ret tt)
                   (fun _ => ret tt) p = (Ret tt, p1)).
    { unfold tryCatch, bind, await, ret. subst p1.
      destruct (answer w (tick p) (dockerRestart c)); reflexivity. }
    rewrite H1. destruct (IH p1) as (p' & -> & Hs & Hn & Ht & new & Htr & Hc & Hl).
    exists p'. split; [reflexivity|]. split; [exact Hs|]. split; [exact Hn|].
    split; [rewrite Ht; simpl; lia|].
    exists (Called (dockerRestart c) (answer w (tick p) (dockerRestart c))
            :: new).
    split; [rewrite Htr; simpl; now rewrite <- app_assoc|].
    split; [simpl; now rewrite Hc|simpl; now rewrite Hl].
Qed.

(** X16.  The periodic health check, run as a flow of its own, never
    throws whatever docker answers; it issues exactly one
    [docker restart] for every container that is in a free list when it
    starts, list by list in the order of the pool's keys and in the order
    of each list, and nothing else; and it leaves the server state (pool,
    cache, counter, queue) as it is.  A container that a job holds is in
    no free list and is not restarted. *)
Theorem X16_health_check :
  forall (w : World) (p : Proc),
    exists p' new,
      healthCheck w p = (Ret tt, p') /\
      server p' = server p /\
      trace p' = (trace p ++ new)%list /\
      callsOf new
      = map dockerRestart (concat (map snd (containerPool (server p)))) /\
      List.length new
      = List.length (concat (map snd (containerPool (server p)))).
Proof.
  intros w p. unfold healthCheck. unfold bind at 1. unfold getServer.
  generalize (containerPool (server p)). intros pool.
  assert (H : forall q,
             exists q' new,
               forEach pool
                 (fun entry =>
                    forEach (snd entry)
                      (fun containerName =>
                         tryCatch
                           (await w (dockerRestart containerName) ;; ret tt)
                           (fun _ => ret tt))) q
               = (Ret tt, q') /\
               server q' = server q /\
               trace q' = (trace q ++ new)%list /\
               callsOf new = map dockerRestart (concat (map snd pool)) /\
               List.length new = List.length (concat (map snd pool))).
  { induction pool as [|[lang containers] pool IH]; intros q.
    - rewrite forEach_nil. exists q, []. repeat split.
      now rewrite app_nil_r.
    - rewrite forEach_cons. unfold bind at 1. cbn [snd].
      destruct (restartList w containers q)
        as (q1 & -> & Hs1 & _ & _ & new1 & Htr1 & Hc1 & Hl1).
      destruct (IH q1) as (q' & new2 & -> & Hs2 & Htr2 & Hc2 & Hl2).
      exists q', (new1 ++ new2)%list.
      split; [reflexivity|]. split; [congruence|].
      split; [rewrite Htr2, Htr1; now rewrite app_assoc|].
      simpl. rewrite callsOf_app, map_app, !length_app. split; congruence. }
  exact (H p).
Qed.

(** ** Names inherited from [Object.prototype] *)

Lemma inherited_lookup (language : string) :
  In language objectPrototypeKeys -> objGet LANGUAGES language = Inherited.
Proof.
  intros H. simpl in H.
  repeat (destruct H as [<-|H]; [reflexivity|]). destruct H.
Qed.

Lemma inherited_not_special (language : string) :
  In language objectPrototypeKeys -> language <> "cpp" /\ language <> "rust".
Proof.
  intros H. simpl in H.
  repeat (destruct H as [<-|H]; [split; discriminate|]). destruct H.
Qed.

(** The job of a request whose language is an inherited member: it
    creates the scratch directory, fails on the file name, removes the
    directory and throws; it never asks for a container. *)
Lemma compileJob_inherited (w : World) (j : Job) (p : Proc) :
  objGet LANGUAGES (jobLanguage j) = Inherited ->
  exists e r1 r2,
    compileJob w j p
    = (Throw (newError (cleanError (jobLanguage j) e)),
       mkProc (server p) (S (S (S (tick p))))
         (trace p ++ [Called (Mkdir (jobTmpDir w p)) r1;
                      Called (Rm (jobTmpDir w p)) r2])%list
         "") /\
    r1 = answer w (S (tick p)) (Mkdir (jobTmpDir w p)) /\
    (forall out, r1 = Resolved out ->
       e = typeError ("The " ++ dq ++ "path" ++ dq
                      ++ " argument must be of type string. Received undefined")).
Proof.
  intros Hcfg. unfold compileJob, jobTmpDir.
  unfold bind at 1. unfold uuidv4. unfold bind at 1. unfold setContainerName.
  unfold tryCatch. cbn [server tick trace containerName].
  generalize (pathJoin [tmpdir w; "wasm-compilers-express"; uuid w (tick p)]).
  intros tmpDir. cbv zeta.
  unfold jobTry. rewrite Hcfg. unfold jobCatch. flow_unfold. simpl.
  destruct (answer w (S (tick p)) (Mkdir tmpDir)) as [out|err] eqn:E1; simpl.
  - destruct (answer w (S (S (tick p))) (Rm tmpDir)) eqn:E2; simpl;
      rewrite <- app_assoc; simpl;
      (eexists; eexists; eexists; split; [reflexivity|]);
      (split; [reflexivity|intros; reflexivity]).
  - destruct (answer w (S (S (tick p))) (Rm tmpDir)) eqn:E2; simpl;
      rewrite <- app_assoc; simpl;
      (eexists; eexists; eexists; split; [reflexivity|]);
      (split; [reflexivity|intros; discriminate]).
Qed.

Lemma cleanError_path_type_error (language : string) :
  language <> "cpp" -> language <> "rust" ->
  cleanError language
    (typeError ("The " ++ dq ++ "path" ++ dq
                ++ " argument must be of type string. Received undefined"))
  = ("The " ++ dq ++ "path" ++ dq
     ++ " argument must be of type string. Received undefined").
Proof.
  intros H1 H2.
  assert (Hf : filterError language
                 (rawError
                    (typeError
                       ("The " ++ dq ++ "path" ++ dq
                        ++ " argument must be of type string. Received undefined")))
               = ("The " ++ dq ++ "path" ++ dq
                  ++ " argument must be of type string. Received undefined")).
  { rewrite (filterError_other language _ H1 H2).
    rewrite replaceWrapper_absent by (vm_compute; reflexivity).
    vm_compute. reflexivity. }
  rewrite cleanError_keeps; [exact Hf|].
  rewrite Hf. vm_compute. discriminate.
Qed.

(** X17.  A request whose language is the name of a member that every
    object inherits ([constructor], [toString], [__proto__], ...) is not
    rejected by the validation.  With the pool ready, nothing cached
    under its key and a free slot, the handler takes a slot and runs the
    job, which creates the scratch directory, fails before it asks for a
    container, and removes the directory; the response is a 500, the
    server state is afterwards what it was before, and the only external
    calls are that [mkdir] and that [rm].  When the [mkdir] succeeds the
    error text is Node's complaint about the undefined file name. *)
Theorem X17_inherited_language_fails_late :
  forall (sha256hex : string -> string) (w : World) (language code : string)
         (p : Proc),
    In language objectPrototypeKeys ->
    code <> "" ->
    poolReady (server p) = true ->
    JsMap.get (getCacheKey sha256hex language code)
      (compilationCache (server p)) = None ->
    activeCompilations (admission (server p)) < MAX_CONCURRENT_COMPILATIONS ->
    requestQueue (admission (server p)) = [] ->
    let req := mkRequest (Some language) (Some code) in
    let r := handler sha256hex w req p in
    validationError req = None /\
    exists msg dir r1 r2,
      fst r = Ret (Responded (mkResponse 500 [("error", JStr msg)])) /\
      server (snd r) = server p /\
      trace (snd r)
      = (trace p ++ [Called (Mkdir dir) r1; Called (Rm dir) r2])%list /\
      ((exists out, r1 = Resolved out) ->
       msg = ("The " ++ dq ++ "path" ++ dq
              ++ " argument must be of type string. Received undefined")).
Proof.
  intros sha256hex w language code p Hin Hcode Hready Hmiss Hlt Hqueue req r.
  pose proof (inherited_lookup language Hin) as Hcfg.
  destruct (inherited_not_special language Hin) as [Hcpp Hrust].
  assert (Hlang : language <> "").
  { intros ->. simpl in Hin. intuition discriminate. }
  assert (Hval : validationError req = None).
  { unfold validationError, req. simpl.
    destruct language; [congruence|]. destruct code; [congruence|].
    simpl. now rewrite Hcfg. }
  split; [exact Hval|].
  destruct (handler_spec sha256hex w req p) as (p0 & _ & Hp0 & Hcases).
  rewrite (Hp0 Hready) in Hcases. clear p0 Hp0.
  rewrite Hval in Hcases. unfold AnsweredFromJob in Hcases.
  assert (Hjob : requestJob sha256hex req
                 = mkJob language code (getCacheKey sha256hex language code))
    by reflexivity.
  rewrite Hjob in Hcases. cbn [jobCacheKey] in Hcases.
  rewrite Hmiss in Hcases. unfold enter in Hcases.
  apply Nat.ltb_lt in Hlt. rewrite Hlt in Hcases.
  destruct Hcases as [p2 Hcases].
  match type of Hcases with
  | context [compileJob w ?j ?q] =>
      destruct (compileJob_inherited w j q Hcfg)
        as (e & r1 & r2 & Hrun & _ & Hmsg)
  end.
  rewrite Hrun in Hcases. destruct Hcases as [Hfin Hr].
  revert Hfin. unfold finallyBlock, finish. flow_unfold.
  cbn [server admission setAdmission withAdmission tickProc requestQueue
       activeCompilations tick trace containerName].
  rewrite Hqueue. simpl. intros [= <-].
  subst r. rewrite Hr. cbn [fst snd server trace].
  eexists. eexists. exists r1, r2.
  split; [reflexivity|]. split; [|split; [reflexivity|]].
  - destruct (server p) as [c [active queue] pool i rd pr]. simpl in *.
    subst queue. unfold setAdmission. simpl. do 2 f_equal. lia.
  - intros [out Hout]. rewrite (Hmsg out Hout).
    exact (cleanError_path_type_error language Hcpp Hrust).
Qed.

Lemma X17_inherited_language_fails_late_witness :
  exists msg,
    fst (handler plainHash sampleWorld
           (mkRequest (Some "constructor") (Some "x"))
           (startProc
              (serverAfter plainHash [(sampleWorld, mkRequest None None)])))
    = Ret (Responded (mkResponse 500 [("error", JStr msg)])).
Proof.
  pose proof (X17_inherited_language_fails_late plainHash sampleWorld
                "constructor" "x"
                (startProc
                   (serverAfter plainHash
                      [(sampleWorld, mkRequest None None)]))) as H.
  assert (H1 : In "constructor" objectPrototypeKeys) by (simpl; auto).
  assert (H2 : "x" <> "") by discriminate.
  assert (H3 : poolReady
                 (server
                    (startProc
                       (serverAfter plainHash
                          [(sampleWorld, mkRequest None None)]))) = true)
    by (vm_compute; reflexivity).
  assert (H4 : JsMap.get (getCacheKey plainHash "constructor" "x")
                 (compilationCache
                    (server
                       (startProc
                          (serverAfter plainHash
                             [(sampleWorld, mkRequest None None)])))) = None)
    by (vm_compute; reflexivity).
  assert (H5 : activeCompilations
                 (admission
                    (server
                       (startProc
                          (serverAfter plainHash
                             [(sampleWorld, mkRequest None None)]))))
               < MAX_CONCURRENT_COMPILATIONS)
    by (vm_compute; lia).
  assert (H6 : requestQueue
                 (admission
                    (server
                       (startProc
                          (serverAfter plainHash
                             [(sampleWorld, mkRequest None None)])))) = [])
    by (vm_compute; reflexivity).
  specialize (H H1 H2 H3 H4 H5 H6). cbv zeta in H.
  destruct H as (_ & msg & _ & _ & _ & H & _). exists msg. exact H.
Defined.

(** ** The queued path *)


(** ** The transfer protocol *)













(** ** Base64 *)

Lemma string_ind3 (P : string -> Prop) :
  P "" ->
  (forall a, P (String a "")) ->
  (forall a b, P (String a (String b ""))) ->
  (forall a b c s, P s -> P (String a (String b (String c s)))) ->
  forall s, P s.
Proof.
  intros H0 H1 H2 H3.
  assert (H : forall s, P s /\ (forall a, P (String a s))
                        /\ (forall a b, P (String a (String b s)))).
  { induction s as [|c s (IH0 & IH1 & IH2)].
    - auto.
    - split; [apply IH1|]. split; [intros a; apply IH2|].
      intros a b. apply H3, IH0. }
  intros s. apply H.
Qed.

Lemma b64Index_b64Char (n : nat) : n < 64 -> b64Index (b64Char n) = n.
Proof.
  intros Hn.
  assert (H : forallb (fun k => (b64Index (b64Char k) =? k)%nat) (seq 0 64)
              = true) by (vm_compute; reflexivity).
  rewrite forallb_forall in H. apply Nat.eqb_eq, H, in_seq. lia.
Qed.

Lemma b64Char_inj (n m : nat) :
  n < 64 -> m < 64 -> b64Char n = b64Char m -> n = m.
Proof.
  intros Hn Hm H.
  rewrite <- (b64Index_b64Char n Hn), <- (b64Index_b64Char m Hm).
  now rewrite H.
Qed.

Lemma b64Char_not_pad (n : nat) : n < 64 -> b64Char n <> "="%char.
Proof.
  intros Hn H.
  pose proof (b64Index_b64Char n Hn) as Hi. rewrite H in Hi.
  vm_compute in Hi. lia.
Qed.

Lemma nat_of_ascii_lt (a : ascii) : nat_of_ascii a < 256.
Proof. apply nat_ascii_bounded. Qed.

Lemma nat_of_ascii_inj (a b : ascii) : nat_of_ascii a = nat_of_ascii b -> a = b.
Proof.
  intros H. rewrite <- (ascii_nat_embedding a), <- (ascii_nat_embedding b).
  now rewrite H.
Qed.

Lemma base64_nil : base64 "" = "".
Proof. reflexivity. Qed.

Lemma base64_one (a : ascii) :
  base64 (String a "")
  = String (b64Char (nat_of_ascii a / 4))
      (String (b64Char (nat_of_ascii a mod 4 * 16)) "==").
Proof. reflexivity. Qed.

Lemma base64_two (a b : ascii) :
  base64 (String a (String b ""))
  = String (b64Char (nat_of_ascii a / 4))
      (String (b64Char (nat_of_ascii a mod 4 * 16 + nat_of_ascii b / 16))
         (String (b64Char (nat_of_ascii b mod 16 * 4)) "=")).
Proof. reflexivity. Qed.

Lemma base64_three (a b c : ascii) (s : string) :
  base64 (String a (String b (String c s)))
  = String (b64Char (nat_of_ascii a / 4))
      (String (b64Char (nat_of_ascii a mod 4 * 16 + nat_of_ascii b / 16))
         (String (b64Char (nat_of_ascii b mod 16 * 4 + nat_of_ascii c / 64))
            (String (b64Char (nat_of_ascii c mod 64)) (base64 s)))).
Proof. reflexivity. Qed.

Ltac bounds :=
  repeat match goal with
         | |- context [nat_of_ascii ?a] =>
             lazymatch goal with
             | _ : nat_of_ascii a < 256 |- _ => fail
             | _ => pose proof (nat_of_ascii_lt a)
             end
         | _ : context [nat_of_ascii ?a] |- _ =>
             lazymatch goal with
             | _ : nat_of_ascii a < 256 |- _ => fail
             | _ => pose proof (nat_of_ascii_lt a)
             end
         end.

Ltac divmod :=
  repeat match goal with
         | H : nat_of_ascii ?a < 256 |- _ =>
             lazymatch goal with
             | _ : nat_of_ascii a mod 4 < 4 |- _ => fail
             | _ =>
                 pose proof (Nat.div_mod_eq (nat_of_ascii a) 4);
                 pose proof (Nat.mod_upper_bound (nat_of_ascii a) 4
                               ltac:(discriminate));
                 pose proof (Nat.div_mod_eq (nat_of_ascii a) 16);
                 pose proof (Nat.mod_upper_bound (nat_of_ascii a) 16
                               ltac:(discriminate));
                 pose proof (Nat.div_mod_eq (nat_of_ascii a) 64);
                 pose proof (Nat.mod_upper_bound (nat_of_ascii a) 64
                               ltac:(discriminate))
             end
         end.

Ltac arith :=
  bounds; divmod;
  repeat match goal with
         | H : context [nat_of_ascii ?a] |- _ =>
             let x := fresh "x" in
             set (x := nat_of_ascii a) in *; clearbody x
         end;
  repeat match goal with
         | a : ascii |- _ => clear a
         end;
  lia.

Ltac sextets :=
  repeat match goal with
         | H : b64Char ?n = b64Char ?m |- _ =>
             apply b64Char_inj in H; [|arith..]
         end.

Ltac pad_clash :=
  match goal with
  | H : "="%char = b64Char ?n |- _ =>
      exfalso; apply (b64Char_not_pad n); [arith|now symmetry]
  | H : b64Char ?n = "="%char |- _ =>
      exfalso; apply (b64Char_not_pad n); [arith|assumption]
  end.

Lemma string_cons_inj (a b : ascii) (s t : string) :
  String a s = String b t -> a = b /\ s = t.
Proof. intros H. injection H. auto. Qed.

Ltac chars H :=
  repeat (apply string_cons_inj in H;
          let H1 := fresh "Hc" in destruct H as [H1 H]).

Lemma base64_inj (s : string) : forall t, base64 s = base64 t -> s = t.
Proof.
  induction s as [|a|a b|a b c s IH] using string_ind3;
    intros [|a' [|b' [|c' t]]];
    rewrite ?base64_nil, ?base64_one, ?base64_two, ?base64_three;
    intros H; try discriminate H; try reflexivity.
  - chars H. sextets.
    f_equal. apply nat_of_ascii_inj. arith.
  - chars H. pad_clash.
  - chars H. pad_clash.
  - chars H. pad_clash.
  - chars H. sextets.
    f_equal; [|f_equal]; apply nat_of_ascii_inj; arith.
  - chars H. pad_clash.
  - chars H. pad_clash.
  - chars H. pad_clash.
  - chars H. sextets.
    rewrite (IH t H).
    f_equal; [|f_equal; [|f_equal]]; apply nat_of_ascii_inj; arith.
Qed.

Lemma base64_length (s : string) :
  String.length (base64 s) = 4 * ((String.length s + 2) / 3).
Proof.
  induction s as [|a|a b|a b c s IH] using string_ind3;
    rewrite ?base64_nil, ?base64_one, ?base64_two, ?base64_three;
    try reflexivity.
  cbn [String.length]. rewrite IH.
  replace (S (S (S (String.length s))) + 2) with (String.length s + 2 + 1 * 3)
    by lia.
  rewrite Nat.div_add by lia. lia.
Qed.

(** X20.  The transport encoding of the artifact loses nothing: two
    different byte strings never have the same base64 text, so the
    [wasm] field of a response determines the bytes that were read from
    [output.wasm]; and the text has four characters for every three
    bytes, rounded up. *)
Theorem X20_base64_faithful :
  forall s t : string,
    (base64 s = base64 t <-> s = t) /\
    String.length (base64 s) = 4 * ((String.length s + 2) / 3).
Proof.
  intros s t. split; [split|].
  - apply base64_inj.
  - now intros ->.
  - apply base64_length.
Qed.

(** ** Ownership of a container *)






Lemma releaseContainer_fate (w : World) (language c : string) (p : Proc)
    (pool : list string) :
  objGet (containerPool (server p)) language = Own pool ->
  let p' := snd (releaseContainer w language c p) in
  if (List.length pool <? releasePoolSize language)%nat && includes "pool" c
  then containerPool (server p')
       = ownSet language (pool ++ [c])%list (containerPool (server p))
  else exists r, In (Called (dockerRm c) r) (trace p').
Proof.
  intros Hown. unfold releaseContainer. flow_unfold. simpl. rewrite Hown.
  destruct (_ && _); simpl; [reflexivity|].
  destruct (answer w (tick p) (dockerRm c)) eqn:E; simpl;
    eexists; apply in_last.
Qed.

(** A container that was acquired and released: afterwards it is back in
    its free list if it is a warm one, and its removal was issued if it
    is an ephemeral one. *)
Lemma fate_chain (w : World) (language c : string) (q1 q2 q3 p4 p' : Proc) :
  PoolWellFormed (server q1) ->
  getContainer w language q1 = (Ret c, q2) ->
  Follows q2 q3 ->
  releaseContainer w language c q3 = (Ret tt, p4) ->
  Follows p4 p' ->
  In (Acquired c) (trace p') /\
  In (Released language c) (trace p') /\
  ((includes "pool" c = true /\ In c (freeList (server p') language)) \/
   (includes "pool" c = false /\
    exists r, In (Called (dockerRm c) r) (trace p'))).
Proof.
  intros Hwf Hget [[Hf3 Hr3] Ht3] Hrel [[Hf4 Hr4] Ht4].
  pose proof (getContainer_spec w language q1) as Hspec.
  pose proof (getContainer_pool w language q1) as Hpool.
  rewrite Hget in Hspec, Hpool.
  destruct Hspec as (_ & _ & _ & [pool Hown2] & _ & Hacq).
  assert (Hown3 : objGet (containerPool (server q3)) language = Own pool)
    by (rewrite Hf3; exact Hown2).
  destruct (releaseContainer_spec w language c q3 pool Hown3)
    as (p4' & Hrel' & Hsteps & _ & _ & Hreleased).
  rewrite Hrel in Hrel'. injection Hrel' as <-.
  destruct Hsteps as (_ & _ & _ & _ & _ & Hmono & _).
  split; [apply Ht4, Hmono, Ht3, Hacq|].
  split; [apply Ht4, Hreleased|].
  pose proof (releaseContainer_fate w language c q3 pool Hown3) as Hfate.
  rewrite Hrel in Hfate. cbn [snd] in Hfate.
  destruct Hpool as [_ [(rest & Hown & Hp2)|(Hown & Hp2 & -> & [cfg Hcfg])]].
  - assert (Hpool_eq : pool = rest).
    { rewrite Hp2 in Hown2. rewrite (objGet_ownSet _ _ _ _ Hown) in Hown2.
      now injection Hown2. }
    subst pool.
    pose proof (objGet_Own_In _ _ _ Hown) as Hin.
    pose proof (PoolWellFormed_length _ _ _ Hwf Hin) as Hlen. simpl in Hlen.
    destruct Hwf as [[_ Hmem] _].
    destruct (Hmem _ _ Hin) as [_ Hwarm].
    destruct (Hwarm c (or_introl eq_refl)) as (i & _ & Hc).
    assert (Hmark : includes "pool" c = true)
      by (rewrite Hc; apply warmName_marked).
    assert (Hpush : (List.length rest <? releasePoolSize language)%nat
                    && includes "pool" c = true)
      by (rewrite Hmark, andb_true_r; apply Nat.ltb_lt; lia).
    rewrite Hpush in Hfate. left. split; [exact Hmark|].
    unfold freeList. rewrite Hf4, Hfate, ownGet_ownSet_same.
    apply in_or_app. right. now left.
  - assert (Hmark : includes "pool"
                      (tempName language (clock w (tick q1))) = false)
      by exact (tempName_unmarked language _ (registered_in_list _ _ Hcfg)).
    rewrite Hmark, andb_false_r in Hfate. destruct Hfate as [r Hr].
    right. split; [exact Hmark|]. exists r. apply Ht4, Hr.
Qed.

(** X22.  What becomes of a container that a job acquired.  For a job
    started in a state the server reaches by handling requests one after
    the other, and whatever the outside world answers: when the job is
    over (it returned or it threw) every container it acquired has been
    released, and it is back in the free list of the job's language if
    it is a warm container, while [docker rm -f] was issued for it if it
    is an ephemeral one.  No container is left held and none is left
    running unpooled. *)
Theorem X22_acquired_container_fate :
  forall (sha256hex : string -> string) (history : list (World * Request))
         (w : World) (j : Job) (c : string),
    let p := startProc (serverAfter sha256hex history) in
    let p' := snd (compileJob w j p) in
    In (Acquired c) (trace p') ->
    In (Released (jobLanguage j) c) (trace p') /\
    ((includes "pool" c = true /\
      In c (freeList (server p') (jobLanguage j))) \/
     (includes "pool" c = false /\
      exists r, In (Called (dockerRm c) r) (trace p'))).
Proof.
  intros sha256hex history w j c p p'.
  pose proof (serverAfter_wellformed sha256hex history) as Hwf.
  pose proof (proj1 (serverAfter_invariants sha256hex history)) as Hok.
  subst p'.
  set (p0 := mkProc (server p) (S (tick p)) (trace p) "").
  change (compileJob w j p)
    with (tryCatch
            (jobTry w j
               (pathJoin [tmpdir w; "wasm-compilers-express"; uuid w (tick p)]))
            (jobCatch w (jobLanguage j)
               (pathJoin [tmpdir w; "wasm-compilers-express"; uuid w (tick p)]))
            p0).
  generalize (pathJoin [tmpdir w; "wasm-compilers-express"; uuid w (tick p)]).
  intros tmpDir. unfold tryCatch.
  assert (Hunique : forall q c1,
             count isAcquired (trace q) <= 1 ->
             In (Acquired c1) (trace q) -> In (Acquired c) (trace q) ->
             c = c1).
  { intros q c1 Hcount H1 H2. exact (acquired_unique c c1 _ Hcount H2 H1). }
  pose proof (jobTry_pool w j tmpDir p0) as Hshape.
  pose proof (jobTry_spec w j tmpDir p0 eq_refl) as Hspec.
  destruct (jobTry w j tmpDir p0) as [[result|e] p1]; cbn [snd].
  - destruct Hshape as (q1 & c0 & q2 & q3 & p4 & H1 & Hget & H3 & Hrel & H4).
    destruct Hspec as ((_ & Hcount & _) & _).
    destruct (fate_chain w (jobLanguage j) c0 q1 q2 q3 p4 p1
                (PoolWellFormed_frame _ _ H1 Hwf) Hget H3 Hrel H4)
      as (Ha & Hr & Hfate).
    intros Hc. assert (c = c0)
      by (apply (Hunique p1 c0); [simpl in Hcount; lia|assumption..]).
    subst c0. split; assumption.
  - destruct Hspec as (a & Ha1 & Hsteps & Ha & Hheld & _).
    specialize (Ha Hok).
    pose proof (jobCatch_pool w (jobLanguage j) tmpDir e p1) as Hcatch.
    cbv zeta in Hcatch.
    assert (Hown' : containerName p1 <> "" ->
                    exists pool,
                      objGet (containerPool (server p1)) (jobLanguage j)
                      = Own pool)
      by (intros Hne; apply Hheld, Hne).
    destruct (jobCatch_spec w (jobLanguage j) tmpDir e p1 Hown')
      as (p2 & Hrun & Hsteps2 & _).
    rewrite Hrun in Hcatch |- *. cbn [snd] in Hcatch |- *.
    assert (Hcount : count isAcquired (trace p2) = a).
    { destruct Hsteps as (_ & Hc1 & _). destruct Hsteps2 as (_ & Hc2 & _).
      simpl in Hc1. rewrite Hc2, Hc1. unfold count. simpl. lia. }
    destruct Hshape as [[Hn Hf]|(q1 & q2 & H1 & Hget & H2)].
    + simpl in Hn. rewrite Hn in Ha. simpl in Ha. subst a.
      intros Hc. apply acquired_counted in Hc. lia.
    + pose proof (acquired_name w _ _ q1 q2
                    (PoolWellFormed_frame _ _ H1 Hwf) Hget) as Hne.
      destruct (Hown' Hne) as [pool Hown1].
      destruct (containerName p1) as [|x c0] eqn:Ec; [congruence|].
      destruct (Hcatch pool Hown1) as (p1' & Hrel & H4).
      destruct (fate_chain w (jobLanguage j) (String x c0) q1 q2 p1 p1' p2
                  (PoolWellFormed_frame _ _ H1 Hwf) Hget H2 Hrel H4)
        as (Hacq & Hr & Hfate).
      intros Hc. assert (c = String x c0)
        by (apply (Hunique p2 (String x c0)); [lia|assumption..]).
      subst c. split; assumption.
Qed.

Lemma X22_acquired_container_fate_witness :
  In (Released "go" "wasm-pool-go-0")
     (trace (snd (compileJob sampleWorld (mkJob "go" "package main" "k")
                    (startProc
                       (serverAfter plainHash
                          [(sampleWorld, mkRequest None None)]))))).
Proof.
  pose proof (X22_acquired_container_fate plainHash
                [(sampleWorld, mkRequest None None)] sampleWorld
                (mkJob "go" "package main" "k") "wasm-pool-go-0") as H.
  cbv zeta in H.
  assert (H1 : In (Acquired "wasm-pool-go-0")
                 (trace (snd (compileJob sampleWorld
                                (mkJob "go" "package main" "k")
                                (startProc
                                   (serverAfter plainHash
                                      [(sampleWorld, mkRequest None None)]))))))
    by (vm_compute; repeat first [left; reflexivity | right]).
  exact (proj1 (H H1)).
Defined.
